(** * Valita: a shallow embedding of [src/index.ts]

    The validation engine of the library is embedded as Rocq functions:
    the schema nodes ([Type] and its subclasses), the compiled validation
    functions ([genFunc]), the issue tree and its flattening
    ([_collectIssues]), the union dispatcher ([createObjectMatchers],
    [createUnionMatcher]) and the [parse] entry point.

    Conventions of the embedding.
    - A JavaScript value is a tree ([value]).  Reference identity of the
      object or array under validation is not stored in the value: the
      code only ever compares [output === obj] (resp. [arr]), and that
      comparison is carried by an [option]: [None] is "output is still
      the input object", [Some o] is "output is the clone [o]".
    - An object is a plain object: the list of its own enumerable
      properties in enumeration order, with [Object.prototype] as its
      prototype.  The loop [for (key in obj)] and the copy [{...obj}] see
      the own properties; [key in obj] and [obj[key]] also see the
      properties inherited from the prototype.
    - Numbers are IEEE 754 values ([spec_float]), so that [NaN] and the
      two zeros exist.
    - A validation function returns, next to its result, the list of the
      validation functions it invoked (a [Call] per invocation, in order),
      so that "is never invoked" and "is left untried" can be stated. *)

From Stdlib Require Import List String ZArith Bool Arith Permutation.
From Stdlib Require Import Floats.SpecFloat.
From Stdlib Require Import DecimalString.
From Stdlib Require Import Lia.
Import ListNotations.
Local Open Scope string_scope.
Local Open Scope list_scope.

Set Implicit Arguments.
Set Warnings "-register-all".

(** ** Values *)

Module JS.

(** [type Literal = string | number | bigint | boolean] *)
Inductive Literal : Type :=
| LString (s : string)
| LNumber (n : spec_float)
| LBigInt (z : Z)
| LBoolean (b : bool).

(** Every JavaScript value the validator inspects.  [VNothing] is the
    module's private symbol [const Nothing = Symbol()]; [VObject props] is
    a plain object with the own enumerable properties [props], whose
    prototype is [Object.prototype]; [VFunction] is a function object,
    such as the methods a plain object inherits. *)
Inductive value : Type :=
| VUndefined
| VNull
| VBoolean (b : bool)
| VNumber (n : spec_float)
| VBigInt (z : Z)
| VString (s : string)
| VNothing
| VArray (items : list value)
| VObject (props : list (string * value))
| VFunction.

Definition ofLiteral (l : Literal) : value :=
  match l with
  | LString s => VString s
  | LNumber n => VNumber n
  | LBigInt z => VBigInt z
  | LBoolean b => VBoolean b
  end.

(** The strings that occur as the result of [typeof], as a [BaseType] and
    as the [name] of a schema class. *)
Inductive Name : Type :=
| n_object | n_array | n_null | n_undefined | n_string | n_number
| n_bigint | n_boolean | n_symbol | n_function
| n_nothing | n_unknown | n_literal | n_union | n_optional | n_transform.

Definition BaseType := Name.

Definition Name_eqb (a b : Name) : bool :=
  match a, b with
  | n_object, n_object | n_array, n_array | n_null, n_null
  | n_undefined, n_undefined | n_string, n_string | n_number, n_number
  | n_bigint, n_bigint | n_boolean, n_boolean | n_symbol, n_symbol
  | n_function, n_function
  | n_nothing, n_nothing | n_unknown, n_unknown | n_literal, n_literal
  | n_union, n_union | n_optional, n_optional
  | n_transform, n_transform => true
  | _, _ => false
  end.

(** [typeof v] *)
Definition typeof (v : value) : Name :=
  match v with
  | VUndefined => n_undefined
  | VNull => n_object
  | VBoolean _ => n_boolean
  | VNumber _ => n_number
  | VBigInt _ => n_bigint
  | VString _ => n_string
  | VNothing => n_symbol
  | VArray _ => n_object
  | VObject _ => n_object
  | VFunction => n_function
  end.

Definition Array_isArray (v : value) : bool :=
  match v with VArray _ => true | _ => false end.

Definition isNull (v : value) : bool :=
  match v with VNull => true | _ => false end.

Definition isUndefined (v : value) : bool :=
  match v with VUndefined => true | _ => false end.

Definition isNothing (v : value) : bool :=
  match v with VNothing => true | _ => false end.

(** [w === l] for a literal [l]: same type and same value; on numbers the
    IEEE 754 comparison, under which [NaN] differs from itself and the
    two zeros are equal. *)
Definition strictEqLiteral (w : value) (l : Literal) : bool :=
  match w, l with
  | VString a, LString b => String.eqb a b
  | VNumber a, LNumber b => SFeqb a b
  | VBigInt a, LBigInt b => Z.eqb a b
  | VBoolean a, LBoolean b => Bool.eqb a b
  | _, _ => false
  end.

Definition isNaN (n : spec_float) : bool :=
  match n with S754_nan => true | _ => false end.

(** SameValueZero, the key equality of [Map] and [Set]: as [===] but
    [NaN] equals [NaN]. *)
Definition sameValueZero (w : value) (l : Literal) : bool :=
  match w, l with
  | VNumber a, LNumber b => (isNaN a && isNaN b) || SFeqb a b
  | _, _ => strictEqLiteral w l
  end.

(** Own-property access on the property list of an object. *)
Fixpoint getProp (props : list (string * value)) (key : string)
  : option value :=
  match props with
  | [] => None
  | (k, v) :: rest => if String.eqb k key then Some v else getProp rest key
  end.

(** The methods of [Object.prototype]. *)
Definition prototypeMethods : list string :=
  [ "constructor"; "hasOwnProperty"; "isPrototypeOf";
    "propertyIsEnumerable"; "toLocaleString"; "toString"; "valueOf";
    "__defineGetter__"; "__defineSetter__"; "__lookupGetter__";
    "__lookupSetter__" ].

(** What a plain object inherits under [key]: a method of
    [Object.prototype], or under [__proto__] the prototype itself, an
    object without enumerable properties. *)
Definition inherited (key : string) : option value :=
  if existsb (String.eqb key) prototypeMethods then Some VFunction
  else if String.eqb key "__proto__" then Some (VObject [])
  else None.

(** Property lookup: an own property first, then the prototype. *)
Definition lookup (props : list (string * value)) (key : string)
  : option value :=
  match getProp props key with
  | Some v => Some v
  | None => inherited key
  end.

(** [key in obj] *)
Definition hasProp (props : list (string * value)) (key : string) : bool :=
  match lookup props key with Some _ => true | None => false end.

(** [obj[key]]: [undefined] when the property does not exist. *)
Definition readProp (props : list (string * value)) (key : string) : value :=
  match lookup props key with Some v => v | None => VUndefined end.

(** [obj[key] = v]: an existing property keeps its place, a new one is
    added last (the place JavaScript gives to a new key that is not an
    array index). *)
Fixpoint setProp (props : list (string * value)) (key : string) (v : value)
  : list (string * value) :=
  match props with
  | [] => [(key, v)]
  | (k, old) :: rest =>
      if String.eqb k key then (k, v) :: rest
      else (k, old) :: setProp rest key v
  end.

(** [arr[i] = v] for [i < arr.length]. *)
Fixpoint setIndex (items : list value) (i : nat) (v : value) : list value :=
  match items, i with
  | [], _ => []
  | _ :: rest, O => v :: rest
  | x :: rest, S j => x :: setIndex rest j v
  end.

End JS.
Import JS.

(** ** Issues and issue trees *)

(** [type Key = string | number] *)
Inductive Key : Type :=
| KString (s : string)
| KNumber (n : Z).

(** [type CustomError = undefined | string | { message?, path? }] *)
Inductive CustomError : Type :=
| CEUndefined
| CEString (s : string)
| CEObject (message : option string) (path : option (list Key)).

(** [Issue] and [IssueTree].  Every issue carries its optional [path]
    first, then the fields of its code. *)
Inductive Issue : Type :=
| invalid_type (path : option (list Key)) (expected : list BaseType)
| invalid_literal (path : option (list Key)) (expected : list Literal)
| missing_key (path : option (list Key)) (key : Key)
| unrecognized_key (path : option (list Key)) (key : Key)
| invalid_union (path : option (list Key)) (tree : IssueTree)
| custom_error (path : option (list Key)) (error : CustomError)
with IssueTree : Type :=
| prepend (key : Key) (tree : IssueTree)
| join (left right : IssueTree)
| issue (i : Issue).

Definition issuePath (i : Issue) : option (list Key) :=
  match i with
  | invalid_type p _ | invalid_literal p _ | missing_key p _
  | unrecognized_key p _ | invalid_union p _ | custom_error p _ => p
  end.

(** [{ ...tree, path: finalPath }] *)
Definition withPath (i : Issue) (finalPath : list Key) : Issue :=
  match i with
  | invalid_type _ e => invalid_type (Some finalPath) e
  | invalid_literal _ e => invalid_literal (Some finalPath) e
  | missing_key _ k => missing_key (Some finalPath) k
  | unrecognized_key _ k => unrecognized_key (Some finalPath) k
  | invalid_union _ t => invalid_union (Some finalPath) t
  | custom_error _ e => custom_error (Some finalPath) e
  end.

(** The path a [custom_error] adds: [tree.error?.path] when [tree.error]
    is not a string. *)
Definition customPath (i : Issue) : list Key :=
  match i with
  | custom_error _ (CEObject _ (Some p)) => p
  | _ => []
  end.

Definition ownPath (i : Issue) : list Key :=
  match issuePath i with Some p => p | None => [] end.

(** [_collectIssues(tree, path, issues)]: the mutable [path] stack is the
    argument [path] (pushed on the way down, so popped on return), the
    mutable [issues] array is threaded through. *)
Fixpoint _collectIssues (tree : IssueTree) (path : list Key)
  (issues : list Issue) : list Issue :=
  match tree with
  | join l r => _collectIssues r path (_collectIssues l path issues)
  | prepend key tree' => _collectIssues tree' (path ++ [key]) issues
  | issue i =>
      let finalPath := path ++ ownPath i ++ customPath i in
      issues ++ [withPath i finalPath]
  end.

Definition collectIssues (tree : IssueTree) : list Issue :=
  _collectIssues tree [] [].

(** [joinIssues(left, right)] with [right] possibly [undefined]. *)
Definition joinIssues (left : IssueTree) (right : option IssueTree)
  : IssueTree :=
  match right with
  | Some r => join left r
  | None => left
  end.

Definition prependPath (key : Key) (tree : IssueTree) : IssueTree :=
  prepend key tree.

(** [type Result<T> = true | { code: "ok", value } | IssueTree] *)
Inductive Result : Type :=
| RTrue
| ROk (v : value)
| RIssue (tree : IssueTree).

Definition isIssue (r : Result) : bool :=
  match r with RIssue _ => true | _ => false end.

(** ** The error surface: [ValitaError] *)

Definition nameString (n : Name) : string :=
  match n with
  | n_object => "object" | n_array => "array" | n_null => "null"
  | n_undefined => "undefined" | n_string => "string"
  | n_number => "number" | n_bigint => "bigint" | n_boolean => "boolean"
  | n_symbol => "symbol" | n_function => "function"
  | n_nothing => "nothing" | n_unknown => "unknown"
  | n_literal => "literal" | n_union => "union" | n_optional => "optional"
  | n_transform => "transform"
  end.

Definition code (i : Issue) : string :=
  match i with
  | invalid_type _ _ => "invalid_type"
  | invalid_literal _ _ => "invalid_literal"
  | missing_key _ _ => "missing_key"
  | unrecognized_key _ _ => "unrecognized_key"
  | invalid_union _ _ => "invalid_union"
  | custom_error _ _ => "custom_error"
  end.

(** Decimal notation of an integer, as [String(n)] prints it. *)
Definition decimal (n : Z) : string := NilZero.string_of_int (Z.to_int n).

(** [orList(list)] *)
Definition orList (list : list string) : string :=
  match rev list with
  | [] => "nothing"
  | [last] => last
  | last :: front => String.concat ", " (rev front) ++ " or " ++ last
  end.

Section ErrorSurface.

(** [JSON.stringify] on a string, number or boolean belongs to the
    JavaScript runtime. *)
Variable JSON_stringify : Literal -> string.

(** [formatLiteral(value)] *)
Definition formatLiteral (value : Literal) : string :=
  match value with
  | LBigInt z => decimal z ++ "n"
  | _ => JSON_stringify value
  end.

(** [formatLiteral(issue.key)]: a number key prints as its decimal. *)
Definition formatKey (key : Key) : string :=
  match key with
  | KString s => formatLiteral (LString s)
  | KNumber n => decimal n
  end.

Definition keyString (key : Key) : string :=
  match key with
  | KString s => s
  | KNumber n => decimal n
  end.

(** The text between the parentheses of the message. *)
Definition describe (i : Issue) : string :=
  match i with
  | invalid_type _ expected => "expected " ++ orList (map nameString expected)
  | invalid_literal _ expected =>
      "expected " ++ orList (map formatLiteral expected)
  | missing_key _ key => "missing key " ++ formatKey key
  | unrecognized_key _ key => "unrecognized key " ++ formatKey key
  | custom_error _ (CEString error) => error
  | custom_error _ (CEObject (Some m) _) =>
      (* [error.message === "string"] *)
      if String.eqb m "string" then m else "validation failed"
  | _ => "validation failed"
  end.

(** The message built from one issue. *)
Definition formatIssue (i : Issue) : string :=
  code i ++ " at ." ++ String.concat "." (map keyString (ownPath i))
    ++ " (" ++ describe i ++ ")".

(** [new ValitaError(issueTree)] with its two getters.  [message] reads
    [this.issues[0]]; a list without a first element makes the getter
    fail, which is [None] here. *)
Record ValitaError : Type := mkValitaError { issueTree : IssueTree }.

Definition issues (e : ValitaError) : list Issue :=
  collectIssues (issueTree e).

Definition message (e : ValitaError) : option string :=
  match issues e with
  | [] => None
  | first :: _ => Some (formatIssue first)
  end.

End ErrorSurface.

(** ** Schema nodes *)

(** [const enum FuncMode] *)
Inductive FuncMode : Type := PASS | STRICT | STRIP.

Definition isPass (m : FuncMode) : bool :=
  match m with PASS => true | _ => false end.
Definition isStrict (m : FuncMode) : bool :=
  match m with STRICT => true | _ => false end.
Definition isStrip (m : FuncMode) : bool :=
  match m with STRIP => true | _ => false end.

(** The subclasses of the abstract class [Type], one constructor per
    class, with the fields of its constructor.  ([Type] is a reserved
    word, the embedding says [Schema].)  The shape of an [ObjectType] is
    the list of its keys in [for ... in] order. *)
Inductive Schema : Type :=
| NothingType
| UnknownType
| NumberType
| StringType
| BigIntType
| BooleanType
| UndefinedType
| NullType
| LiteralType (value : Literal)
| ObjectType (shape : list (string * Schema)) (restType : option Schema)
| ArrayType (item : Schema)
| UnionType (options : list Schema)
| OptionalType (type : Schema)
| TransformType (transformed : Schema) (transformFunc : value -> Result).

(** The field [name] of each class. *)
Definition name (t : Schema) : Name :=
  match t with
  | NothingType => n_nothing
  | UnknownType => n_unknown
  | NumberType => n_number
  | StringType => n_string
  | BigIntType => n_bigint
  | BooleanType => n_boolean
  | UndefinedType => n_undefined
  | NullType => n_null
  | LiteralType _ => n_literal
  | ObjectType _ _ => n_object
  | ArrayType _ => n_array
  | UnionType _ => n_union
  | OptionalType _ => n_optional
  | TransformType _ _ => n_transform
  end.

(** The method [toTerminals(into)] of each class; the array [into] is
    threaded through. *)
Fixpoint toTerminalsInto (t : Schema) (into : list Schema) : list Schema :=
  match t with
  | UnionType options =>
      (fix each (os : list Schema) (into : list Schema) : list Schema :=
         match os with
         | [] => into
         | o :: os' => each os' (toTerminalsInto o into)
         end) options into
  | OptionalType type =>
      toTerminalsInto type ((into ++ [NothingType]) ++ [UndefinedType])
  | TransformType transformed _ => toTerminalsInto transformed into
  | _ => into ++ [t]
  end.

(** [toTerminals(type)] *)
Definition toTerminals (type : Schema) : list Schema :=
  toTerminalsInto type [].

(** The getter [isOptional]. *)
Definition isOptional (t : Schema) : bool :=
  existsb (fun t => Name_eqb (name t) n_nothing) (toTerminals t).

(** [toBaseType(v)] *)
Definition toBaseType (v : value) : BaseType :=
  let type := typeof v in
  if negb (Name_eqb type n_object) then type
  else if isNull v then n_null
  else if Array_isArray v then n_array
  else type.

(** [isObject(v)] *)
Definition isObject (v : value) : bool :=
  Name_eqb (typeof v) n_object && negb (isNull v) && negb (Array_isArray v).

(** ** Validation functions *)

(** One invocation of the validation function of a schema node. *)
Inductive Call : Type :=
| call (t : Schema) (v : value) (mode : FuncMode).

(** [type Func<T> = (v, mode) => Result<T>], together with the
    invocations of validation functions made while it ran. *)
Definition Func : Type := value -> FuncMode -> Result * list Call.

(** Invoking the validation function [f] of the node [t]. *)
Definition invoke (t : Schema) (f : Func) (v : value) (mode : FuncMode)
  : Result * list Call :=
  let (r, calls) := f v mode in (r, call t v mode :: calls).

(** A node together with its compiled function, [t.func]. *)
Definition Compiled : Type := (Schema * Func)%type.

Definition run (c : Compiled) (v : value) (mode : FuncMode)
  : Result * list Call :=
  invoke (fst c) (snd c) v mode.

(** *** [ObjectType.genFunc] *)

Definition Props : Type := list (string * value).

(** Truthiness of a value that is either [undefined] or an object. *)
Definition truthy {A : Type} (o : option A) : bool :=
  match o with Some _ => true | None => false end.

(** The mutable locals of the returned closure: [output] ([None] while
    [output === obj]), [issueTree], and the invocations made so far. *)
Record Locals : Type := mkLocals {
  output : option Props;
  pending : option IssueTree;
  calls : list Call
}.

(** One declared key: [keys[i]], [funcs[i]] (with the node it was
    compiled from) and [required[i]]; the three parallel arrays of the
    source, filled by one loop, are kept as one list. *)
Record Entry : Type := mkEntry {
  e_key : string;
  e_func : Compiled;
  e_required : bool
}.

Section ObjectFunc.

Variable entries : list Entry.
Variable rest : option Compiled.

(** [knownKeys[key]] *)
Definition knownKeys (key : string) : bool :=
  existsb (fun e => String.eqb (e_key e) key) entries.

(** [shapeTemplate]: every declared key bound to [undefined]. *)
Definition shapeTemplate : Props :=
  fold_left (fun o e => setProp o (e_key e) VUndefined) entries [].

Section Closure.

Variable obj : Props.
Variable mode : FuncMode.

Definition template : Props :=
  if isPass mode || truthy rest then obj
  else shapeTemplate.

(** [if (output === obj) output = { ...template }; output[key] = v] *)
Definition assign (st : Locals) (key : string) (v : value) : Locals :=
  let o := match output st with Some o => o | None => template end in
  mkLocals (Some (setProp o key v)) (pending st) (calls st).

(** [issueTree = joinIssues(prependPath(key, r), issueTree)] *)
Definition fail (st : Locals) (key : Key) (r : IssueTree) : Locals :=
  mkLocals (output st)
           (Some (joinIssues (prependPath key r) (pending st)))
           (calls st).

Definition called (st : Locals) (cs : list Call) : Locals :=
  mkLocals (output st) (pending st) (calls st ++ cs).

(** The loop [for (const key in obj)] over the keys still to visit.
    [inl] is a [return] out of the closure, [inr] the locals when the
    loop ends (normally or by [break]). *)
Fixpoint extraKeys (todo : Props) (st : Locals)
  : (Result * list Call) + Locals :=
  match todo with
  | [] => inr st
  | (key, _) :: todo' =>
      if negb (knownKeys key) then
        if isStrict mode then
          inl (RIssue (issue (unrecognized_key None (KString key))),
               calls st)
        else if isStrip mode then
          inr (mkLocals (Some template) (pending st) (calls st))
        else
          match rest with
          | Some c =>
              let (r, cs) := run c (readProp obj key) mode in
              let st := called st cs in
              match r with
              | RTrue => extraKeys todo' st
              | ROk v => extraKeys todo' (assign st key v)
              | RIssue t => extraKeys todo' (fail st (KString key) t)
              end
          | None => extraKeys todo' st
          end
      else extraKeys todo' st
  end.

(** The loop [for (let i = 0; i < keys.length; i++)]. *)
Fixpoint declaredKeys (todo : list Entry) (st : Locals)
  : (Result * list Call) + Locals :=
  match todo with
  | [] => inr st
  | e :: todo' =>
      let key := e_key e in
      let value := readProp obj key in
      let missing := isUndefined value && negb (hasProp obj key) in
      if missing && e_required e then
        inl (RIssue (issue (missing_key None (KString key))), calls st)
      else
        let value := if missing then VNothing else value in
        let (r, cs) := run (e_func e) value mode in
        let st := called st cs in
        match r with
        | RTrue =>
            match output st with
            | Some o =>
                if isStrip mode then
                  declaredKeys todo'
                    (mkLocals (Some (setProp o key value))
                              (pending st) (calls st))
                else declaredKeys todo' st
            | None => declaredKeys todo' st
            end
        | ROk v => declaredKeys todo' (assign st key v)
        | RIssue t => declaredKeys todo' (fail st (KString key) t)
        end
  end.

(** The end of the closure. *)
Definition finish (st : Locals) : Result * list Call :=
  match pending st, output st with
  | Some t, _ => (RIssue t, calls st)
  | None, None => (RTrue, calls st)
  | None, Some o => (ROk (VObject o), calls st)
  end.

Definition objectBody : Result * list Call :=
  let start := mkLocals None None [] in
  let first :=
    if isStrict mode || isStrip mode || truthy rest
    then extraKeys obj start
    else inr start in
  match first with
  | inl ret => ret
  | inr st =>
      match declaredKeys entries st with
      | inl ret => ret
      | inr st => finish st
      end
  end.

End Closure.

(** The closure [(obj, mode) => ...] returned by [genFunc]. *)
Definition objectFunc : Func :=
  fun obj mode =>
    match obj with
    | VObject props =>
        if isObject obj then objectBody props mode
        else (RIssue (issue (invalid_type None [n_object])), [])
    | _ => (RIssue (issue (invalid_type None [n_object])), [])
    end.

End ObjectFunc.

(** *** [ArrayType.genFunc] *)

Section ArrayFunc.

Variable item : Compiled.

(** The locals of the array closure: [output] ([None] while
    [output === arr]), [issueTree] and the invocations. *)
Record ArrLocals : Type := mkArrLocals {
  a_output : option (list value);
  a_pending : option IssueTree;
  a_calls : list Call
}.

Section Closure.

Variable arr : list value.
Variable mode : FuncMode.

(** The loop [for (let i = 0; i < arr.length; i++)], at index [i] with
    the elements [arr[i..]] still to visit. *)
Fixpoint elements (i : nat) (todo : list value) (st : ArrLocals)
  : ArrLocals :=
  match todo with
  | [] => st
  | x :: todo' =>
      let (r, cs) := run item x mode in
      let cs := a_calls st ++ cs in
      match r with
      | RTrue =>
          elements (S i) todo' (mkArrLocals (a_output st) (a_pending st) cs)
      | ROk v =>
          let o := match a_output st with Some o => o | None => arr end in
          elements (S i) todo'
            (mkArrLocals (Some (setIndex o i v)) (a_pending st) cs)
      | RIssue t =>
          elements (S i) todo'
            (mkArrLocals (a_output st)
               (Some (joinIssues (prependPath (KNumber (Z.of_nat i)) t)
                                 (a_pending st)))
               cs)
      end
  end.

Definition arrayBody : Result * list Call :=
  let st := elements 0 arr (mkArrLocals None None []) in
  match a_pending st, a_output st with
  | Some t, _ => (RIssue t, a_calls st)
  | None, None => (RTrue, a_calls st)
  | None, Some o => (ROk (VArray o), a_calls st)
  end.

End Closure.

Definition arrayFunc : Func :=
  fun arr mode =>
    match arr with
    | VArray items => arrayBody items mode
    | _ => (RIssue (issue (invalid_type None [n_array])), [])
    end.

End ArrayFunc.

(** ** The union dispatcher *)

(** *** [Map], [Set] and the array helpers

    A [Map] is the list of its entries in insertion order; the key
    equality is passed as the predicate that recognises the key. *)
Section Containers.

Variables K V : Type.

Fixpoint mapGet (is_k : K -> bool) (m : list (K * V)) : option V :=
  match m with
  | [] => None
  | (k, v) :: m' => if is_k k then Some v else mapGet is_k m'
  end.

(** [m.set(k, v)]: an existing entry keeps its place. *)
Fixpoint mapSet (is_k : K -> bool) (k : K) (v : V) (m : list (K * V))
  : list (K * V) :=
  match m with
  | [] => [(k, v)]
  | (k', v') :: m' =>
      if is_k k' then (k', v) :: m' else (k', v') :: mapSet is_k k v m'
  end.

(** [s.add(k)] on a [Set]. *)
Definition setAdd (is_k : K -> bool) (k : K) (s : list K) : list K :=
  if existsb is_k s then s else s ++ [k].

End Containers.

Section Arrays.

Variable T : Type.
Variable same : T -> T -> bool.

Definition includes (arr : list T) (x : T) : bool := existsb (same x) arr.

(** [dedup(arr)], with the set [seen] threaded through. *)
Fixpoint dedupFrom (seen : list T) (arr : list T) : list T :=
  match arr with
  | [] => []
  | x :: arr' =>
      if includes seen x then dedupFrom seen arr'
      else x :: dedupFrom (seen ++ [x]) arr'
  end.

Definition dedup (arr : list T) : list T := dedupFrom [] arr.

(** [difference(arr1, arr2)] *)
Definition difference (arr1 arr2 : list T) : list T :=
  filter (fun x => negb (includes arr2 x)) arr1.

End Arrays.

Definition sameLiteral (a b : Literal) : bool := sameValueZero (ofLiteral a) b.

(** The key a [Map] stores for a literal: [-0] is stored as [+0]. *)
Definition mapKey (l : Literal) : Literal :=
  match l with
  | LNumber (S754_zero true) => LNumber (S754_zero false)
  | _ => l
  end.

(** *** The tables of [createUnionMatcher]

    [Root] is whatever identifies an alternative: [same] is [===] on
    roots and [funcOf] gives [root.func]. *)
Section Matcher.

Variable Root : Type.
Variable same : Root -> Root -> bool.
Variable funcOf : Root -> Compiled.

Record Tables : Type := mkTables {
  literals : list (Literal * list Root);
  types : list (BaseType * list Root);
  allTypes : list BaseType;
  unknowns : list Root;
  nothings : list Root
}.

Definition noTables : Tables := mkTables [] [] [] [] [].

(** The body of [t.forEach(({ root, terminal }) => ...)]. *)
Definition classify (tb : Tables) (rt : Root * Schema) : Tables :=
  let (root, terminal) := rt in
  match terminal with
  | NothingType =>
      mkTables (literals tb) (types tb) (allTypes tb) (unknowns tb)
               (nothings tb ++ [root])
  | UnknownType =>
      mkTables (literals tb) (types tb) (allTypes tb)
               (unknowns tb ++ [root]) (nothings tb)
  | LiteralType value =>
      let roots :=
        match mapGet (sameLiteral value) (literals tb) with
        | Some roots => roots
        | None => []
        end in
      mkTables (mapSet (sameLiteral value) (mapKey value) (roots ++ [root])
                       (literals tb))
               (types tb)
               (setAdd (Name_eqb (toBaseType (ofLiteral value)))
                       (toBaseType (ofLiteral value)) (allTypes tb))
               (unknowns tb) (nothings tb)
  | _ =>
      let roots :=
        match mapGet (Name_eqb (name terminal)) (types tb) with
        | Some roots => roots
        | None => []
        end in
      mkTables (literals tb)
               (mapSet (Name_eqb (name terminal)) (name terminal)
                       (roots ++ [root]) (types tb))
               (setAdd (Name_eqb (name terminal)) (name terminal)
                       (allTypes tb))
               (unknowns tb) (nothings tb)
  end.

(** [literals.forEach((vxs, value) => ...)]: an entry whose base type
    has an entry in [types] is appended to it and deleted. *)
Definition mergeLiteral (ty : list (BaseType * list Root))
  (entry : Literal * list Root) : list (BaseType * list Root) :=
  let (value, vxs) := entry in
  let b := toBaseType (ofLiteral value) in
  match mapGet (Name_eqb b) ty with
  | Some options => mapSet (Name_eqb b) b (options ++ vxs) ty
  | None => ty
  end.

Definition unmerged (ty : list (BaseType * list Root))
  (entry : Literal * list Root) : bool :=
  negb (truthy (mapGet (Name_eqb (toBaseType (ofLiteral (fst entry)))) ty)).

(** The tables once the statements up to [expectedLiterals] have run. *)
Definition buildTables (t : list (Root * Schema)) : Tables :=
  let tb := fold_left classify t noTables in
  let unknowns' := dedup same (unknowns tb) in
  let nothings' := dedup same (nothings tb) in
  let types' := fold_left mergeLiteral (literals tb) (types tb) in
  let literals' := filter (unmerged (types tb)) (literals tb) in
  let clean := fun roots => difference same (dedup same roots) unknowns' in
  mkTables (map (fun e => (fst e, clean (snd e))) literals')
           (map (fun e => (fst e, clean (snd e))) types')
           (allTypes tb) unknowns' nothings'.

(** The locals of the matcher closure. *)
Record Trial : Type := mkTrial {
  t_issueTree : option IssueTree;
  t_count : nat;
  t_calls : list Call
}.

Section Closure.

Variable tb : Tables.
Variable path : option (list Key).
Variables rootValue value : JS.value.
Variable mode : FuncMode.

Definition invalidType : Issue :=
  invalid_type path (allTypes tb).

Definition invalidLiteral : Issue :=
  invalid_literal path (map fst (literals tb)).

(** One of the three loops [for (let i = 0; i < xs.length; i++)]:
    [inl] is the [return r] of a success. *)
Fixpoint tryEach (xs : list Root) (st : Trial)
  : (Result * list Call) + Trial :=
  match xs with
  | [] => inr st
  | x :: xs' =>
      let (r, cs) := run (funcOf x) rootValue mode in
      match r with
      | RIssue tree =>
          tryEach xs'
            (mkTrial (Some (joinIssues tree (t_issueTree st)))
                     (S (t_count st)) (t_calls st ++ cs))
      | _ => inl (r, t_calls st ++ cs)
      end
  end.

(** [literals.get(value) || types.get(type)] *)
Definition bucket : option (list Root) :=
  match mapGet (sameValueZero value) (literals tb) with
  | Some options => Some options
  | None => mapGet (Name_eqb (toBaseType value)) (types tb)
  end.

(** The tail of the closure, after the loops. *)
Definition conclude (st : Trial) : Result * list Call :=
  match t_issueTree st with
  | Some tree =>
      if Nat.ltb 1 (t_count st) then
        (RIssue (issue (invalid_union None tree)), t_calls st)
      else (RIssue tree, t_calls st)
  | None => (RIssue (issue invalidLiteral), t_calls st)
  end.

Definition matcherBody : Result * list Call :=
  let start := mkTrial None 0 [] in
  if negb (isNothing value) then
    let type := toBaseType value in
    if Nat.eqb (List.length (unknowns tb)) 0
       && negb (existsb (Name_eqb type) (allTypes tb))
    then (RIssue (issue invalidType), [])
    else
      let options := match bucket with Some o => o | None => [] end in
      match tryEach options start with
      | inl ret => ret
      | inr st =>
          match tryEach (unknowns tb) st with
          | inl ret => ret
          | inr st => conclude st
          end
      end
  else
    match tryEach (nothings tb) start with
    | inl ret => ret
    | inr st => conclude st
    end.

End Closure.

(** [createUnionMatcher(t, path)] *)
Definition createUnionMatcher (t : list (Root * Schema))
  (path : option (list Key))
  : JS.value -> JS.value -> FuncMode -> Result * list Call :=
  matcherBody (buildTables t) path.

End Matcher.

(** *** [findCommonKeys], [flatten] and [createObjectMatchers] *)

Definition ObjectShape : Type := list (string * Schema).

(** [shape[key]] *)
Definition shapeGet (shape : ObjectShape) (key : string) : option Schema :=
  mapGet (String.eqb key) shape.

(** The [rs.forEach] of [findCommonKeys]: one shape counted into [map]. *)
Definition countKeys (map : list (string * nat)) (r : ObjectShape)
  : list (string * nat) :=
  fold_left
    (fun map kt =>
       let key := fst kt in
       let seen := match mapGet (String.eqb key) map with
                   | Some n => n
                   | None => 0
                   end in
       mapSet (String.eqb key) key (seen + 1) map)
    r map.

Definition findCommonKeys (rs : list ObjectShape) : list string :=
  map fst
    (filter (fun e => Nat.eqb (snd e) (List.length rs))
            (fold_left countKeys rs [])).

(** [flatten(t)] *)
Definition flatten {Root : Type} (t : list (Root * Schema))
  : list (Root * Schema) :=
  flat_map (fun rt => map (fun terminal => (fst rt, terminal))
                          (toTerminals (snd rt))) t.

(** The terminals a key contributes; a shape without the key contributes
    none (the keys asked for are common to all shapes). *)
Definition terminalsAt (shape : ObjectShape) (key : string) : list Schema :=
  match shapeGet shape key with
  | Some type => toTerminals type
  | None => []
  end.

(** Pairs every element with its index, from [i] on. *)
Fixpoint indexed {A : Type} (i : nat) (xs : list A) : list (nat * A) :=
  match xs with
  | [] => []
  | x :: xs' => (i, x) :: indexed (S i) xs'
  end.

(** The predicate of [common.filter((key) => ...)].  The statements that
    fill and clean its four tables are, word for word, those of
    [createUnionMatcher] on the indices of the shapes, so [buildTables]
    is used on the pairs (index, terminal). *)
Definition isDiscriminant (shapes : list ObjectShape) (key : string) : bool :=
  let pairs :=
    flat_map (fun ish => map (fun terminal => (fst ish, terminal))
                             (terminalsAt (snd ish) key))
             (indexed 0 shapes) in
  let tb := buildTables Nat.eqb pairs in
  if Nat.ltb 1 (List.length (nothings tb)) then false
  else if Nat.ltb 1 (List.length (unknowns tb)) then false
  else if Nat.eqb (List.length (unknowns tb)) 1 then
    Nat.eqb (List.length (literals tb)) 0 && Nat.eqb (List.length (types tb)) 0
  else
    forallb (fun e => negb (Nat.ltb 1 (List.length (snd e)))) (literals tb)
    && forallb (fun e => negb (Nat.ltb 1 (List.length (snd e)))) (types tb).

Section ObjectMatchers.

Variable Root : Type.
Variable same : Root -> Root -> bool.
Variable funcOf : Root -> Compiled.

(** One element of the array [createObjectMatchers] returns. *)
Record ObjectMatcher : Type := mkObjectMatcher {
  m_key : string;
  m_nothing : option Root;
  m_matcher : value -> value -> FuncMode -> Result * list Call
}.

(** The pairs (root, shape) of the object terminals of [t]. *)
Fixpoint objectsOf (t : list (Root * Schema)) : list (Root * ObjectShape) :=
  match t with
  | [] => []
  | (root, ObjectType shape _) :: t' => (root, shape) :: objectsOf t'
  | _ :: t' => objectsOf t'
  end.

(** The first root whose terminal is [nothing]. *)
Fixpoint firstNothing (flattened : list (Root * Schema)) : option Root :=
  match flattened with
  | [] => None
  | (root, NothingType) :: _ => Some root
  | _ :: rest => firstNothing rest
  end.

Definition createObjectMatchers (t : list (Root * Schema))
  : list ObjectMatcher :=
  let objects := objectsOf t in
  let shapes := map snd objects in
  let common := findCommonKeys shapes in
  let discriminants := filter (isDiscriminant shapes) common in
  map (fun key =>
         let flattened :=
           flat_map (fun rs => map (fun terminal => (fst rs, terminal))
                                   (terminalsAt (snd rs) key))
                    objects in
         mkObjectMatcher key (firstNothing flattened)
           (createUnionMatcher same funcOf flattened (Some [KString key])))
      discriminants.

End ObjectMatchers.

(** *** [UnionType.genFunc]

    An alternative is identified by its position in [options]: the
    elements of [options] are taken to be distinct objects. *)
Definition UnionRoot : Type := (nat * Compiled)%type.

Definition sameRoot (a b : UnionRoot) : bool := Nat.eqb (fst a) (fst b).

(** [flatten(this.options.map((root) => ({ root, type: root })))] *)
Definition unionRoots (options : list Compiled) : list (UnionRoot * Schema) :=
  flatten (map (fun root => (root, fst (snd root))) (indexed 0 options)).

Definition unionFunc (options : list Compiled) : Func :=
  let flattened := unionRoots options in
  let objects := createObjectMatchers sameRoot snd flattened in
  let base := createUnionMatcher sameRoot snd flattened None in
  fun v mode =>
    match objects, v with
    | item :: _, VObject props =>
        if isObject v then
          let value := readProp props (m_key item) in
          if isUndefined value && negb (hasProp props (m_key item)) then
            match m_nothing item with
            | Some root => run (snd root) VNothing mode
            | None =>
                (RIssue (issue (missing_key None (KString (m_key item)))), [])
            end
          else m_matcher item v value mode
        else base v v mode
    | _, _ => base v v mode
    end.

(** *** The leaves, [OptionalType] and [TransformType] *)

Definition check (ok : bool) (i : Issue) : Result * list Call :=
  (if ok then RTrue else RIssue (issue i), []).

Definition optionalFunc (type : Compiled) : Func :=
  fun v mode =>
    if isNothing v || isUndefined v then (RTrue, []) else run type v mode.

Definition transformFuncOf (transformed : Compiled) (t : value -> Result)
  : Func :=
  fun v mode =>
    let (r, cs) := run transformed v mode in
    match r with
    | RIssue _ => (r, cs)
    | RTrue => (t v, cs)
    | ROk x => (t x, cs)
    end.

(** ** [genFunc] of every class *)

Fixpoint genFunc (t : Schema) : Func :=
  match t with
  | NothingType => fun v _ => check (isNothing v) (invalid_type None [])
  | UnknownType => fun _ _ => (RTrue, [])
  | NumberType =>
      fun v _ => check (Name_eqb (typeof v) n_number)
                       (invalid_type None [n_number])
  | StringType =>
      fun v _ => check (Name_eqb (typeof v) n_string)
                       (invalid_type None [n_string])
  | BigIntType =>
      fun v _ => check (Name_eqb (typeof v) n_bigint)
                       (invalid_type None [n_bigint])
  | BooleanType =>
      fun v _ => check (Name_eqb (typeof v) n_boolean)
                       (invalid_type None [n_boolean])
  | UndefinedType =>
      fun v _ => check (isUndefined v) (invalid_type None [n_undefined])
  | NullType => fun v _ => check (isNull v) (invalid_type None [n_null])
  | LiteralType value =>
      fun v _ => check (strictEqLiteral v value)
                       (invalid_literal None [value])
  | ObjectType shape restType =>
      objectFunc
        (map (fun kt => mkEntry (fst kt) (snd kt, genFunc (snd kt))
                                (negb (isOptional (snd kt))))
             shape)
        (match restType with
         | Some r => Some (r, genFunc r)
         | None => None
         end)
  | ArrayType item => arrayFunc (item, genFunc item)
  | UnionType options => unionFunc (map (fun o => (o, genFunc o)) options)
  | OptionalType type => optionalFunc (type, genFunc type)
  | TransformType transformed t =>
      transformFuncOf (transformed, genFunc transformed) t
  end.

(** The getter [func]: [genFunc()] computed once and kept. *)
Definition func (t : Schema) : Func := genFunc t.

(** ** [Type.parse] *)

Inductive Mode : Type := passthrough | strict | strip.

(** [options?: Partial<ParseOptions>] *)
Definition ParseOptions : Type := option (option Mode).

Definition modeOf (options : ParseOptions) : FuncMode :=
  match options with
  | Some (Some strict) => STRICT
  | Some (Some strip) => STRIP
  | _ => PASS
  end.

(** [parse(v, options)]: [inl] is the returned value, [inr] the thrown
    [ValitaError]. *)
Definition parse (t : Schema) (v : value) (options : ParseOptions)
  : value + ValitaError :=
  match fst (func t v (modeOf options)) with
  | RTrue => inl v
  | ROk x => inl x
  | RIssue tree => inr (mkValitaError tree)
  end.

(** ** Combinators of the construction API *)

(** [type.optional()] *)
Definition optional (t : Schema) : Schema := OptionalType t.

(** [type.assert(func, error)] *)
Definition assert (t : Schema) (f : value -> bool) (error : CustomError)
  : Schema :=
  TransformType t
    (fun v => if f v then RTrue else RIssue (issue (custom_error None error))).

(** [type.apply(func)] *)
Definition apply (t : Schema) (f : value -> value) : Schema :=
  TransformType t (fun v => ROk (f v)).

(** [type.chain(func)], with [ChainResult] as a sum: [inl] is [ok(value)],
    [inr] is [err(error)]. *)
Definition chain (t : Schema) (f : value -> value + CustomError) : Schema :=
  TransformType t
    (fun v => match f v with
              | inl x => ROk x
              | inr error => RIssue (issue (custom_error None error))
              end).

(** [object(shape)] and [object(shape).rest(restType)] *)
Definition object (shape : ObjectShape) : Schema := ObjectType shape None.
Definition rest (t : Schema) (restType : Schema) : Schema :=
  match t with
  | ObjectType shape _ => ObjectType shape (Some restType)
  | _ => t
  end.

(** ** Vocabulary of the statements *)

(** The entries [genFunc] compiles from a shape, and its compiled rest. *)
Definition entriesOf (shape : ObjectShape) : list Entry :=
  map (fun kt => mkEntry (fst kt) (snd kt, genFunc (snd kt))
                         (negb (isOptional (snd kt))))
      shape.

Definition restOf (restType : option Schema) : option Compiled :=
  match restType with
  | Some r => Some (r, genFunc r)
  | None => None
  end.

(** [value === undefined && !(key in obj)] *)
Definition absent (obj : Props) (key : string) : bool :=
  isUndefined (readProp obj key) && negb (hasProp obj key).

(** The value handed to the function of a declared key. *)
Definition handed (obj : Props) (key : string) : value :=
  if absent obj key then VNothing else readProp obj key.

(** What the function of a declared key answers on an input object. *)
Definition outcome (obj : Props) (mode : FuncMode) (e : Entry)
  : Result * list Call :=
  run (e_func e) (handed obj (e_key e)) mode.

(** The keys of the input that the shape does not declare, in
    enumeration order. *)
Definition undeclared (entries : list Entry) (obj : Props) : list string :=
  filter (fun key => negb (knownKeys entries key)) (map fst obj).

(** The first required declared key the input lacks. *)
Definition firstMissing (entries : list Entry) (obj : Props) : option string :=
  option_map e_key
    (find (fun e => absent obj (e_key e) && e_required e) entries).

(** The undeclared keys that are validated against the rest schema: all of
    them in passthrough mode when there is a rest schema, none otherwise. *)
Definition restKeys (entries : list Entry) (rest : option Compiled)
  (obj : Props) (mode : FuncMode) : list string :=
  if isPass mode && truthy rest then undeclared entries obj else [].

(** The failures of the declared keys, in declaration order, each under
    its key. *)
Definition declaredFailures (entries : list Entry) (obj : Props)
  (mode : FuncMode) : list IssueTree :=
  flat_map (fun e => match fst (outcome obj mode e) with
                     | RIssue t => [prepend (KString (e_key e)) t]
                     | _ => []
                     end)
           entries.

(** The failures of the keys validated against the rest schema. *)
Definition restFailures (c : Compiled) (obj : Props) (mode : FuncMode)
  (keys : list string) : list IssueTree :=
  flat_map (fun key => match fst (run c (readProp obj key) mode) with
                       | RIssue t => [prepend (KString key) t]
                       | _ => []
                       end)
           keys.

(** The flattening of a subtree met under [path]. *)
Definition flat (path : list Key) (t : IssueTree) : list Issue :=
  _collectIssues t path [].

(** [t] is one of the trees joined into [tree]. *)
Inductive Joined (t : IssueTree) : IssueTree -> Prop :=
| Joined_here : Joined t t
| Joined_left : forall l r, Joined t l -> Joined t (join l r)
| Joined_right : forall l r, Joined t r -> Joined t (join l r).

(** [x] stands before [y] in [l]. *)
Definition precedes {A : Type} (x y : A) (l : list A) : Prop :=
  exists l1 l2 l3, l = l1 ++ x :: l2 ++ y :: l3.

(** Validation of an object stops at once, with a single issue, when a
    required key is absent or when strict mode meets an undeclared key. *)
Definition stopsEarly (entries : list Entry) (obj : Props) (mode : FuncMode)
  : bool :=
  truthy (firstMissing entries obj)
  || (isStrict mode && negb (Nat.eqb (List.length (undeclared entries obj)) 0)).

Definition isNew (r : Result) : bool :=
  match r with ROk _ => true | _ => false end.

(** Some function answered with a new value: a declared key, or a key
    validated against the rest schema. *)
Definition someNewValue (entries : list Entry) (rest : option Compiled)
  (obj : Props) (mode : FuncMode) : bool :=
  existsb (fun e => isNew (fst (outcome obj mode e))) entries
  || match rest with
     | Some c =>
         existsb (fun key => isNew (fst (run c (readProp obj key) mode)))
                 (restKeys entries rest obj mode)
     | None => false
     end.

(** The closure of an object clones its input. *)
Definition clones (entries : list Entry) (rest : option Compiled)
  (obj : Props) (mode : FuncMode) : bool :=
  someNewValue entries rest obj mode
  || (isStrip mode && negb (Nat.eqb (List.length (undeclared entries obj)) 0)).

(** A schema whose transforms never answer with a new value, as those
    built by [assert]. *)
Fixpoint onlyAsserts (t : Schema) : Prop :=
  match t with
  | ObjectType shape restType =>
      (fix each (l : ObjectShape) : Prop :=
         match l with
         | [] => True
         | kt :: l' => onlyAsserts (snd kt) /\ each l'
         end) shape
      /\ match restType with
         | Some r => onlyAsserts r
         | None => True
         end
  | ArrayType item => onlyAsserts item
  | UnionType options =>
      (fix each (l : list Schema) : Prop :=
         match l with
         | [] => True
         | o :: l' => onlyAsserts o /\ each l'
         end) options
  | OptionalType type => onlyAsserts type
  | TransformType transformed f =>
      onlyAsserts transformed /\ forall v x, f v <> ROk x
  | _ => True
  end.

(** A validation function that never answers with a new value. *)
Definition keeps (mode : FuncMode) (f : Func) : Prop :=
  forall v x, fst (f v mode) <> ROk x.

(** The tree held after the failures [ts] were met in that order,
    starting from [init]: each one is joined to the left of the tree
    held so far. *)
Definition joinAll (ts : list IssueTree) (init : option IssueTree)
  : option IssueTree :=
  fold_left (fun acc t => Some (joinIssues t acc)) ts init.

(** The failures of the undeclared keys against the rest schema. *)
Definition extraFailures (entries : list Entry) (rest : option Compiled)
  (obj : Props) (mode : FuncMode) : list IssueTree :=
  match rest with
  | Some c => restFailures c obj mode (restKeys entries rest obj mode)
  | None => []
  end.

(** Every failure of one validation of an object, in the order in which
    the closure meets them. *)
Definition failuresMet (entries : list Entry) (rest : option Compiled)
  (obj : Props) (mode : FuncMode) : list IssueTree :=
  extraFailures entries rest obj mode ++ declaredFailures entries obj mode.

(** ** The properties under study, as propositions *)

(** The failure of one declared key of a shape on an input object: the
    key is required and absent, or its function rejects the value it is
    handed. *)
Definition failureOf (obj : Props) (mode : FuncMode) (kt : string * Schema)
  : option IssueTree :=
  if absent obj (fst kt) && negb (isOptional (snd kt)) then
    Some (issue (missing_key None (KString (fst kt))))
  else
    match fst (func (snd kt) (handed obj (fst kt)) mode) with
    | RIssue r => Some (prepend (KString (fst kt)) r)
    | _ => None
    end.

(** One call reports, joined in one tree, the failure of every declared
    key that fails; the issues of each are in the flattened list. *)
Definition reportsEveryFailure (shape : ObjectShape)
  (restType : option Schema) (obj : Props) (mode : FuncMode) : Prop :=
  forall kt t,
    In kt shape -> failureOf obj mode kt = Some t ->
    exists tree,
      fst (func (ObjectType shape restType) (VObject obj) mode) = RIssue tree
      /\ Joined t tree
      /\ forall i, In i (flat [] t) -> In i (collectIssues tree).

(** In the flattened list the issues of a key declared earlier stand
    before those of a key declared later. *)
Definition flattensInOrderMet (shape : ObjectShape)
  (restType : option Schema) (obj : Props) (mode : FuncMode) : Prop :=
  forall a b ta tb pre mid post,
    shape = pre ++ a :: mid ++ b :: post ->
    failureOf obj mode a = Some ta -> failureOf obj mode b = Some tb ->
    exists tree,
      fst (func (ObjectType shape restType) (VObject obj) mode) = RIssue tree
      /\ forall ia ib,
           In ia (flat [] ta) -> In ib (flat [] tb) ->
           precedes ia ib (collectIssues tree).

(** In the flattened list the issues of a key declared later stand
    before those of a key declared earlier. *)
Definition flattensLatestFirst (shape : ObjectShape)
  (restType : option Schema) (obj : Props) (mode : FuncMode) : Prop :=
  forall a b ta tb pre mid post,
    shape = pre ++ a :: mid ++ b :: post ->
    failureOf obj mode a = Some ta -> failureOf obj mode b = Some tb ->
    exists tree,
      fst (func (ObjectType shape restType) (VObject obj) mode) = RIssue tree
      /\ forall ia ib,
           In ia (flat [] ta) -> In ib (flat [] tb) ->
           precedes ib ia (collectIssues tree).

(** In strip mode, without a rest schema, on an input that has an
    undeclared key and lacks the optional key [key]: parsing succeeds and
    the object returned binds [key] to the sentinel [Nothing]. *)
Definition stripBindsNothing (shape : ObjectShape) (obj : Props)
  (key : string) : Prop :=
  exists out,
    parse (ObjectType shape None) (VObject obj) (Some (Some strip))
    = inl (VObject out)
    /\ getProp out key = Some VNothing.

(** *** Vocabulary of the union dispatcher *)

Section Trials.

Variable Root : Type.
Variable funcOf : Root -> Compiled.
Variable tb : Tables Root.
Variables rootValue value : JS.value.
Variable mode : FuncMode.

(** The alternatives the closure tries on a value other than [Nothing]:
    those of the matched bucket, then the catch-alls. *)
Definition candidates : list Root :=
  match bucket tb value with Some options => options | None => [] end
  ++ unknowns tb.

(** The guard that answers [invalid_type] before any trial. *)
Definition unexpectedType : bool :=
  Nat.eqb (List.length (unknowns tb)) 0
  && negb (existsb (Name_eqb (toBaseType value)) (allTypes tb)).

(** The alternative [x] rejects the root value. *)
Definition rejects (x : Root) : bool :=
  isIssue (fst (run (funcOf x) rootValue mode)).

(** The issue trees of the alternatives of [xs] that reject. *)
Definition rejections (xs : list Root) : list IssueTree :=
  flat_map (fun x => match fst (run (funcOf x) rootValue mode) with
                     | RIssue t => [t]
                     | _ => []
                     end) xs.

(** The invocations made by trying every alternative of [xs]. *)
Definition trials (xs : list Root) : list Call :=
  flat_map (fun x => snd (run (funcOf x) rootValue mode)) xs.

End Trials.

(** Every alternative listed in the tables satisfies [P]. *)
Definition TablesAll {Root : Type} (P : Root -> Prop) (tb : Tables Root)
  : Prop :=
  Forall (fun e => Forall P (snd e)) (literals tb)
  /\ Forall (fun e => Forall P (snd e)) (types tb)
  /\ Forall P (unknowns tb)
  /\ Forall P (nothings tb).

(** The function of the alternative never answers with a new value. *)
Definition quiet {Root : Type} (funcOf : Root -> Compiled) (mode : FuncMode)
  (root : Root) : Prop :=
  keeps mode (snd (funcOf root)).

(** The failures of the elements [todo] of an array, the first of them at
    index [i], each under its index. *)
Definition elementFailures (item : Compiled) (mode : FuncMode) (i : nat)
  (todo : list value) : list IssueTree :=
  flat_map (fun ix => match fst (run item (snd ix) mode) with
                      | RIssue t => [prepend (KNumber (Z.of_nat (fst ix))) t]
                      | _ => []
                      end)
           (indexed i todo).

(** *** The matched bucket, from the pairs a matcher is built from *)

Section BucketContents.

Variable Root : Type.
Variable same : Root -> Root -> bool.
Variable t : list (Root * Schema).

(** The terminal stands for a base type: it is not [nothing], [unknown]
    or a literal. *)
Definition isBase (terminal : Schema) : bool :=
  match terminal with
  | NothingType | UnknownType | LiteralType _ => false
  | _ => true
  end.

(** The alternatives that accept the base type [b] as such, in the order
    of [t]. *)
Definition typeRoots (b : BaseType) : list Root :=
  map fst (filter (fun rt => isBase (snd rt) && Name_eqb (name (snd rt)) b) t).

(** The alternatives that accept [v] as a literal, in the order of [t]. *)
Definition literalRoots (v : value) : list Root :=
  map fst (filter (fun rt => match snd rt with
                             | LiteralType l => sameValueZero v l
                             | _ => false
                             end) t).

(** The catch-all alternatives, in the order of [t]. *)
Definition unknownRoots : list Root :=
  map fst (filter (fun rt => match snd rt with
                             | UnknownType => true
                             | _ => false
                             end) t).

(** The alternatives that accept a literal of base type [b], literal by
    literal in the order in which the literals entered the map. *)
Definition mergedRoots (b : BaseType) : list Root :=
  flat_map snd
    (filter (fun e => Name_eqb (toBaseType (ofLiteral (fst e))) b)
            (literals (fold_left (classify (Root:=Root)) t (noTables Root)))).

(** A bucket without its duplicates and without the catch-alls. *)
Definition cleaned (roots : list Root) : list Root :=
  difference same (dedup same roots) (dedup same unknownRoots).

(** The matched bucket of a value: the alternatives that accept its base
    type as such, then those that accept a literal of that base type;
    with no alternative of the first kind, the alternatives that accept
    the value as a literal. *)
Definition matched (v : value) : option (list Root) :=
  match typeRoots (toBaseType v), literalRoots v with
  | [], [] => None
  | [], lits => Some (cleaned lits)
  | tys, _ => Some (cleaned (tys ++ mergedRoots (toBaseType v)))
  end.

End BucketContents.

(** Joining the roots found so far with those met later. *)
Definition extended {Root : Type} (o : option (list Root)) (l : list Root)
  : option (list Root) :=
  match o, l with
  | None, [] => None
  | _, _ => Some (match o with Some r => r | None => [] end ++ l)
  end.

(** The options of a union with their compiled functions, and the tables
    of its matcher on the value itself. *)
Definition compiledOptions (options : list Schema) : list Compiled :=
  map (fun o => (o, genFunc o)) options.

Definition baseTables (options : list Schema) : Tables UnionRoot :=
  buildTables sameRoot (unionRoots (compiledOptions options)).

(** The discriminant keys a union finds, each with the position of the
    alternative that tolerates its absence. *)
Definition discriminantsOf (options : list Schema)
  : list (string * option nat) :=
  map (fun m => (m_key m, option_map fst (m_nothing m)))
      (createObjectMatchers sameRoot snd
         (unionRoots (compiledOptions options))).

(** Positions in declaration order. *)
Fixpoint increasing (l : list nat) : bool :=
  match l with
  | a :: (b :: _) as l' => Nat.ltb a b && increasing l'
  | _ => true
  end.

(** The alternatives of the matched bucket are tried in declaration
    order and the first one that accepts ends the trials: the invocations
    made are those of the alternatives declared before it, which reject,
    and its own. *)
Definition triesInDeclarationOrder (options : list Schema) (v : value)
  (mode : FuncMode) : Prop :=
  forall listed ordered tried winner untried,
    bucket (baseTables options) v = Some listed ->
    Permutation ordered listed ->
    increasing (map fst ordered) = true ->
    ordered = tried ++ winner :: untried ->
    forallb (rejects snd v mode) tried = true ->
    rejects snd v mode winner = false ->
    snd (func (UnionType options) v mode)
    = trials snd v mode tried ++ snd (run (snd winner) v mode).

(** An object is cloned only when some function answered with a new
    value or the keys of the clone differ from those of the input. *)
Definition clonesOnlyOnChange (shape : ObjectShape)
  (restType : option Schema) (obj : Props) (mode : FuncMode) : Prop :=
  forall out,
    fst (func (ObjectType shape restType) (VObject obj) mode)
    = ROk (VObject out) ->
    someNewValue (entriesOf shape) (restOf restType) obj mode = true
    \/ map fst out <> map fst obj.

(** Parsing the value a parse returned returns it again. *)
Definition idempotent (t : Schema) (v : value) (options : ParseOptions)
  : Prop :=
  forall w, parse t v options = inl w -> parse t w options = inl w.

(** ** Sample schemas and inputs *)

(** The number [n]. *)
Definition num (n : positive) : value := VNumber (S754_finite false n 0).

Definition twoNumbers : ObjectShape :=
  [("a", NumberType); ("b", NumberType)].

Definition nested : Schema :=
  object [("a", ArrayType (object [("b", NumberType)]))].

Definition nestedInput : value :=
  VObject [("a", VArray [VObject [("b", VString "x")]])].

Definition untagged : Schema :=
  object [("type", optional (LiteralType (LString "a"))); ("x", NumberType)].

Definition tagged : Schema :=
  object [("type", LiteralType (LString "b")); ("y", StringType)].

(** Three object alternatives without a discriminant key. *)
Definition ambiguous : list Schema :=
  [ object [("k", NumberType)];
    object [("k", StringType)];
    object [("k", StringType); ("j", StringType)] ].

(** A transform without side effects that is not idempotent. *)
Definition lengthy : Schema := apply StringType (fun _ => num 1).

(** Two object alternatives without a common key. *)
Definition eitherShape : Schema :=
  UnionType [object [("c", optional NumberType)]; object [("a", NumberType)]].

(** ** Vocabulary of the further properties *)

(** The classes whose [toTerminals] pushes [this]. *)
Definition isTerminal (t : Schema) : bool :=
  match t with
  | UnionType _ | OptionalType _ | TransformType _ _ => false
  | _ => true
  end.

(** A schema built without [assert], [apply] or [chain]. *)
Fixpoint plain (t : Schema) : Prop :=
  match t with
  | ObjectType shape restType =>
      (fix each (l : ObjectShape) : Prop :=
         match l with
         | [] => True
         | kt :: l' => plain (snd kt) /\ each l'
         end) shape
      /\ match restType with
         | Some r => plain r
         | None => True
         end
  | ArrayType item => plain item
  | UnionType options =>
      (fix each (l : list Schema) : Prop :=
         match l with
         | [] => True
         | o :: l' => plain o /\ each l'
         end) options
  | OptionalType type => plain type
  | TransformType _ _ => False
  | _ => True
  end.

(** The alternatives one of whose terminals is [nothing], in the order
    of [t]. *)
Definition nothingRoots {Root : Type} (t : list (Root * Schema))
  : list Root :=
  map fst (filter (fun rt => match snd rt with
                             | NothingType => true
                             | _ => false
                             end) t).


(** The invocations of one validation of an object that does not stop
    early: the undeclared keys validated against the rest schema in
    enumeration order, then the declared keys in declaration order. *)
Definition objectTrace (entries : list Entry) (rest : option Compiled)
  (obj : Props) (mode : FuncMode) : list Call :=
  match rest with
  | Some c =>
      flat_map (fun key => snd (run c (readProp obj key) mode))
               (restKeys entries rest obj mode)
  | None => []
  end
  ++ flat_map (fun e => snd (outcome obj mode e)) entries.

(** The value a declared key ends with when its function accepts. *)
Definition replaced (r : Result) (kept : value) : value :=
  match r with
  | ROk v => v
  | _ => kept
  end.


(** The array the closure of an array writes to: its copy once it
    exists, its input before. *)
Definition arrayBasis (arr : list value) (st : ArrLocals) : list value :=
  match a_output st with
  | Some o => o
  | None => arr
  end.

(** The path a custom error carries, and the text its message shows. *)
Definition errorPath (error : CustomError) : list Key :=
  match error with
  | CEObject _ (Some p) => p
  | _ => []
  end.

Definition errorText (error : CustomError) : string :=
  match error with
  | CEString s => s
  | CEObject (Some "string") _ => "string"
  | _ => "validation failed"
  end.

(** How many shapes declare [key]. *)
Definition declaring (key : string) (rs : list ObjectShape) : nat :=
  list_sum (map (fun r => count_occ string_dec (map fst r) key) rs).

(** The count [findCommonKeys] holds for [key] in [map]. *)
Definition countOf (map : list (string * nat)) (key : string) : nat :=
  match mapGet (String.eqb key) map with
  | Some n => n
  | None => 0
  end.

(** The base type a terminal adds to [allTypes], if any. *)
Definition expects (terminal : Schema) : option BaseType :=
  match terminal with
  | NothingType | UnknownType => None
  | LiteralType value => Some (toBaseType (ofLiteral value))
  | _ => Some (name terminal)
  end.

(** *** Tables under a change of what identifies an alternative *)

Definition carriedMap {K A B : Type} (rho : A -> B) (m : list (K * list A))
  : list (K * list B) :=
  map (fun e => (fst e, map rho (snd e))) m.

Definition carriedTables {A B : Type} (rho : A -> B) (tb : Tables A)
  : Tables B :=
  mkTables (carriedMap rho (literals tb)) (carriedMap rho (types tb))
           (allTypes tb) (map rho (unknowns tb)) (map rho (nothings tb)).

Definition carriedPairs {A B : Type} (rho : A -> B) (t : list (A * Schema))
  : list (B * Schema) :=
  map (fun p => (rho (fst p), snd p)) t.

(** The terminals the shapes contribute at [key], each with what
    identifies its shape. *)
Definition keyPairs {Root : Type} (objects : list (Root * ObjectShape))
  (key : string) : list (Root * Schema) :=
  flat_map (fun rs => map (fun terminal => (fst rs, terminal))
                          (terminalsAt (snd rs) key))
           objects.

(** The test [isDiscriminant] makes on the tables of a key. *)
Definition singleRooted {Root : Type} (tb : Tables Root) : bool :=
  if Nat.ltb 1 (List.length (nothings tb)) then false
  else if Nat.ltb 1 (List.length (unknowns tb)) then false
  else if Nat.eqb (List.length (unknowns tb)) 1 then
    Nat.eqb (List.length (literals tb)) 0 && Nat.eqb (List.length (types tb)) 0
  else
    forallb (fun e => negb (Nat.ltb 1 (List.length (snd e)))) (literals tb)
    && forallb (fun e => negb (Nat.ltb 1 (List.length (snd e)))) (types tb).

(** The alternatives one loop of the matcher tries on [value]. *)
Definition tried {Root : Type} (tb : Tables Root) (value : JS.value)
  : list Root :=
  if isNothing value then nothings tb else candidates tb value.

(** *** Vocabulary of the invocations *)

Definition callee (c : Call) : Schema :=
  match c with call t _ _ => t end.

Definition callMode (c : Call) : FuncMode :=
  match c with call _ _ mode => mode end.

(** [s] is a schema [t] is built from. *)
Inductive part : Schema -> Schema -> Prop :=
| part_key : forall shape restType kt,
    In kt shape -> part (snd kt) (ObjectType shape restType)
| part_rest : forall shape r, part r (ObjectType shape (Some r))
| part_item : forall item, part item (ArrayType item)
| part_option : forall options o, In o options -> part o (UnionType options)
| part_optional : forall type, part type (OptionalType type)
| part_transformed : forall transformed f,
    part transformed (TransformType transformed f)
| part_trans : forall a b c, part a b -> part b c -> part a c.

(** Every invocation the compiled function makes in [mode] satisfies
    [Q]. *)
Definition traced (Q : Call -> Prop) (mode : FuncMode) (c : Compiled)
  : Prop :=
  forall v, Forall Q (snd (run c v mode)).

(** The terminal speaks for the value: it is the catch-all, a literal
    the value is strictly equal to, or the class of the base type of
    the value. *)
Definition covers (terminal : Schema) (v : value) : bool :=
  match terminal with
  | UnknownType => true
  | NothingType => false
  | LiteralType l => strictEqLiteral v l
  | _ => Name_eqb (name terminal) (toBaseType v)
  end.

(** The validation function accepts the value. *)
Definition accepts (t : Schema) (v : value) (mode : FuncMode) : bool :=
  negb (isIssue (fst (func t v mode))).

(** The terminal lists its alternative in the bucket of the value or
    among the catch-alls. *)
Definition listed (terminal : Schema) (v : value) : bool :=
  match terminal with
  | UnknownType => true
  | NothingType => false
  | LiteralType l => sameValueZero v l
  | _ => Name_eqb (name terminal) (toBaseType v)
  end.

(** No terminal of the list stands for the base type [b] as such. *)
Definition unclassed (terminals : list Schema) (b : BaseType) : Prop :=
  Forall (fun terminal =>
            isBase terminal && Name_eqb (name terminal) b = false)
         terminals.

(** ** The identity [===], spelled out *)

(** [w === l] as the language defines it for a literal [l]: two strings
    with the same characters, two BigInts with the same value, two
    booleans with the same value, two numbers that are the same number
    and not [NaN], or two zeros of either sign.  Values of different
    types are never identical, and [NaN] is identical to nothing. *)
Inductive strictlyEqual : value -> Literal -> Prop :=
| same_string : forall s, strictlyEqual (VString s) (LString s)
| same_bigint : forall z, strictlyEqual (VBigInt z) (LBigInt z)
| same_boolean : forall b, strictlyEqual (VBoolean b) (LBoolean b)
| same_number : forall n,
    n <> S754_nan -> strictlyEqual (VNumber n) (LNumber n)
| same_zero : forall s s',
    strictlyEqual (VNumber (S754_zero s)) (LNumber (S754_zero s')).

(** ** Vocabulary of parsing twice *)




(** An object with a field that a transform normalises and a field that
    holds an array. *)
Definition normalised : Schema :=
  object [("a", apply StringType (fun _ => VString "x"));
          ("b", ArrayType NumberType)].

(** An object nested in an object. *)
Definition holder : Schema :=
  object [("a", NumberType); ("b", object [("c", NumberType)])].

(** Two transforms, each of which maps its results to themselves: the
    first accepts only ["b"] and ["c"] and maps them to ["c"]; the second
    maps every string to ["b"]. *)
Definition narrowed : Schema :=
  chain StringType
        (fun v => match v with
                  | VString "b" | VString "c" => inl (VString "c")
                  | _ => inr CEUndefined
                  end).

Definition widened : Schema := apply StringType (fun _ => VString "b").

(** * Properties *)

(** ** Values and flattening *)

Lemma isObject_VObject : forall props, isObject (VObject props) = true.
Proof. reflexivity. Qed.

Lemma genFunc_ObjectType : forall shape restType,
  genFunc (ObjectType shape restType)
  = objectFunc (entriesOf shape) (restOf restType).
Proof. reflexivity. Qed.

Lemma strictEqLiteral_NaN : forall w,
  strictEqLiteral w (LNumber S754_nan) = false.
Proof.
  intros w. destruct w as [ | | b | n | z | s | | items | props | ];
    try reflexivity.
  destruct n as [ sg | sg | | sg m e ]; reflexivity.
Qed.

(** Flattening appends to the issues collected so far. *)
Lemma _collectIssues_app : forall tree path acc,
  _collectIssues tree path acc = acc ++ flat path tree.
Proof.
  unfold flat.
  induction tree as [ key tree IH | l IHl r IHr | i ]; intros path acc.
  - simpl. apply IH.
  - simpl. rewrite (IHr path (_collectIssues l path acc)).
    rewrite (IHr path (_collectIssues l path [])).
    rewrite (IHl path acc). now rewrite app_assoc.
  - reflexivity.
Qed.

Lemma flat_join : forall path l r,
  flat path (join l r) = flat path l ++ flat path r.
Proof.
  intros path l r. unfold flat at 1. simpl.
  now rewrite _collectIssues_app.
Qed.

Lemma flat_prepend : forall path key t,
  flat path (prepend key t) = flat (path ++ [key]) t.
Proof. reflexivity. Qed.

(** A tree always flattens to at least one issue. *)
Lemma flat_nonempty : forall tree path, flat path tree <> [].
Proof.
  induction tree as [ key tree IH | l IHl r IHr | i ]; intros path.
  - rewrite flat_prepend. apply IH.
  - rewrite flat_join. intro H. apply app_eq_nil in H. destruct H as [H _].
    now apply (IHl path).
  - unfold flat. simpl. discriminate.
Qed.

Lemma joinAll_snoc : forall ts t init,
  joinAll (ts ++ [t]) init = Some (joinIssues t (joinAll ts init)).
Proof. intros. unfold joinAll. now rewrite fold_left_app. Qed.

Lemma joinAll_app : forall ts us init,
  joinAll (ts ++ us) init = joinAll us (joinAll ts init).
Proof. intros. unfold joinAll. now rewrite fold_left_app. Qed.

(** The flattening of the tree held after a run of failures: the issues
    of the last failure first, those of the first failure last. *)
Lemma flat_joinAll : forall path ts init,
  match joinAll ts init with
  | Some tree =>
      flat path tree
      = flat_map (flat path) (rev ts)
        ++ match init with Some t => flat path t | None => [] end
  | None => ts = [] /\ init = None
  end.
Proof.
  intros path ts. induction ts as [ | t ts IH ] using rev_ind; intros init.
  - simpl. destruct init; auto.
  - rewrite joinAll_snoc, rev_app_distr. simpl.
    specialize (IH init). destruct (joinAll ts init) as [ held | ].
    + simpl. rewrite flat_join, IH. now rewrite app_assoc.
    + destruct IH as [-> ->]. simpl. now rewrite !app_nil_r.
Qed.

(** Each failure met is one of the trees joined into the tree held. *)
Lemma joinAll_Joined : forall ts init t,
  In t ts ->
  exists tree, joinAll ts init = Some tree /\ Joined t tree.
Proof.
  intros ts. induction ts as [ | u ts IH ] using rev_ind; intros init t Hin.
  - contradiction.
  - rewrite joinAll_snoc. eexists. split; [ reflexivity | ].
    apply in_app_or in Hin. destruct Hin as [Hin | [-> | []]].
    + destruct (IH init t Hin) as [held [-> HJ]]. simpl.
      now apply Joined_right.
    + destruct (joinAll ts init); simpl;
        [ apply Joined_left | ]; apply Joined_here.
Qed.

(** ** The two loops of the object closure *)

Section ObjectLoops.

Variable entries : list Entry.
Variable rest : option Compiled.
Variable obj : Props.
Variable mode : FuncMode.

Local Abbreviation declaredLoop := (declaredKeys entries rest obj mode).
Local Abbreviation extraLoop := (extraKeys entries rest obj mode).

Lemma declaredKeys_cons : forall e todo st,
  declaredLoop (e :: todo) st
  = if absent obj (e_key e) && e_required e then
      inl (RIssue (issue (missing_key None (KString (e_key e)))), calls st)
    else
      match fst (outcome obj mode e) with
      | RTrue =>
          match output st with
          | Some o =>
              if isStrip mode then
                declaredLoop todo
                  (mkLocals (Some (setProp o (e_key e) (handed obj (e_key e))))
                            (pending st)
                            (calls st ++ snd (outcome obj mode e)))
              else declaredLoop todo (called st (snd (outcome obj mode e)))
          | None => declaredLoop todo (called st (snd (outcome obj mode e)))
          end
      | ROk v =>
          declaredLoop todo
            (assign entries rest obj mode
               (called st (snd (outcome obj mode e))) (e_key e) v)
      | RIssue t =>
          declaredLoop todo
            (fail (called st (snd (outcome obj mode e))) (KString (e_key e)) t)
      end.
Proof.
  intros e todo st. simpl. fold (absent obj (e_key e)).
  destruct (absent obj (e_key e) && e_required e); [ reflexivity | ].
  fold (handed obj (e_key e)). fold (outcome obj mode e).
  destruct (outcome obj mode e) as [r cs]. simpl.
  destruct r; try reflexivity.
Qed.

(** A required key that is absent ends the closure with [missing_key]
    for the first such key, whatever was collected before. *)
Lemma declaredKeys_missing : forall todo st key,
  firstMissing todo obj = Some key ->
  exists cs,
    declaredLoop todo st
    = inl (RIssue (issue (missing_key None (KString key))), cs).
Proof.
  induction todo as [ | e todo IH ]; intros st key H.
  - discriminate.
  - rewrite declaredKeys_cons. unfold firstMissing in H. simpl in H.
    destruct (absent obj (e_key e) && e_required e).
    + simpl in H. injection H as <-. eauto.
    + fold (firstMissing todo obj) in H.
      destruct (fst (outcome obj mode e)); [ destruct (output st) | | ];
        try destruct (isStrip mode); now apply IH.
Qed.

(** Without such a key the loop visits every declared key. *)
Lemma declaredKeys_all : forall todo st,
  firstMissing todo obj = None ->
  exists st',
    declaredLoop todo st = inr st'
    /\ pending st' = joinAll (declaredFailures todo obj mode) (pending st)
    /\ (output st' = None <->
        output st = None
        /\ existsb (fun e => isNew (fst (outcome obj mode e))) todo = false)
    /\ calls st' = calls st ++ flat_map (fun e => snd (outcome obj mode e)) todo.
Proof.
  induction todo as [ | e todo IH ]; intros st H.
  - exists st. simpl. rewrite app_nil_r. intuition.
  - rewrite declaredKeys_cons. unfold firstMissing in H. simpl in H.
    destruct (absent obj (e_key e) && e_required e); [ discriminate | ].
    fold (firstMissing todo obj) in H.
    unfold declaredFailures. simpl flat_map. simpl existsb.
    fold (declaredFailures todo obj mode).
    destruct (fst (outcome obj mode e)) as [ | v | t ]; simpl isNew;
      [ destruct (output st) as [ o | ] eqn:Ho;
        [ destruct (isStrip mode) | ] | | ];
      match goal with
      | |- context [ declaredKeys _ _ _ _ todo ?s ] =>
          destruct (IH s H) as [st' [E [Hp [Ho' Hc]]]]
      end;
      exists st'; simpl in *; rewrite E, Hp, Hc, <- app_assoc;
      (split; [ reflexivity | split; [ reflexivity | split; [ | reflexivity ] ] ]);
      rewrite Ho'; try rewrite Ho; intuition discriminate.
Qed.

Local Abbreviation extras todo :=
  (filter (fun key => negb (knownKeys entries key)) (map fst todo)).

(** Strict mode: the first undeclared key ends the closure. *)
Lemma extraKeys_strict : forall (todo : Props) st,
  isStrict mode = true ->
  extraLoop todo st
  = match extras todo with
    | key :: _ =>
        inl (RIssue (issue (unrecognized_key None (KString key))), calls st)
    | [] => inr st
    end.
Proof.
  intros todo st Hm. induction todo as [ | [key x] todo IH ].
  - reflexivity.
  - simpl. destruct (knownKeys entries key); simpl.
    + exact IH.
    + now rewrite Hm.
Qed.

(** Strip mode: the first undeclared key makes the clone and ends the
    loop; no function is invoked. *)
Lemma extraKeys_strip : forall (todo : Props) st,
  isStrict mode = false -> isStrip mode = true ->
  extraLoop todo st
  = inr match extras todo with
        | _ :: _ =>
            mkLocals (Some (template entries rest obj mode))
                     (pending st) (calls st)
        | [] => st
        end.
Proof.
  intros todo st Hs Hp. induction todo as [ | [key x] todo IH ].
  - reflexivity.
  - simpl. destruct (knownKeys entries key); simpl.
    + exact IH.
    + now rewrite Hs, Hp.
Qed.

(** Passthrough mode with a rest schema: every undeclared key is
    validated against it. *)
Lemma extraKeys_rest : forall c (todo : Props) st,
  rest = Some c -> isStrict mode = false -> isStrip mode = false ->
  exists st',
    extraLoop todo st = inr st'
    /\ pending st' = joinAll (restFailures c obj mode (extras todo)) (pending st)
    /\ (output st' = None <->
        output st = None
        /\ existsb (fun key => isNew (fst (run c (readProp obj key) mode)))
                   (extras todo) = false)
    /\ calls st'
       = calls st
         ++ flat_map (fun key => snd (run c (readProp obj key) mode))
                     (extras todo).
Proof.
  intros c todo st Hr Hs Hp. revert st. rewrite Hr.
  induction todo as [ | [key x] todo IH ]; intros st.
  - exists st. simpl. rewrite app_nil_r. intuition.
  - simpl. destruct (knownKeys entries key); simpl; [ apply IH | ].
    rewrite Hs, Hp. unfold restFailures. simpl flat_map.
    fold (restFailures c obj mode (extras todo)).
    destruct (run c (readProp obj key) mode) as [r cs]. simpl fst. simpl snd.
    destruct r as [ | v | t ]; simpl isNew;
      match goal with
      | |- context [ extraKeys _ _ _ _ todo ?s ] =>
          destruct (IH s) as [st' [E [Hq [Ho' Hc]]]]
      end;
      exists st'; simpl in *; rewrite E, Hq, Hc, <- app_assoc;
      (split; [ reflexivity | split; [ reflexivity | split; [ | reflexivity ] ] ]);
      rewrite Ho'; intuition discriminate.
Qed.

End ObjectLoops.

(** Closes the side conditions on the boolean tests of the closure. *)
Ltac settle :=
  unfold undeclared in *; simpl in *;
  repeat rewrite orb_false_r in *; repeat rewrite orb_true_r in *;
  repeat rewrite orb_false_iff in *;
  intuition (try discriminate; auto).

(** The closure when it does not stop early: it ends in [finish], with
    every failure met joined, and still holds its input exactly when
    nothing made it clone. *)
Lemma objectBody_all : forall entries rest obj mode,
  stopsEarly entries obj mode = false ->
  exists st,
    objectBody entries rest obj mode = finish st
    /\ pending st = joinAll (failuresMet entries rest obj mode) None
    /\ (output st = None <-> clones entries rest obj mode = false).
Proof.
  unfold stopsEarly, objectBody, failuresMet, extraFailures, clones,
    someNewValue, restKeys.
  intros entries rest obj mode H.
  apply orb_false_iff in H. destruct H as [Hm Hu].
  assert (Hmiss : firstMissing entries obj = None)
    by (destruct (firstMissing entries obj); [ discriminate | reflexivity ]).
  clear Hm. rewrite joinAll_app.
  pose (start := mkLocals None None []).
  destruct mode; simpl in *.
  - (* passthrough *)
    destruct rest as [ c | ]; simpl.
    + destruct (@extraKeys_rest entries (Some c) obj PASS c obj start)
        as [st1 [E1 [P1 [O1 _]]]]; try reflexivity.
      fold start. rewrite E1.
      destruct (@declaredKeys_all entries (Some c) obj PASS entries st1 Hmiss)
        as [st2 [E2 [P2 [O2 _]]]].
      rewrite E2. exists st2. rewrite P2, P1, O2, O1. settle.
    + destruct (@declaredKeys_all entries None obj PASS entries start Hmiss)
        as [st2 [E2 [P2 [O2 _]]]].
      fold start. rewrite E2. exists st2. rewrite P2, O2. settle.
  - (* strict *)
    rewrite extraKeys_strict by reflexivity. fold (undeclared entries obj).
    destruct (undeclared entries obj) as [ | k ks ]; [ | discriminate ].
    destruct (@declaredKeys_all entries rest obj STRICT entries start Hmiss)
      as [st2 [E2 [P2 [O2 _]]]].
    fold start. rewrite E2. exists st2. rewrite P2, O2.
    destruct rest; settle.
  - (* strip *)
    rewrite extraKeys_strip by reflexivity. fold (undeclared entries obj).
    destruct (undeclared entries obj) as [ | k ks ]; simpl.
    + destruct (@declaredKeys_all entries rest obj STRIP entries start Hmiss)
        as [st2 [E2 [P2 [O2 _]]]].
      fold start. rewrite E2. exists st2. rewrite P2, O2.
      destruct rest; settle.
    + match goal with
      | |- context [ declaredKeys _ _ _ _ entries ?s ] =>
          destruct (@declaredKeys_all entries rest obj STRIP entries s Hmiss)
            as [st2 [E2 [P2 [O2 _]]]]
      end.
      rewrite E2. exists st2. rewrite P2, O2.
      destruct rest; settle.
Qed.

Lemma func_object : forall shape restType obj mode,
  func (ObjectType shape restType) (VObject obj) mode
  = objectBody (entriesOf shape) (restOf restType) obj mode.
Proof. reflexivity. Qed.

Lemma fst_run : forall c v mode, fst (run c v mode) = fst (snd c v mode).
Proof.
  intros [t f] v mode. unfold run, invoke. simpl. now destruct (f v mode).
Qed.

(** Strict mode: the first undeclared key ends the closure before any
    validation function is invoked. *)
Lemma objectBody_unrecognized : forall entries rest obj mode key keys,
  isStrict mode = true ->
  undeclared entries obj = key :: keys ->
  objectBody entries rest obj mode
  = (RIssue (issue (unrecognized_key None (KString key))), []).
Proof.
  intros entries rest obj mode key keys Hm Hu. unfold objectBody.
  rewrite Hm. simpl. rewrite extraKeys_strict by exact Hm.
  fold (undeclared entries obj). now rewrite Hu.
Qed.

Lemma extraKeys_no_rest : forall entries obj mode (todo : Props) st,
  isStrict mode = false -> isStrip mode = false ->
  extraKeys entries None obj mode todo st = inr st.
Proof.
  intros entries obj mode todo st Es Ep.
  induction todo as [ | [key x] todo IH ]; simpl.
  - reflexivity.
  - rewrite Es, Ep. destruct (knownKeys entries key); simpl; apply IH.
Qed.

(** The first loop, when it does not end the closure. *)
Lemma extraKeys_continues : forall entries rest obj mode st,
  isStrict mode = false \/ undeclared entries obj = [] ->
  exists st', extraKeys entries rest obj mode obj st = inr st'.
Proof.
  intros entries rest obj mode st H.
  destruct (isStrict mode) eqn:Es.
  - destruct H as [H | H]; [ discriminate | ].
    rewrite extraKeys_strict by exact Es.
    fold (undeclared entries obj). rewrite H. eauto.
  - destruct (isStrip mode) eqn:Ep.
    + rewrite extraKeys_strip by assumption. eauto.
    + destruct rest as [ c | ] eqn:Er.
      * destruct (@extraKeys_rest entries (Some c) obj mode c obj st)
          as [st' [E _]]; auto. eauto.
      * exists st. now apply extraKeys_no_rest.
Qed.

(** A required key that is absent ends the closure with the single issue
    [missing_key] of the first such key. *)
Lemma objectBody_missing : forall entries rest obj mode key,
  isStrict mode = false \/ undeclared entries obj = [] ->
  firstMissing entries obj = Some key ->
  exists cs,
    objectBody entries rest obj mode
    = (RIssue (issue (missing_key None (KString key))), cs).
Proof.
  intros entries rest obj mode key Hs Hm. unfold objectBody.
  destruct (isStrict mode || isStrip mode || truthy rest).
  - destruct (extraKeys_continues entries rest obj mode
                (mkLocals None None []) Hs) as [st' ->].
    destruct (@declaredKeys_missing entries rest obj mode entries st' key Hm)
      as [cs ->].
    eauto.
  - destruct (@declaredKeys_missing entries rest obj mode entries
                (mkLocals None None []) key Hm) as [cs ->].
    eauto.
Qed.

(** Stopping early always yields an issue. *)
Lemma objectBody_stops : forall entries rest obj mode,
  stopsEarly entries obj mode = true ->
  isIssue (fst (objectBody entries rest obj mode)) = true.
Proof.
  intros entries rest obj mode H. unfold stopsEarly in H.
  destruct (isStrict mode) eqn:Es.
  - destruct (undeclared entries obj) as [ | key keys ] eqn:Eu.
    + simpl in H. rewrite orb_false_r in H.
      destruct (firstMissing entries obj) as [ key | ] eqn:Em;
        [ | discriminate ].
      destruct (@objectBody_missing entries rest obj mode key) as [cs ->];
        auto.
    + now rewrite (objectBody_unrecognized entries rest obj mode Es Eu).
  - simpl in H. rewrite orb_false_r in H.
    destruct (firstMissing entries obj) as [ key | ] eqn:Em;
      [ | discriminate ].
    destruct (@objectBody_missing entries rest obj mode key) as [cs ->];
      auto.
Qed.

(** ** Failures of the declared keys *)

Lemma outcome_entry : forall obj mode kt,
  fst (outcome obj mode
         (mkEntry (fst kt) (snd kt, genFunc (snd kt))
                  (negb (isOptional (snd kt)))))
  = fst (func (snd kt) (handed obj (fst kt)) mode).
Proof. intros. unfold outcome. now rewrite fst_run. Qed.

Lemma firstMissing_none : forall shape obj kt,
  firstMissing (entriesOf shape) obj = None ->
  In kt shape ->
  absent obj (fst kt) && negb (isOptional (snd kt)) = false.
Proof.
  intros shape obj kt H Hin. unfold firstMissing in H.
  destruct (find _ (entriesOf shape)) as [ e | ] eqn:E; [ discriminate | ].
  apply (find_none _ _ E
           (mkEntry (fst kt) (snd kt, genFunc (snd kt))
                    (negb (isOptional (snd kt))))).
  unfold entriesOf. apply in_map_iff. exists kt. now split.
Qed.

Lemma stopsEarly_firstMissing : forall entries obj mode,
  stopsEarly entries obj mode = false -> firstMissing entries obj = None.
Proof.
  intros entries obj mode H. unfold stopsEarly in H.
  apply orb_false_iff in H. destruct H as [H _].
  now destruct (firstMissing entries obj).
Qed.

(** The failures of the declared keys are those of [failureOf]. *)
Lemma declaredFailures_entries : forall shape obj mode,
  firstMissing (entriesOf shape) obj = None ->
  declaredFailures (entriesOf shape) obj mode
  = flat_map (fun kt => match failureOf obj mode kt with
                        | Some t => [t]
                        | None => []
                        end) shape.
Proof.
  intros shape obj mode H.
  assert (Hall : forall kt, In kt shape ->
            absent obj (fst kt) && negb (isOptional (snd kt)) = false)
    by (intros kt; now apply firstMissing_none).
  clear H. unfold declaredFailures.
  induction shape as [ | kt shape IH ]; [ reflexivity | ].
  simpl. rewrite outcome_entry. unfold failureOf at 1.
  rewrite (Hall kt) by now left.
  fold (entriesOf shape). rewrite IH by (intros; apply Hall; now right).
  now destruct (fst (func (snd kt) (handed obj (fst kt)) mode)).
Qed.

Lemma failureOf_declared : forall shape obj mode kt t,
  firstMissing (entriesOf shape) obj = None ->
  In kt shape -> failureOf obj mode kt = Some t ->
  In t (declaredFailures (entriesOf shape) obj mode).
Proof.
  intros shape obj mode kt t H Hin Hf.
  rewrite declaredFailures_entries by exact H.
  apply in_flat_map. exists kt. split; [ exact Hin | ].
  rewrite Hf. now left.
Qed.

(** A tree joined into another flattens to a segment of its flattening. *)
Lemma Joined_flat : forall t tree path,
  Joined t tree ->
  exists before after, flat path tree = before ++ flat path t ++ after.
Proof.
  intros t tree path H. induction H as [ | l r _ [b [a IH]] | l r _ [b [a IH]] ].
  - exists [], []. now rewrite app_nil_r.
  - exists b, (a ++ flat path r). rewrite flat_join, IH.
    now rewrite <- !app_assoc.
  - exists (flat path l ++ b), a. rewrite flat_join, IH.
    now rewrite <- !app_assoc.
Qed.

(** What an object validation answers when it does not stop early. *)
Lemma object_result : forall shape restType obj mode,
  stopsEarly (entriesOf shape) obj mode = false ->
  match joinAll (failuresMet (entriesOf shape) (restOf restType) obj mode) None
  with
  | Some tree =>
      fst (func (ObjectType shape restType) (VObject obj) mode) = RIssue tree
  | None =>
      isIssue (fst (func (ObjectType shape restType) (VObject obj) mode))
      = false
  end.
Proof.
  intros shape restType obj mode H. rewrite func_object.
  destruct (objectBody_all (entriesOf shape) (restOf restType) obj mode H)
    as [st [E [P _]]].
  rewrite E, <- P. unfold finish.
  destruct (pending st); [ reflexivity | ].
  now destruct (output st).
Qed.

Lemma precedes_segments : forall (A : Type) (x y : A) xs ys p q r,
  In x xs -> In y ys -> precedes x y (p ++ xs ++ q ++ ys ++ r).
Proof.
  intros A x y xs ys p q r Hx Hy.
  apply in_split in Hx. destruct Hx as [x1 [x2 ->]].
  apply in_split in Hy. destruct Hy as [y1 [y2 ->]].
  exists (p ++ x1), (x2 ++ q ++ y1), (y2 ++ r).
  repeat (rewrite <- app_assoc; simpl). reflexivity.
Qed.

Lemma precedes_flat_map_rev : forall (A B : Type) (f : A -> list B)
  l l1 a l2 b l3 x y,
  l = l1 ++ a :: l2 ++ b :: l3 ->
  In x (f b) -> In y (f a) ->
  precedes x y (flat_map f (rev l)).
Proof.
  intros A B f l l1 a l2 b l3 x y -> Hx Hy.
  replace (rev (l1 ++ a :: l2 ++ b :: l3))
    with (rev l3 ++ [b] ++ rev l2 ++ [a] ++ rev l1).
  - rewrite !flat_map_app. simpl flat_map. rewrite !app_nil_r.
    now apply precedes_segments.
  - rewrite rev_app_distr. simpl. rewrite rev_app_distr. simpl.
    now rewrite <- !app_assoc.
Qed.

(** The flattening of an object's issue tree lists the failures from the
    last one met back to the first. *)
Lemma object_flattening : forall shape restType obj mode tree,
  stopsEarly (entriesOf shape) obj mode = false ->
  fst (func (ObjectType shape restType) (VObject obj) mode) = RIssue tree ->
  collectIssues tree
  = flat_map (flat [])
      (rev (failuresMet (entriesOf shape) (restOf restType) obj mode)).
Proof.
  intros shape restType obj mode tree H Hr.
  pose proof (object_result shape restType obj mode H) as R.
  pose proof (flat_joinAll []
                (failuresMet (entriesOf shape) (restOf restType) obj mode)
                None) as F.
  destruct (joinAll _ None) as [ tree' | ].
  - rewrite R in Hr. injection Hr as <-. unfold collectIssues.
    fold (flat [] tree'). now rewrite F, app_nil_r.
  - rewrite Hr in R. discriminate.
Qed.

Lemma object_latest_first : forall shape restType obj mode,
  stopsEarly (entriesOf shape) obj mode = false ->
  flattensLatestFirst shape restType obj mode.
Proof.
  intros shape restType obj mode H a b ta tb pre mid post Hs Ha Hb.
  pose proof (stopsEarly_firstMissing _ _ _ H) as Hm.
  pose proof (object_result shape restType obj mode H) as R.
  assert (Hin : In ta (failuresMet (entriesOf shape) (restOf restType)
                                   obj mode)).
  { unfold failuresMet. apply in_or_app. right.
    apply (failureOf_declared shape obj mode a); auto.
    rewrite Hs. apply in_or_app. right. now left. }
  destruct (joinAll_Joined _ None _ Hin) as [tree [E _]].
  rewrite E in R. exists tree. split; [ exact R | ].
  intros ia ib Hia Hib.
  rewrite (object_flattening shape restType obj mode H R).
  unfold failuresMet. rewrite declaredFailures_entries by exact Hm.
  generalize (extraFailures (entriesOf shape) (restOf restType) obj mode).
  intros extra. rewrite Hs.
  apply precedes_flat_map_rev
    with (a := ta) (b := tb)
         (l1 := extra
                ++ flat_map (fun kt => match failureOf obj mode kt with
                                       | Some t => [t]
                                       | None => []
                                       end) pre)
         (l2 := flat_map (fun kt => match failureOf obj mode kt with
                                    | Some t => [t]
                                    | None => []
                                    end) mid)
         (l3 := flat_map (fun kt => match failureOf obj mode kt with
                                    | Some t => [t]
                                    | None => []
                                    end) post);
    try assumption.
  rewrite !flat_map_app. simpl flat_map. rewrite !flat_map_app.
  simpl flat_map. rewrite Ha, Hb. simpl.
  repeat rewrite <- app_assoc. reflexivity.
Qed.

(** The message of an error is built from the first issue of the
    flattened list, which always exists. *)
Lemma message_first : forall JSON_stringify tree,
  exists first others,
    collectIssues tree = first :: others
    /\ message JSON_stringify (mkValitaError tree)
       = Some (formatIssue JSON_stringify first).
Proof.
  intros JSON_stringify tree. unfold message, issues. simpl.
  destruct (collectIssues tree) as [ | first others ] eqn:E.
  - exfalso. now apply (flat_nonempty tree []).
  - eauto.
Qed.

(** ** Strip mode: what the clone binds *)

Lemma getProp_setProp : forall o k v k',
  getProp (setProp o k v) k'
  = if String.eqb k k' then Some v else getProp o k'.
Proof.
  induction o as [ | [k0 v0] o IH ]; intros k v k'; simpl.
  - reflexivity.
  - destruct (String.eqb k0 k) eqn:E0; simpl.
    + apply String.eqb_eq in E0. subst k0.
      now destruct (String.eqb k k').
    + rewrite IH. destruct (String.eqb k0 k') eqn:E1; [ | reflexivity ].
      apply String.eqb_eq in E1. subst k0.
      now rewrite String.eqb_sym, E0.
Qed.

Lemma getProp_setProp_other : forall o k v k',
  k <> k' -> getProp (setProp o k v) k' = getProp o k'.
Proof.
  intros o k v k' H. rewrite getProp_setProp.
  apply String.eqb_neq in H. now rewrite H.
Qed.

(** Once the clone exists, the loop over the declared keys keeps it, and
    leaves alone the binding of every key it does not visit. *)
Lemma declaredKeys_keeps : forall entries rest obj mode todo st o k,
  output st = Some o ->
  firstMissing todo obj = None ->
  ~ In k (map e_key todo) ->
  exists st' o',
    declaredKeys entries rest obj mode todo st = inr st'
    /\ output st' = Some o' /\ getProp o' k = getProp o k.
Proof.
  intros entries rest obj mode todo.
  induction todo as [ | e todo IH ]; intros st o k Ho Hm Hk.
  - exists st, o. auto.
  - rewrite declaredKeys_cons. unfold firstMissing in Hm. simpl in Hm.
    destruct (absent obj (e_key e) && e_required e); [ discriminate | ].
    fold (firstMissing todo obj) in Hm.
    assert (Hne : e_key e <> k) by (intros X; apply Hk; now left).
    assert (Hk' : ~ In k (map e_key todo)) by (intros X; apply Hk; now right).
    destruct (fst (outcome obj mode e)) as [ | v | t ];
      [ rewrite Ho; destruct (isStrip mode) | | ];
      match goal with
      | |- context [ declaredKeys _ _ _ _ todo ?s ] =>
          edestruct (IH s) as [st' [o' [E [Ho' Hg]]]];
            [ simpl; first [ exact Ho | rewrite Ho; reflexivity | reflexivity ]
            | exact Hm | exact Hk' | ]
      end;
      exists st', o'; rewrite E, Ho', Hg;
      try rewrite getProp_setProp_other by exact Hne; auto.
Qed.

(** In strip mode, once the clone exists, a declared key whose function
    answers [true] is bound in the clone to the value it was handed. *)
Lemma declaredKeys_strip_binds : forall entries rest obj mode todo st o e,
  isStrip mode = true ->
  output st = Some o ->
  firstMissing todo obj = None ->
  NoDup (map e_key todo) ->
  In e todo ->
  fst (outcome obj mode e) = RTrue ->
  exists st' o',
    declaredKeys entries rest obj mode todo st = inr st'
    /\ output st' = Some o'
    /\ getProp o' (e_key e) = Some (handed obj (e_key e)).
Proof.
  intros entries rest obj mode todo.
  induction todo as [ | e0 todo IH ]; intros st o e Hs Ho Hm Hn Hin He.
  - contradiction.
  - rewrite declaredKeys_cons. unfold firstMissing in Hm. simpl in Hm.
    destruct (absent obj (e_key e0) && e_required e0); [ discriminate | ].
    fold (firstMissing todo obj) in Hm.
    simpl in Hn. apply NoDup_cons_iff in Hn. destruct Hn as [Hfresh Hn].
    destruct Hin as [-> | Hin].
    + rewrite He, Ho, Hs.
      match goal with
      | |- context [ declaredKeys _ _ _ _ todo ?s ] =>
          edestruct (declaredKeys_keeps entries rest obj mode todo s)
            as [st' [o' [E [Ho' Hg]]]];
            [ reflexivity | exact Hm | exact Hfresh | ]
      end.
      exists st', o'. rewrite E, Ho', Hg.
      rewrite getProp_setProp, String.eqb_refl. auto.
    + destruct (fst (outcome obj mode e0)) as [ | v | t ];
        [ rewrite Ho, Hs | | ];
        match goal with
        | |- context [ declaredKeys _ _ _ _ todo ?s ] =>
            eapply (IH s); eauto; simpl;
              first [ exact Ho | rewrite Ho; reflexivity | reflexivity ]
        end.
Qed.

(** When no declared key fails, no required key is absent and no failure
    is met on the declared keys. *)
Lemma no_failure_firstMissing : forall shape obj mode,
  (forall kt, In kt shape -> failureOf obj mode kt = None) ->
  firstMissing (entriesOf shape) obj = None.
Proof.
  intros shape obj mode H. unfold firstMissing.
  destruct (find _ (entriesOf shape)) as [ e | ] eqn:E; [ | reflexivity ].
  apply find_some in E. destruct E as [Hin He].
  unfold entriesOf in Hin. apply in_map_iff in Hin.
  destruct Hin as [kt [<- Hin]]. simpl in He.
  specialize (H kt Hin). unfold failureOf in H. rewrite He in H. discriminate.
Qed.

Lemma no_failure_declared : forall shape obj mode,
  (forall kt, In kt shape -> failureOf obj mode kt = None) ->
  declaredFailures (entriesOf shape) obj mode = [].
Proof.
  intros shape obj mode H.
  rewrite declaredFailures_entries by (now apply no_failure_firstMissing with mode).
  induction shape as [ | kt shape IH ]; [ reflexivity | ].
  simpl. rewrite (H kt) by now left. simpl.
  apply IH. intros kt' Hin. apply H. now right.
Qed.

(** ** The trials of the union matcher *)

Section TrialLoops.

Variable Root : Type.
Variable funcOf : Root -> Compiled.
Variable rootValue : value.
Variable mode : FuncMode.

Local Abbreviation tryAll := (tryEach funcOf rootValue mode).
Local Abbreviation rejected := (rejects funcOf rootValue mode).

Lemma tryEach_app : forall xs ys st,
  tryAll (xs ++ ys) st
  = match tryAll xs st with
    | inl ret => inl ret
    | inr st' => tryAll ys st'
    end.
Proof.
  induction xs as [ | x xs IH ]; intros ys st; simpl.
  - reflexivity.
  - destruct (run (funcOf x) rootValue mode) as [r cs].
    destruct r; try reflexivity. apply IH.
Qed.

(** Alternatives that all reject are all tried: their trees are joined,
    each one counted. *)
Lemma tryEach_rejected : forall xs st,
  forallb rejected xs = true ->
  tryAll xs st
  = inr (mkTrial
           (joinAll (rejections funcOf rootValue mode xs) (t_issueTree st))
           (t_count st + List.length xs)
           (t_calls st ++ trials funcOf rootValue mode xs)).
Proof.
  induction xs as [ | x xs IH ]; intros st H; simpl.
  - rewrite Nat.add_0_r, app_nil_r. now destruct st.
  - simpl in H. apply andb_true_iff in H. destruct H as [Hx Hxs].
    unfold rejects in Hx. unfold rejections, trials. simpl flat_map.
    destruct (run (funcOf x) rootValue mode) as [r cs].
    destruct r as [ | v | t ]; try discriminate. simpl.
    rewrite IH by exact Hxs. simpl.
    now rewrite Nat.add_succ_r, <- app_assoc.
Qed.

(** The first alternative that does not reject ends the trials: its
    answer is returned and the alternatives after it are not invoked. *)
Lemma tryEach_winner : forall tried winner untried st,
  forallb rejected tried = true ->
  rejected winner = false ->
  tryAll (tried ++ winner :: untried) st
  = inl (fst (run (funcOf winner) rootValue mode),
         t_calls st ++ trials funcOf rootValue mode tried
         ++ snd (run (funcOf winner) rootValue mode)).
Proof.
  intros tried winner untried st Ht Hw.
  rewrite tryEach_app, tryEach_rejected by exact Ht. simpl.
  unfold rejects in Hw.
  destruct (run (funcOf winner) rootValue mode) as [r cs].
  destruct r; try discriminate; simpl; now rewrite app_assoc.
Qed.

End TrialLoops.

(** The closure on a value other than [Nothing] whose type is expected:
    the candidates are tried in order. *)
Lemma matcherBody_candidates :
  forall (Root : Type) (funcOf : Root -> Compiled) tb path rootValue value mode,
  isNothing value = false ->
  unexpectedType tb value = false ->
  matcherBody funcOf tb path rootValue value mode
  = match tryEach funcOf rootValue mode (candidates tb value)
            (mkTrial None 0 []) with
    | inl ret => ret
    | inr st => conclude tb path st
    end.
Proof.
  intros Root funcOf tb path rootValue value mode Hv Hg.
  unfold matcherBody. rewrite Hv. simpl negb. cbv iota.
  unfold unexpectedType in Hg. rewrite Hg.
  unfold candidates. rewrite tryEach_app.
  now destruct (tryEach funcOf rootValue mode _ (mkTrial None 0 [])).
Qed.

(** ** Induction on schemas *)

(** The induction principle of [Schema] with the hypotheses for the
    children held in lists. *)
Lemma Schema_induction : forall P : Schema -> Prop,
  P NothingType -> P UnknownType -> P NumberType -> P StringType ->
  P BigIntType -> P BooleanType -> P UndefinedType -> P NullType ->
  (forall value, P (LiteralType value)) ->
  (forall shape restType,
     Forall (fun kt => P (snd kt)) shape ->
     match restType with Some r => P r | None => True end ->
     P (ObjectType shape restType)) ->
  (forall item, P item -> P (ArrayType item)) ->
  (forall options, Forall P options -> P (UnionType options)) ->
  (forall type, P type -> P (OptionalType type)) ->
  (forall transformed f, P transformed -> P (TransformType transformed f)) ->
  forall t, P t.
Proof.
  intros P Hnothing Hunknown Hnumber Hstring Hbigint Hboolean Hundefined
    Hnull Hliteral Hobject Harray Hunion Hoptional Htransform.
  fix IH 1. intros t.
  destruct t as [ | | | | | | | | value | shape restType | item | options
                | type | transformed f ].
  - exact Hnothing.
  - exact Hunknown.
  - exact Hnumber.
  - exact Hstring.
  - exact Hbigint.
  - exact Hboolean.
  - exact Hundefined.
  - exact Hnull.
  - apply Hliteral.
  - apply Hobject.
    + induction shape as [ | [key type] shape IHs ]; constructor.
      * apply IH.
      * exact IHs.
    + destruct restType as [ r | ]; [ apply IH | exact I ].
  - apply Harray, IH.
  - apply Hunion. induction options as [ | o options IHo ]; constructor.
    + apply IH.
    + exact IHo.
  - apply Hoptional, IH.
  - apply Htransform, IH.
Qed.

Lemma onlyAsserts_shape : forall shape restType,
  onlyAsserts (ObjectType shape restType) ->
  Forall (fun kt => onlyAsserts (snd kt)) shape
  /\ match restType with Some r => onlyAsserts r | None => True end.
Proof.
  intros shape restType [Hs Hr]. split.
  - induction shape as [ | kt shape IH ]; constructor.
    + apply Hs.
    + apply IH, Hs.
  - exact Hr.
Qed.

Lemma onlyAsserts_options : forall options,
  onlyAsserts (UnionType options) -> Forall onlyAsserts options.
Proof.
  intros options H. induction options as [ | o options IH ]; constructor.
  - apply H.
  - apply IH, H.
Qed.

(** ** Functions that never answer with a new value *)

Lemma keeps_isNew : forall mode (c : Compiled) v,
  keeps mode (snd c) -> isNew (fst (run c v mode)) = false.
Proof.
  intros mode c v H. rewrite fst_run. specialize (H v).
  destruct (fst (snd c v mode)) as [ | x | t ]; try reflexivity.
  now elim (H x).
Qed.

Lemma existsb_none : forall (A : Type) (f : A -> bool) l,
  (forall a, In a l -> f a = false) -> existsb f l = false.
Proof.
  intros A f l H. induction l as [ | a l IH ]; [ reflexivity | ].
  simpl. rewrite (H a) by now left. apply IH. intros b Hb. apply H. now right.
Qed.

(** The object closure clones only in strip mode or on a new value. *)
Lemma objectFunc_keeps : forall entries rest mode,
  isStrip mode = false ->
  Forall (fun e => keeps mode (snd (e_func e))) entries ->
  match rest with Some c => keeps mode (snd c) | None => True end ->
  keeps mode (objectFunc entries rest).
Proof.
  intros entries rest mode Hs He Hr v x. unfold objectFunc.
  destruct v as [ | | b | n | z | s | | items | props | ]; try discriminate.
  rewrite isObject_VObject.
  destruct (stopsEarly entries props mode) eqn:Estop.
  - pose proof (objectBody_stops entries rest props mode Estop) as Hi.
    intros E. rewrite E in Hi. discriminate.
  - destruct (objectBody_all entries rest props mode Estop)
      as [st [E [_ Ho]]].
    rewrite E. unfold finish.
    assert (Hc : clones entries rest props mode = false).
    { unfold clones, someNewValue. rewrite Hs. simpl. rewrite orb_false_r.
      apply orb_false_iff. split.
      - apply existsb_none. intros e Hin. unfold outcome.
        apply keeps_isNew. rewrite Forall_forall in He. now apply He.
      - destruct rest as [ c | ]; [ | reflexivity ].
        apply existsb_none. intros key _. now apply keeps_isNew. }
    apply Ho in Hc. rewrite Hc. now destruct (pending st).
Qed.

(** The loop of the array closure: the output is still the input exactly
    when no element was answered with a new value. *)
Lemma elements_output : forall item arr mode todo i st,
  a_output (elements item arr mode i todo st) = None
  <-> a_output st = None
      /\ existsb (fun x => isNew (fst (run item x mode))) todo = false.
Proof.
  intros item arr mode todo.
  induction todo as [ | x todo IH ]; intros i st; simpl.
  - intuition.
  - destruct (run item x mode) as [r cs]. simpl fst.
    destruct r as [ | v | t ]; rewrite IH; simpl; intuition discriminate.
Qed.

(** The loop of the array closure joins the failure of every element. *)
Lemma elements_pending : forall item arr mode todo i st,
  a_pending (elements item arr mode i todo st)
  = joinAll (elementFailures item mode i todo) (a_pending st).
Proof.
  intros item arr mode todo.
  induction todo as [ | x todo IH ]; intros i st.
  - reflexivity.
  - unfold elementFailures. simpl.
    fold (elementFailures item mode (S i) todo).
    destruct (run item x mode) as [r cs]. simpl fst.
    destruct r as [ | v | t ]; rewrite IH; reflexivity.
Qed.

(** The flattening of an array's issue tree lists the failures from the
    last index back to the first. *)
Lemma array_flattening : forall item arr mode tree,
  fst (func (ArrayType item) (VArray arr) mode) = RIssue tree ->
  collectIssues tree
  = flat_map (flat [])
      (rev (elementFailures (item, genFunc item) mode 0 arr)).
Proof.
  intros item arr mode tree. unfold func. simpl. unfold arrayBody.
  rewrite elements_pending. simpl a_pending.
  pose proof (flat_joinAll []
                (elementFailures (item, genFunc item) mode 0 arr) None) as F.
  destruct (joinAll _ None) as [ tree' | ].
  - simpl. intros E. injection E as <-. unfold collectIssues.
    fold (flat [] tree'). now rewrite F, app_nil_r.
  - destruct (a_output _); discriminate.
Qed.

Lemma arrayFunc_keeps : forall item mode,
  keeps mode (snd item) -> keeps mode (arrayFunc item).
Proof.
  intros item mode H v x. unfold arrayFunc.
  destruct v as [ | | b | n | z | s | | items | props | ]; try discriminate.
  unfold arrayBody.
  assert (Ho : a_output (elements item items mode 0 items
                           (mkArrLocals None None [])) = None).
  { apply elements_output. split; [ reflexivity | ].
    apply existsb_none. intros y _. now apply keeps_isNew. }
  rewrite Ho. now destruct (a_pending _).
Qed.

Lemma optionalFunc_keeps : forall type mode,
  keeps mode (snd type) -> keeps mode (optionalFunc type).
Proof.
  intros type mode H v x. unfold optionalFunc.
  destruct (isNothing v || isUndefined v); [ discriminate | ].
  rewrite fst_run. apply H.
Qed.

Lemma transformFuncOf_keeps : forall transformed f mode,
  (forall v x, f v <> ROk x) ->
  keeps mode (transformFuncOf transformed f).
Proof.
  intros transformed f mode H v x. unfold transformFuncOf.
  destruct (run transformed v mode) as [r cs].
  destruct r as [ | y | t ]; simpl; try apply H. discriminate.
Qed.

(** ** The alternatives listed in the tables of a matcher *)

Section TablesOrigin.

Variable Root : Type.
Variable same : Root -> Root -> bool.
Variable P : Root -> Prop.

Lemma mapGet_Forall : forall (K : Type) (is_k : K -> bool)
  (m : list (K * list Root)) roots,
  Forall (fun e => Forall P (snd e)) m ->
  mapGet is_k m = Some roots -> Forall P roots.
Proof.
  intros K is_k m roots H. induction H as [ | [k v] m Hv _ IH ]; simpl.
  - discriminate.
  - destruct (is_k k); [ | exact IH ]. intros E. now injection E as <-.
Qed.

Lemma mapSet_Forall : forall (K : Type) (is_k : K -> bool) k roots
  (m : list (K * list Root)),
  Forall (fun e => Forall P (snd e)) m -> Forall P roots ->
  Forall (fun e => Forall P (snd e)) (mapSet is_k k roots m).
Proof.
  intros K is_k k roots m H Hr. induction H as [ | [k' v] m Hv Hm IH ]; simpl.
  - now repeat constructor.
  - destruct (is_k k'); constructor; assumption.
Qed.

Lemma dedupFrom_Forall : forall arr seen,
  Forall P arr -> Forall P (dedupFrom same seen arr).
Proof.
  intros arr seen H. revert seen.
  induction H as [ | x arr Hx _ IH ]; intros seen; simpl.
  - constructor.
  - destruct (includes same seen x); [ apply IH | constructor; auto ].
Qed.

Lemma difference_Forall : forall arr1 arr2,
  Forall P arr1 -> Forall P (difference same arr1 arr2).
Proof.
  intros arr1 arr2 H. unfold difference. rewrite Forall_forall in *.
  intros x Hx. apply filter_In in Hx. now apply H.
Qed.

Lemma orNil_Forall : forall (o : option (list Root)),
  (forall roots, o = Some roots -> Forall P roots) ->
  Forall P match o with Some roots => roots | None => [] end.
Proof. intros [ roots | ] H; [ now apply H | constructor ]. Qed.

Lemma classify_all : forall tb root terminal,
  TablesAll P tb -> P root -> TablesAll P (classify tb (root, terminal)).
Proof.
  intros tb root terminal [Hl [Ht [Hu Hn]]] Hp.
  assert (Hone : Forall P [root]) by now repeat constructor.
  unfold TablesAll.
  destruct terminal; simpl; repeat split; try assumption;
    try (apply Forall_app; now split);
    apply mapSet_Forall; try assumption;
    apply Forall_app; (split; [ | assumption ]);
    apply orNil_Forall; intros roots E;
    first [ exact (mapGet_Forall _ Hl E) | exact (mapGet_Forall _ Ht E) ].
Qed.

Lemma classified_all : forall t tb,
  TablesAll P tb -> Forall (fun rt => P (fst rt)) t ->
  TablesAll P (fold_left (classify (Root:=Root)) t tb).
Proof.
  induction t as [ | [root terminal] t IH ]; intros tb Htb Ht; simpl.
  - exact Htb.
  - apply Forall_cons_iff in Ht. destruct Ht as [Hp Ht].
    apply IH; [ | exact Ht ]. now apply classify_all.
Qed.

Lemma mergeLiteral_Forall : forall entries ty,
  Forall (fun e : Literal * list Root => Forall P (snd e)) entries ->
  Forall (fun e : BaseType * list Root => Forall P (snd e)) ty ->
  Forall (fun e : BaseType * list Root => Forall P (snd e))
         (fold_left (mergeLiteral (Root:=Root)) entries ty).
Proof.
  induction entries as [ | [value vxs] entries IH ]; intros ty He Ht; simpl.
  - exact Ht.
  - apply Forall_cons_iff in He. destruct He as [Hv He].
    apply IH; [ exact He | ].
    destruct (mapGet (Name_eqb (toBaseType (ofLiteral value))) ty)
      as [ options | ] eqn:E; [ | exact Ht ].
    apply mapSet_Forall; [ exact Ht | ].
    apply Forall_app. split; [ | exact Hv ].
    exact (mapGet_Forall _ Ht E).
Qed.

Lemma cleaned_Forall : forall (K : Type) (m : list (K * list Root)) unknowns,
  Forall (fun e => Forall P (snd e)) m ->
  Forall (fun e => Forall P (snd e))
         (map (fun e => (fst e,
                         difference same (dedup same (snd e)) unknowns)) m).
Proof.
  intros K m unknowns H. induction H as [ | e m He _ IH ]; simpl;
    constructor; [ | exact IH ].
  simpl. apply difference_Forall. now apply dedupFrom_Forall.
Qed.

(** Every alternative listed in the tables comes from the pairs the
    tables were built from. *)
Lemma buildTables_all : forall t,
  Forall (fun rt => P (fst rt)) t -> TablesAll P (buildTables same t).
Proof.
  intros t Ht.
  assert (H0 : TablesAll P (noTables Root))
    by (unfold TablesAll; simpl; auto).
  destruct (classified_all H0 Ht) as [Hl [Hty [Hu Hn]]].
  unfold buildTables, TablesAll. simpl. repeat split.
  - apply cleaned_Forall. rewrite Forall_forall in *.
    intros e He. apply filter_In in He. now apply Hl.
  - apply cleaned_Forall. now apply mergeLiteral_Forall.
  - now apply dedupFrom_Forall.
  - now apply dedupFrom_Forall.
Qed.

Lemma firstNothing_In : forall (flattened : list (Root * Schema)) root,
  Forall (fun rt => P (fst rt)) flattened ->
  firstNothing flattened = Some root -> P root.
Proof.
  intros flattened root H. induction H as [ | [r terminal] fl Hr _ IH ].
  - discriminate.
  - simpl. destruct terminal; try exact IH.
    intros E. now injection E as <-.
Qed.

Lemma objectsOf_Forall : forall (t : list (Root * Schema)),
  Forall (fun rt => P (fst rt)) t ->
  Forall (fun rs => P (fst rs)) (objectsOf t).
Proof.
  intros t H. induction H as [ | [r terminal] t Hr _ IH ]; simpl.
  - constructor.
  - destruct terminal; try exact IH. constructor; assumption.
Qed.

Lemma flat_map_roots : forall (A B : Type) (l : list (Root * A))
  (f : A -> list B),
  Forall (fun ra => P (fst ra)) l ->
  Forall (fun rb => P (fst rb))
         (flat_map (fun ra => map (fun b => (fst ra, b)) (f (snd ra))) l).
Proof.
  intros A B l f H. induction H as [ | ra l Hr _ IH ]; simpl.
  - constructor.
  - apply Forall_app. split; [ | exact IH ].
    rewrite Forall_forall. intros rb Hin. apply in_map_iff in Hin.
    destruct Hin as [b [<- _]]. exact Hr.
Qed.

End TablesOrigin.

(** ** The union closure never makes a new value of its own *)

Section UnionKeeps.

Variable Root : Type.
Variable same : Root -> Root -> bool.
Variable funcOf : Root -> Compiled.
Variable mode : FuncMode.

Local Abbreviation calm := (quiet funcOf mode).

Lemma tryEach_keeps : forall rootValue xs st,
  Forall calm xs ->
  match tryEach funcOf rootValue mode xs st with
  | inl ret => forall x, fst ret <> ROk x
  | inr _ => True
  end.
Proof.
  intros rootValue xs st H. revert st.
  induction H as [ | y xs Hy _ IH ]; intros st; simpl.
  - exact I.
  - pose proof (Hy rootValue) as Hk. rewrite <- fst_run in Hk.
    destruct (run (funcOf y) rootValue mode) as [r cs]. simpl in Hk.
    destruct r as [ | v | t ]; simpl.
    + discriminate.
    + exact Hk.
    + apply IH.
Qed.

Lemma conclude_keeps : forall (tb : Tables Root) path st x,
  fst (conclude tb path st) <> ROk x.
Proof.
  intros tb path st x. unfold conclude.
  destruct (t_issueTree st); [ destruct (Nat.ltb 1 (t_count st)) | ];
    discriminate.
Qed.

Lemma matcherBody_keeps : forall tb path rootValue value x,
  TablesAll calm tb ->
  fst (matcherBody funcOf tb path rootValue value mode) <> ROk x.
Proof.
  intros tb path rootValue value x [Hl [Ht [Hu Hn]]]. unfold matcherBody.
  destruct (negb (isNothing value)).
  - destruct (_ && _); [ discriminate | ].
    assert (Hb : Forall calm
                   match bucket tb value with Some o => o | None => [] end).
    { apply orNil_Forall. intros roots E. unfold bucket in E.
      destruct (mapGet (sameValueZero value) (literals tb)) as [ o | ] eqn:El.
      - injection E as <-. exact (mapGet_Forall _ Hl El).
      - exact (mapGet_Forall _ Ht E). }
    pose proof (tryEach_keeps rootValue (mkTrial None 0 []) Hb) as H1.
    destruct (tryEach funcOf rootValue mode _ (mkTrial None 0 []))
      as [ ret | st ]; [ apply H1 | ].
    pose proof (tryEach_keeps rootValue st Hu) as H2.
    destruct (tryEach funcOf rootValue mode (unknowns tb) st)
      as [ ret | st' ]; [ apply H2 | apply conclude_keeps ].
  - pose proof (tryEach_keeps rootValue (mkTrial None 0 []) Hn) as H1.
    destruct (tryEach funcOf rootValue mode (nothings tb) (mkTrial None 0 []))
      as [ ret | st ]; [ apply H1 | apply conclude_keeps ].
Qed.

Lemma createObjectMatchers_keeps : forall t item,
  Forall (fun rt => calm (fst rt)) t ->
  In item (createObjectMatchers same funcOf t) ->
  (forall rootValue value x,
     fst (m_matcher item rootValue value mode) <> ROk x)
  /\ (forall root, m_nothing item = Some root -> calm root).
Proof.
  intros t item Ht Hin. unfold createObjectMatchers in Hin.
  apply in_map_iff in Hin. destruct Hin as [key [<- _]]. simpl.
  assert (Hf : Forall (fun rt => calm (fst rt))
                 (flat_map (fun rs => map (fun terminal => (fst rs, terminal))
                                          (terminalsAt (snd rs) key))
                           (objectsOf t))).
  { apply (flat_map_roots calm
             (fun shape => terminalsAt shape key)).
    now apply objectsOf_Forall. }
  split.
  - intros rootValue value x. unfold createUnionMatcher.
    apply matcherBody_keeps. now apply buildTables_all.
  - intros root E. exact (firstNothing_In calm Hf E).
Qed.

End UnionKeeps.

Lemma indexed_Forall : forall (A : Type) (P : A -> Prop) xs i,
  Forall P xs -> Forall (fun ix => P (snd ix)) (indexed i xs).
Proof.
  intros A P xs i H. revert i.
  induction H as [ | x xs Hx _ IH ]; intros i; simpl; constructor; auto.
Qed.

Lemma unionFunc_keeps : forall options mode,
  Forall (fun c : Compiled => keeps mode (snd c)) options ->
  keeps mode (unionFunc options).
Proof.
  intros options mode H v x. unfold unionFunc.
  set (t := unionRoots options).
  assert (Ht : Forall (fun rt => quiet (snd (B:=Compiled)) mode (fst rt)) t).
  { unfold t, unionRoots, flatten.
    apply (flat_map_roots (quiet (snd (B:=Compiled)) mode) toTerminals).
    rewrite Forall_forall. intros ra Hin. apply in_map_iff in Hin.
    destruct Hin as [root [<- Hin]]. simpl.
    pose proof (indexed_Forall 0 H) as Hi. rewrite Forall_forall in Hi.
    exact (Hi root Hin). }
  assert (Hbase : fst (createUnionMatcher sameRoot snd t None v v mode)
                  <> ROk x).
  { unfold createUnionMatcher. apply matcherBody_keeps.
    now apply buildTables_all. }
  destruct (createObjectMatchers sameRoot snd t) as [ | item items ] eqn:E;
    [ exact Hbase | ].
  destruct v as [ | | b | n | z | s | | elems | props | ]; try exact Hbase.
  rewrite isObject_VObject.
  destruct (@createObjectMatchers_keeps UnionRoot sameRoot snd mode t item Ht)
    as [Hm Hn]; [ rewrite E; now left | ].
  destruct (isUndefined _ && _); [ | apply Hm ].
  destruct (m_nothing item) as [ root | ] eqn:En; [ | discriminate ].
  rewrite fst_run. apply (Hn root eq_refl).
Qed.

(** A schema whose transforms only assert never answers, in passthrough
    or strict mode, with a new value. *)
Lemma onlyAsserts_keeps : forall t mode,
  isStrip mode = false -> onlyAsserts t -> keeps mode (genFunc t).
Proof.
  intros t mode Hs. induction t
    as [ | | | | | | | | value | shape restType IHs IHr | item IH
       | options IHo | type IH | transformed f IH ] using Schema_induction;
    intros Ha; try (intros v x; simpl; unfold check;
                    match goal with
                    | |- context [ if ?c then _ else _ ] => destruct c
                    | _ => idtac
                    end; discriminate).
  - apply onlyAsserts_shape in Ha. destruct Ha as [Hshape Hrest].
    rewrite genFunc_ObjectType. apply objectFunc_keeps; [ exact Hs | | ].
    + unfold entriesOf. rewrite Forall_forall in *.
      intros e Hin. apply in_map_iff in Hin. destruct Hin as [kt [<- Hin]].
      simpl. apply IHs; [ exact Hin | now apply Hshape ].
    + destruct restType as [ r | ]; simpl; [ now apply IHr | exact I ].
  - simpl. apply arrayFunc_keeps. simpl. now apply IH.
  - apply onlyAsserts_options in Ha. simpl. apply unionFunc_keeps.
    rewrite Forall_forall in *. intros c Hin. apply in_map_iff in Hin.
    destruct Hin as [o [<- Hin]]. simpl. apply IHo; [ exact Hin | ].
    now apply Ha.
  - simpl. apply optionalFunc_keeps. simpl. now apply IH.
  - destruct Ha as [Ha Hf]. simpl. now apply transformFuncOf_keeps.
Qed.

(** ** Keys of the maps *)

Lemma Name_eqb_eq : forall a b, Name_eqb a b = true <-> a = b.
Proof. intros a b. destruct a, b; simpl; split; congruence. Qed.

Lemma Name_eqb_refl : forall a, Name_eqb a a = true.
Proof. intros a. now apply Name_eqb_eq. Qed.

(** [SameValueZero] on numbers is equality of the keys a [Map] stores. *)
Lemma sameNumber_mapKey : forall x y,
  (isNaN x && isNaN y) || SFeqb x y = true
  <-> mapKey (LNumber x) = mapKey (LNumber y).
Proof.
  intros x y.
  destruct x as [ s | s | | s m e ], y as [ s' | s' | | s' m' e' ];
    try destruct s; try destruct s'; simpl;
    try (split; [ reflexivity || discriminate | reflexivity || discriminate ]);
    unfold SFeqb; simpl;
    (destruct (Z.compare e e') eqn:Ee;
     [ apply Z.compare_eq_iff in Ee; subst e'
     | split; [ discriminate | intros E; injection E as _ E;
                subst e'; now rewrite Z.compare_refl in Ee ]
     | split; [ discriminate | intros E; injection E as _ E;
                subst e'; now rewrite Z.compare_refl in Ee ] ]);
    fold (Pos.compare m m');
    (destruct (Pos.compare m m') eqn:Em;
     [ apply Pos.compare_eq_iff in Em; subst m'; split; reflexivity
     | split; [ discriminate | intros E; injection E as E;
                subst m'; now rewrite Pos.compare_refl in Em ]
     | split; [ discriminate | intros E; injection E as E;
                subst m'; now rewrite Pos.compare_refl in Em ] ]).
Qed.

Lemma sameLiteral_mapKey : forall a b,
  sameLiteral a b = true <-> mapKey a = mapKey b.
Proof.
  intros a b. unfold sameLiteral.
  destruct a as [ s | x | z | c ], b as [ s' | y | z' | c' ];
    try (simpl; split; [ discriminate | ];
         try destruct x as [ [ | ] | | | ]; try destruct y as [ [ | ] | | | ];
         discriminate).
  - simpl. rewrite String.eqb_eq. split; congruence.
  - apply sameNumber_mapKey.
  - simpl. rewrite Z.eqb_eq. split; congruence.
  - simpl. rewrite Bool.eqb_true_iff. split; congruence.
Qed.

(** Only a literal value is the same as a literal. *)
Lemma sameValueZero_literal : forall v l,
  sameValueZero v l = true -> exists a, v = ofLiteral a.
Proof.
  intros v l H.
  destruct v as [ | | b | n | z | s | | items | props | ];
    try (destruct l; discriminate).
  - now exists (LBoolean b).
  - now exists (LNumber n).
  - now exists (LBigInt z).
  - now exists (LString s).
Qed.

(** Literals the same as one another are the same as the same values. *)
Lemma sameValueZero_same : forall v l k,
  sameLiteral l k = true -> sameValueZero v l = sameValueZero v k.
Proof.
  intros v l k H. apply sameLiteral_mapKey in H.
  destruct (sameValueZero v l) eqn:El, (sameValueZero v k) eqn:Ek;
    try reflexivity.
  - destruct (sameValueZero_literal _ _ El) as [a ->].
    apply sameLiteral_mapKey in El. rewrite H in El.
    apply sameLiteral_mapKey in El. unfold sameLiteral in El. congruence.
  - destruct (sameValueZero_literal _ _ Ek) as [a ->].
    apply sameLiteral_mapKey in Ek. rewrite <- H in Ek.
    apply sameLiteral_mapKey in Ek. unfold sameLiteral in Ek. congruence.
Qed.

Lemma sameValueZero_both : forall v l k,
  sameValueZero v l = true -> sameValueZero v k = true ->
  sameLiteral l k = true.
Proof.
  intros v l k Hl Hk. destruct (sameValueZero_literal _ _ Hl) as [a ->].
  apply sameLiteral_mapKey in Hl, Hk. apply sameLiteral_mapKey. congruence.
Qed.

Lemma sameValueZero_mapKey : forall v l,
  sameValueZero v (mapKey l) = sameValueZero v l.
Proof.
  intros v l. apply sameValueZero_same. apply sameLiteral_mapKey.
  destruct l as [ s | x | z | c ]; try reflexivity.
  destruct x as [ [ | ] | | | ]; reflexivity.
Qed.

Lemma sameValueZero_base : forall v l,
  sameValueZero v l = true -> toBaseType (ofLiteral l) = toBaseType v.
Proof.
  intros v l H.
  destruct v as [ | | b | n | z | s | | items | props | ], l; simpl in H;
    try discriminate; reflexivity.
Qed.

(** ** The contents of the matched bucket *)

Lemma mapGet_mapSet_name : forall (V : Type) b n (v : V) m,
  mapGet (Name_eqb b) (mapSet (Name_eqb n) n v m)
  = if Name_eqb b n then Some v else mapGet (Name_eqb b) m.
Proof.
  intros V b n v m. induction m as [ | [k v'] m IH ]; simpl.
  - reflexivity.
  - destruct (Name_eqb n k) eqn:Enk; simpl.
    + apply Name_eqb_eq in Enk. subst k.
      now destruct (Name_eqb b n).
    + rewrite IH. destruct (Name_eqb b k) eqn:Ebk; [ | reflexivity ].
      apply Name_eqb_eq in Ebk. subst k.
      destruct (Name_eqb b n) eqn:Ebn; [ | reflexivity ].
      apply Name_eqb_eq in Ebn. subst n.
      now rewrite Name_eqb_refl in Enk.
Qed.

Lemma mapGet_mapSet_literal : forall (V : Type) v l (r : V) m,
  mapGet (sameValueZero v) (mapSet (sameLiteral l) (mapKey l) r m)
  = if sameValueZero v l then Some r else mapGet (sameValueZero v) m.
Proof.
  intros V v l r m. induction m as [ | [k r'] m IH ]; simpl.
  - now rewrite sameValueZero_mapKey.
  - destruct (sameLiteral l k) eqn:Elk; simpl.
    + rewrite <- (sameValueZero_same v l k Elk).
      now destruct (sameValueZero v l).
    + rewrite IH. destruct (sameValueZero v k) eqn:Evk; [ | reflexivity ].
      destruct (sameValueZero v l) eqn:Evl; [ | reflexivity ].
      now rewrite (sameValueZero_both v l k Evl Evk) in Elk.
Qed.

Lemma mapGet_map : forall (K V : Type) (is_k : K -> bool) (f : V -> V) m,
  mapGet is_k (map (fun e => (fst e, f (snd e))) m)
  = option_map f (mapGet is_k m).
Proof.
  intros K V is_k f m. induction m as [ | [k v] m IH ]; simpl.
  - reflexivity.
  - now destruct (is_k k).
Qed.

Lemma Name_eqb_sym : forall a b, Name_eqb a b = Name_eqb b a.
Proof. intros a b. destruct a, b; reflexivity. Qed.

Lemma mapGet_ext : forall (K V : Type) (p q : K -> bool) (m : list (K * V)),
  (forall k, p k = q k) -> mapGet p m = mapGet q m.
Proof.
  intros K V p q m H. induction m as [ | [k v] m IH ]; simpl.
  - reflexivity.
  - now rewrite H, IH.
Qed.

Lemma extended_nil : forall (Root : Type) (o : option (list Root)),
  extended o [] = o.
Proof. intros Root [ r | ]; simpl; [ now rewrite app_nil_r | reflexivity ]. Qed.

Lemma extended_cons : forall (Root : Type) (o : option (list Root)) x l,
  extended (Some (match o with Some r => r | None => [] end ++ [x])) l
  = extended o (x :: l).
Proof.
  intros Root o x l. unfold extended.
  destruct o; simpl; rewrite <- ?app_assoc; reflexivity.
Qed.

Lemma fold_step : forall (A B : Type) (f : A -> B -> A) x l a,
  fold_left f (x :: l) a = fold_left f l (f a x).
Proof. reflexivity. Qed.

Section BucketOrder.

Variable Root : Type.
Variable same : Root -> Root -> bool.

Local Abbreviation sort := (classify (Root:=Root)).

Lemma types_classify : forall tb root terminal,
  types (sort tb (root, terminal))
  = if isBase terminal then
      mapSet (Name_eqb (name terminal)) (name terminal)
        (match mapGet (Name_eqb (name terminal)) (types tb) with
         | Some roots => roots
         | None => []
         end ++ [root])
        (types tb)
    else types tb.
Proof. intros tb root terminal. destruct terminal; reflexivity. Qed.

Lemma literals_classify : forall tb root terminal,
  literals (sort tb (root, terminal))
  = match terminal with
    | LiteralType l =>
        mapSet (sameLiteral l) (mapKey l)
          (match mapGet (sameLiteral l) (literals tb) with
           | Some roots => roots
           | None => []
           end ++ [root])
          (literals tb)
    | _ => literals tb
    end.
Proof. intros tb root terminal. destruct terminal; reflexivity. Qed.

Lemma unknowns_classify : forall tb root terminal,
  unknowns (sort tb (root, terminal))
  = match terminal with
    | UnknownType => unknowns tb ++ [root]
    | _ => unknowns tb
    end.
Proof. intros tb root terminal. destruct terminal; reflexivity. Qed.

(** The bucket of a base type holds, in order, the alternatives that
    accept it as such. *)
Lemma types_classified : forall t tb b,
  mapGet (Name_eqb b) (types (fold_left sort t tb))
  = extended (mapGet (Name_eqb b) (types tb)) (typeRoots t b).
Proof.
  induction t as [ | [root terminal] t IH ]; intros tb b.
  - simpl. now rewrite extended_nil.
  - rewrite fold_step, IH, types_classify.
    unfold typeRoots. simpl filter. simpl snd.
    destruct (isBase terminal); simpl andb; [ | reflexivity ].
    rewrite mapGet_mapSet_name, (Name_eqb_sym (name terminal) b).
    destruct (Name_eqb b (name terminal)) eqn:E; [ | reflexivity ].
    apply Name_eqb_eq in E. subst b. simpl map.
    apply extended_cons.
Qed.

(** The bucket of a literal holds, in order, the alternatives that
    accept it. *)
Lemma literals_classified : forall t tb v,
  mapGet (sameValueZero v) (literals (fold_left sort t tb))
  = extended (mapGet (sameValueZero v) (literals tb)) (literalRoots t v).
Proof.
  induction t as [ | [root terminal] t IH ]; intros tb v.
  - simpl. now rewrite extended_nil.
  - rewrite fold_step, IH, literals_classify.
    unfold literalRoots. simpl filter. simpl snd.
    destruct terminal as [ | | | | | | | | l | | | | | ]; try reflexivity.
    rewrite mapGet_mapSet_literal.
    destruct (sameValueZero v l) eqn:E; [ | reflexivity ].
    simpl map.
    rewrite (mapGet_ext (sameLiteral l) (sameValueZero v) (literals tb)).
    + apply extended_cons.
    + intros k. unfold sameLiteral.
      destruct (sameValueZero v k) eqn:Ek.
      * exact (sameValueZero_both v l k E Ek).
      * destruct (sameValueZero (ofLiteral l) k) eqn:Elk; [ | reflexivity ].
        now rewrite <- (sameValueZero_same v l k Elk), E in Ek.
Qed.

Lemma unknowns_classified : forall t tb,
  unknowns (fold_left sort t tb) = unknowns tb ++ unknownRoots t.
Proof.
  induction t as [ | [root terminal] t IH ]; intros tb.
  - simpl. now rewrite app_nil_r.
  - rewrite fold_step, IH, unknowns_classify.
    unfold unknownRoots. simpl filter. simpl snd.
    destruct terminal; try reflexivity.
    simpl. now rewrite <- app_assoc.
Qed.

(** Merging appends to a base type's bucket the buckets of the literals
    of that base type. *)
Lemma merged_lookup : forall (lits : list (Literal * list Root)) ty b,
  mapGet (Name_eqb b) (fold_left (mergeLiteral (Root:=Root)) lits ty)
  = match mapGet (Name_eqb b) ty with
    | Some r =>
        Some (r ++ flat_map snd
                     (filter (fun e =>
                                Name_eqb (toBaseType (ofLiteral (fst e))) b)
                             lits))
    | None => None
    end.
Proof.
  induction lits as [ | [l vxs] lits IH ]; intros ty b.
  - simpl. destruct (mapGet (Name_eqb b) ty); [ | reflexivity ].
    now rewrite app_nil_r.
  - rewrite fold_step, IH. simpl filter. simpl fst.
    set (b' := toBaseType (ofLiteral l)).
    unfold mergeLiteral. fold b'.
    destruct (mapGet (Name_eqb b') ty) as [ o | ] eqn:Eo.
    + rewrite mapGet_mapSet_name, (Name_eqb_sym b' b).
      destruct (Name_eqb b b') eqn:E.
      * apply Name_eqb_eq in E. subst b. rewrite Eo. simpl.
        now rewrite <- app_assoc.
      * reflexivity.
    + destruct (Name_eqb b' b) eqn:E; [ | reflexivity ].
      apply Name_eqb_eq in E. subst b. now rewrite Eo.
Qed.

(** A literal keeps its own bucket exactly when its base type has none. *)
Lemma unmerged_lookup : forall (lits : list (Literal * list Root))
  (ty : list (BaseType * list Root)) v,
  mapGet (sameValueZero v) (filter (unmerged ty) lits)
  = if truthy (mapGet (Name_eqb (toBaseType v)) ty) then None
    else mapGet (sameValueZero v) lits.
Proof.
  induction lits as [ | [k r] lits IH ]; intros ty v.
  - simpl. now destruct (truthy _).
  - simpl filter. unfold unmerged at 1. simpl fst.
    destruct (sameValueZero v k) eqn:E.
    + rewrite (sameValueZero_base v k E).
      destruct (truthy (mapGet (Name_eqb (toBaseType v)) ty)) eqn:Et; simpl.
      * rewrite IH. now rewrite Et.
      * now rewrite E.
    + destruct (negb _); simpl; rewrite ?E; apply IH.
Qed.

(** The matched bucket of the tables is the one described by [matched]. *)
Lemma bucket_matched : forall t v,
  bucket (buildTables same t) v = matched same t v.
Proof.
  intros t v. unfold bucket, buildTables, matched, cleaned.
  cbn [literals types unknowns].
  rewrite unknowns_classified. cbn [unknowns noTables app].
  set (clean := fun roots =>
                  difference same (dedup same roots)
                             (dedup same (unknownRoots t))).
  rewrite (mapGet_map (sameValueZero v) clean).
  rewrite (mapGet_map (Name_eqb (toBaseType v)) clean).
  rewrite unmerged_lookup, merged_lookup.
  rewrite types_classified, literals_classified.
  cbn [types literals noTables mapGet]. unfold mergedRoots.
  destruct (typeRoots t (toBaseType v)) as [ | r rs ]; simpl.
  - now destruct (literalRoots t v).
  - reflexivity.
Qed.

End BucketOrder.

Lemma absent_hasProp : forall obj key,
  hasProp obj key = false -> absent obj key = true.
Proof.
  intros obj key H. unfold absent, readProp. rewrite H.
  unfold hasProp in H. now destruct (lookup obj key).
Qed.

(** ** A union input without the discriminant key *)

(** The alternative that tolerates the absence of a discriminant key is
    one of the alternatives of the union. *)
Lemma createObjectMatchers_nothing :
  forall (Root : Type) (same : Root -> Root -> bool)
         (funcOf : Root -> Compiled) (P : Root -> Prop) t item root,
  Forall (fun rt => P (fst rt)) t ->
  In item (createObjectMatchers same funcOf t) ->
  m_nothing item = Some root -> P root.
Proof.
  intros Root same funcOf P t item root Ht Hin.
  unfold createObjectMatchers in Hin.
  apply in_map_iff in Hin. destruct Hin as [key [<- _]]. simpl.
  apply (firstNothing_In P).
  apply (flat_map_roots P (fun shape => terminalsAt shape key)).
  now apply objectsOf_Forall.
Qed.

Lemma unionRoots_compiled : forall options,
  Forall (fun rt : UnionRoot * Schema =>
            snd (snd (fst rt)) = genFunc (fst (snd (fst rt))))
         (unionRoots (compiledOptions options)).
Proof.
  intros options. unfold unionRoots, flatten.
  apply (flat_map_roots
           (fun root : UnionRoot => snd (snd root) = genFunc (fst (snd root)))
           toTerminals).
  rewrite Forall_forall. intros ra Hin. apply in_map_iff in Hin.
  destruct Hin as [root [<- Hin]]. simpl.
  assert (H : Forall (fun c : Compiled => snd c = genFunc (fst c))
                     (compiledOptions options)).
  { unfold compiledOptions. rewrite Forall_forall. intros c Hc.
    apply in_map_iff in Hc. now destruct Hc as [o [<- _]]. }
  pose proof (indexed_Forall 0 H) as Hi. rewrite Forall_forall in Hi.
  exact (Hi root Hin).
Qed.

(** When a discriminant key is selected and the alternative that
    tolerates its absence is an object schema, every input object without
    the key is rejected: the alternative is handed [Nothing]. *)
Lemma absent_discriminant_rejects_objects :
  forall options obj mode item items root shape restType,
  createObjectMatchers sameRoot snd (unionRoots (compiledOptions options))
  = item :: items ->
  hasProp obj (m_key item) = false ->
  m_nothing item = Some root ->
  fst (snd root) = ObjectType shape restType ->
  func (UnionType options) (VObject obj) mode
  = (RIssue (issue (invalid_type None [n_object])),
     [call (ObjectType shape restType) VNothing mode]).
Proof.
  intros options obj mode item items root shape restType Hm Hk Hn Hs.
  assert (Hf : snd (snd root) = genFunc (fst (snd root))).
  { apply (@createObjectMatchers_nothing UnionRoot sameRoot snd
             (fun root : UnionRoot => snd (snd root) = genFunc (fst (snd root)))
             (unionRoots (compiledOptions options)) item root).
    - apply unionRoots_compiled.
    - rewrite Hm. now left.
    - exact Hn. }
  unfold func. simpl. unfold unionFunc.
  fold (compiledOptions options).
  rewrite Hm, isObject_VObject.
  pose proof (absent_hasProp obj (m_key item) Hk) as Ha. unfold absent in Ha.
  rewrite Ha, Hn. unfold run, invoke.
  destruct root as [i [o f]]. simpl in *. subst o f. reflexivity.
Qed.

(** * The claims *)

(** ** C1: one call reports every failing declared key *)

(** C1, as stated, fails: in strict mode an undeclared key ends the
    validation with the single issue [unrecognized_key], and the failures
    of the declared keys [a] and [b] are not in the tree. *)
Lemma C1_strict_stop_hides_failures :
  ~ reportsEveryFailure twoNumbers None
      [("a", VString "x"); ("b", VString "y"); ("z", num 1)] STRICT.
Proof.
  intros H.
  destruct (H ("a", NumberType)
              (prepend (KString "a") (issue (invalid_type None [n_number]))))
    as [tree [E [J _]]].
  - now left.
  - reflexivity.
  - vm_compute in E. injection E as <-. inversion J.
Qed.

(** Likewise with [a] invalid and the required [b] absent: the closure
    returns at [b] with the single issue [missing_key], and the failure
    of [a] is not in the tree. *)
Lemma missing_key_hides_failures :
  ~ reportsEveryFailure twoNumbers None [("a", VString "x")] PASS.
Proof.
  intros H.
  destruct (H ("a", NumberType)
              (prepend (KString "a") (issue (invalid_type None [n_number]))))
    as [tree [E [J _]]].
  - now left.
  - reflexivity.
  - vm_compute in E. injection E as <-. inversion J.
Qed.

(** C1 (amended): on an input in which every required declared key is
    present and which, in strict mode, has no undeclared key, the result
    of validating an object is an issue tree into which the failure of
    every failing declared key is joined. *)
Theorem C1_object_reports_every_failure : forall shape restType obj mode,
  stopsEarly (entriesOf shape) obj mode = false ->
  reportsEveryFailure shape restType obj mode.
Proof.
  intros shape restType obj mode H kt t Hin Hf.
  pose proof (stopsEarly_firstMissing _ _ _ H) as Hm.
  pose proof (object_result shape restType obj mode H) as R.
  assert (Hmet : In t (failuresMet (entriesOf shape) (restOf restType)
                                   obj mode)).
  { unfold failuresMet. apply in_or_app. right.
    now apply (failureOf_declared shape obj mode kt). }
  destruct (joinAll_Joined _ None _ Hmet) as [tree [E J]].
  rewrite E in R. exists tree. split; [ exact R | split; [ exact J | ] ].
  intros i Hi. destruct (Joined_flat [] J) as [before [after F]].
  unfold collectIssues. fold (flat [] tree). rewrite F.
  apply in_or_app. right. apply in_or_app. now left.
Qed.

Lemma C1_witness :
  reportsEveryFailure twoNumbers None
    [("a", VString "x"); ("b", VString "y")] PASS.
Proof.
  apply (C1_object_reports_every_failure twoNumbers None
           [("a", VString "x"); ("b", VString "y")] PASS).
  reflexivity.
Defined.

(** ** C2: the order of the flattened issues *)

(** C2, as stated, fails: with [a] declared before [b] and both invalid,
    the issue of [a] does not stand before the issue of [b]. *)
Lemma C2_later_key_comes_first :
  ~ flattensInOrderMet twoNumbers None
      [("a", VString "x"); ("b", VString "y")] PASS.
Proof.
  intros H.
  destruct (H ("a", NumberType) ("b", NumberType)
              (prepend (KString "a") (issue (invalid_type None [n_number])))
              (prepend (KString "b") (issue (invalid_type None [n_number])))
              [] [] [])
    as [tree [E P]]; try reflexivity.
  vm_compute in E. injection E as <-.
  destruct (P (invalid_type (Some [KString "a"]) [n_number])
              (invalid_type (Some [KString "b"]) [n_number]))
    as [l1 [l2 [l3 L]]]; try (now left).
  vm_compute in L.
  destruct l1 as [ | i1 l1 ]; [ discriminate | ].
  destruct l1 as [ | i2 l1 ]; simpl in L.
  - injection L as _ L. destruct l2; discriminate.
  - injection L as _ _ L. destruct l1; discriminate.
Qed.

(** C2 (amended): the flattened list holds the failures from the last
    one met back to the first.  For an object validated without an early
    stop the issues of a key declared later stand before those of a key
    declared earlier, and those of the keys validated against the rest
    schema come last; for an array the issues of a later index stand
    before those of an earlier one.  The message of the error is built
    from the first issue of the flattened list. *)
Theorem C2_flattening_is_latest_first : forall JSON_stringify,
  (forall shape restType obj mode,
     stopsEarly (entriesOf shape) obj mode = false ->
     flattensLatestFirst shape restType obj mode
     /\ forall tree,
          fst (func (ObjectType shape restType) (VObject obj) mode)
          = RIssue tree ->
          collectIssues tree
          = flat_map (flat [])
              (rev (failuresMet (entriesOf shape) (restOf restType)
                                obj mode)))
  /\ (forall item arr mode tree,
        fst (func (ArrayType item) (VArray arr) mode) = RIssue tree ->
        collectIssues tree
        = flat_map (flat [])
            (rev (elementFailures (item, genFunc item) mode 0 arr)))
  /\ (forall tree,
        exists first others,
          collectIssues tree = first :: others
          /\ message JSON_stringify (mkValitaError tree)
             = Some (formatIssue JSON_stringify first)).
Proof.
  intros JSON_stringify. split; [ | split ].
  - intros shape restType obj mode H. split.
    + now apply object_latest_first.
    + intros tree E. now apply object_flattening.
  - apply array_flattening.
  - apply message_first.
Qed.

Lemma C2_witness :
  flattensLatestFirst twoNumbers None
    [("a", VString "x"); ("b", VString "y")] PASS.
Proof.
  apply (proj1 (C2_flattening_is_latest_first (fun _ => ""))
           twoNumbers None [("a", VString "x"); ("b", VString "y")] PASS).
  reflexivity.
Defined.

(** ** C3: a union input without the discriminant key *)

(** C3 fails on the code.  In [union(untagged, tagged)] the key [type]
    is the discriminant and [untagged] tolerates its absence; [untagged]
    accepts [{x: 1}] on its own, yet the union hands it the sentinel
    [Nothing] in place of the input object and so answers
    [invalid_type], expected [object]. *)
Theorem C3_absent_discriminant_is_handed_Nothing :
  discriminantsOf [untagged; tagged] = [("type", Some 0)]
  /\ fst (func untagged (VObject [("x", num 1)]) PASS) = RTrue
  /\ func (UnionType [untagged; tagged]) (VObject [("x", num 1)]) PASS
     = (RIssue (issue (invalid_type None [n_object])),
        [call untagged VNothing PASS]).
Proof. repeat split. Qed.

(** ** C4: a clone is made only when something changed *)

(** C4: [object({a: number()}).rest(string())], applied in strip mode to
    [{a: 1, b: 2}], answers with a new object that has the keys and the
    values of the input: the strip branch of the first loop copies the
    template, which is the input when there is a rest schema, and leaves
    the loop.  No function answered with a new value, no key was stripped
    or added, and the rest schema was never invoked, although in
    passthrough mode it is invoked on [b] and rejects it.  The property
    C4 states fails on this input, whereas without the key [b] the same
    validation answers [true]. *)
Theorem C4_strip_with_rest_copies_the_input :
  func (ObjectType [("a", NumberType)] (Some StringType))
       (VObject [("a", num 1); ("b", num 2)]) STRIP
  = (ROk (VObject [("a", num 1); ("b", num 2)]),
     [call NumberType (num 1) STRIP])
  /\ someNewValue (entriesOf [("a", NumberType)]) (restOf (Some StringType))
       [("a", num 1); ("b", num 2)] STRIP = false
  /\ func (ObjectType [("a", NumberType)] (Some StringType))
          (VObject [("a", num 1); ("b", num 2)]) PASS
     = (RIssue (prepend (KString "b")
                  (issue (invalid_type None [n_string]))),
        [call StringType (num 2) PASS; call NumberType (num 1) PASS])
  /\ ~ clonesOnlyOnChange [("a", NumberType)] (Some StringType)
         [("a", num 1); ("b", num 2)] STRIP
  /\ func (ObjectType [("a", NumberType)] (Some StringType))
          (VObject [("a", num 1)]) STRIP
     = (RTrue, [call NumberType (num 1) STRIP]).
Proof.
  split; [ reflexivity | ].
  split; [ reflexivity | ].
  split; [ reflexivity | ].
  split; [ | reflexivity ].
  intros H. destruct (H [("a", num 1); ("b", num 2)] eq_refl) as [E | E].
  - discriminate.
  - now apply E.
Qed.

(** ** C5: the trials of a union bucket *)

(** C5, as stated, fails: in [union(literal("a"), string())] both
    alternatives are in the bucket of ["a"], and the one declared second
    is tried first -- it accepts, and the one declared first is never
    tried. *)
Lemma C5_literal_is_tried_after_its_type :
  ~ triesInDeclarationOrder [LiteralType (LString "a"); StringType]
      (VString "a") PASS.
Proof.
  intros H.
  pose (lit := (0, (LiteralType (LString "a"),
                    genFunc (LiteralType (LString "a")))) : UnionRoot).
  pose (str := (1, (StringType, genFunc StringType)) : UnionRoot).
  specialize (H [str; lit] [lit; str] [] lit [str]).
  assert (E : snd (func (UnionType [LiteralType (LString "a"); StringType])
                        (VString "a") PASS)
              = [call (LiteralType (LString "a")) (VString "a") PASS]).
  { apply H; try reflexivity. apply perm_swap. }
  vm_compute in E. discriminate.
Qed.

(** C5 (amended): the matched bucket lists the alternatives that accept
    the base type of the value as such, in declaration order, and after
    them those that accept a literal of that base type; when no
    alternative accepts the base type as such, it lists, in declaration
    order, those that accept the value as a literal.  On a value whose
    type is expected, the alternatives of the bucket are tried in that
    order, the catch-all alternatives after them.  The first one that
    accepts ends the trials with its answer, the remaining ones being
    left untried.  When all reject, the answer is [invalid_literal] if
    none was tried, the issue tree of the alternative if one was tried,
    and one [invalid_union] issue around the joined trees if more than
    one was tried. *)
Theorem C5_union_trials :
  forall (Root : Type) (same : Root -> Root -> bool)
         (funcOf : Root -> Compiled),
  (forall t v, bucket (buildTables same t) v = matched same t v)
  /\ (forall (tb : Tables Root) path rootValue value mode tried others,
        isNothing value = false ->
        unexpectedType tb value = false ->
        candidates tb value = tried ++ others ->
        forallb (rejects funcOf rootValue mode) tried = true ->
        match others with
        | winner :: untried =>
            rejects funcOf rootValue mode winner = false ->
            matcherBody funcOf tb path rootValue value mode
            = (fst (run (funcOf winner) rootValue mode),
               trials funcOf rootValue mode tried
               ++ snd (run (funcOf winner) rootValue mode))
        | [] =>
            matcherBody funcOf tb path rootValue value mode
            = (match joinAll (rejections funcOf rootValue mode tried) None
               with
               | Some tree =>
                   if Nat.ltb 1 (List.length tried)
                   then RIssue (issue (invalid_union None tree))
                   else RIssue tree
               | None => RIssue (issue (invalidLiteral tb path))
               end,
               trials funcOf rootValue mode tried)
        end).
Proof.
  intros Root same funcOf. split; [ apply bucket_matched | ].
  intros tb path rootValue value mode tried others Hv Hg Hc Ht.
  rewrite matcherBody_candidates by assumption. rewrite Hc.
  destruct others as [ | winner untried ].
  - rewrite app_nil_r, tryEach_rejected by exact Ht.
    unfold conclude. simpl.
    destruct (joinAll (rejections funcOf rootValue mode tried) None);
      [ destruct (Nat.ltb 1 (List.length tried)) | ]; reflexivity.
  - intros Hw. now rewrite tryEach_winner.
Qed.

Lemma C5_witness :
  matcherBody snd (baseTables ambiguous) None
    (VObject [("k", VString "s")]) (VObject [("k", VString "s")]) PASS
  = (RTrue,
     [call (object [("k", NumberType)]) (VObject [("k", VString "s")]) PASS;
      call NumberType (VString "s") PASS;
      call (object [("k", StringType)]) (VObject [("k", VString "s")]) PASS;
      call StringType (VString "s") PASS]).
Proof.
  exact (proj2 (C5_union_trials sameRoot snd) (baseTables ambiguous) None
           (VObject [("k", VString "s")]) (VObject [("k", VString "s")]) PASS
           [(0, (object [("k", NumberType)],
                 genFunc (object [("k", NumberType)])))]
           [(1, (object [("k", StringType)],
                 genFunc (object [("k", StringType)])));
            (2, (object [("k", StringType); ("j", StringType)],
                 genFunc (object [("k", StringType); ("j", StringType)])))]
           eq_refl eq_refl eq_refl eq_refl eq_refl).
Defined.

(** ** C6: parsing twice *)

(** C6 is settled in the last part, after the lemmas on the closures of
    objects and arrays that it relies on. *)

(** ** C7: the path of a nested issue *)

(** C7: [object({a: array(object({b: number()}))})] on [{a: [{b: "x"}]}]
    throws, and the flattened list holds an issue at ["a", 0, "b"]. *)
Theorem C7_nested_path :
  exists e i,
    parse nested nestedInput None = inr e
    /\ In i (issues e)
    /\ issuePath i = Some [KString "a"; KNumber 0; KString "b"].
Proof.
  eexists. eexists. split; [ reflexivity | ].
  vm_compute. split; [ left; reflexivity | reflexivity ].
Qed.

(** ** C8: strip mode binds an absent optional key to the sentinel *)

(** C8, as stated, fails: the conditions it names do not make the parse
    succeed, since another declared key may be invalid. *)
Lemma C8_another_key_may_fail :
  In ("b", OptionalType StringType)
     [("a", NumberType); ("b", OptionalType StringType)]
  /\ hasProp [("a", VString "x"); ("z", num 1)] "b" = false
  /\ undeclared
       (entriesOf [("a", NumberType); ("b", OptionalType StringType)])
       [("a", VString "x"); ("z", num 1)] <> []
  /\ ~ stripBindsNothing
         [("a", NumberType); ("b", OptionalType StringType)]
         [("a", VString "x"); ("z", num 1)] "b".
Proof.
  repeat split.
  - right. now left.
  - discriminate.
  - intros [out [E _]]. vm_compute in E. discriminate.
Qed.

(** Nor do they make the key bound to the sentinel: the function of an
    optional key may answer the sentinel with a new value, as a transform
    that supplies a default does, and the key is then bound to it. *)
Lemma strip_binds_the_default_of_a_transform :
  isOptional (apply (optional StringType) (fun _ => VString "d")) = true
  /\ hasProp [("z", num 1)] "b" = false
  /\ parse (ObjectType
              [("b", apply (optional StringType) (fun _ => VString "d"))]
              None)
           (VObject [("z", num 1)]) (Some (Some strip))
     = inl (VObject [("b", VString "d")])
  /\ ~ stripBindsNothing
         [("b", apply (optional StringType) (fun _ => VString "d"))]
         [("z", num 1)] "b".
Proof.
  repeat split.
  intros [out [E G]]. vm_compute in E. injection E as <-.
  vm_compute in G. discriminate.
Qed.

(** C8 (amended): in strip mode, without a rest schema, when the input
    has an undeclared key, a declared key whose schema counts as optional
    (by [optional()], through a union, or in any other way) is neither an
    own nor an inherited property of the input, no declared key fails,
    and the function of that key answers the sentinel without a new
    value, the parse succeeds and the object returned binds that key to
    the sentinel [Nothing]. *)
Theorem C8_strip_binds_absent_optional_to_Nothing :
  forall shape obj key type,
  NoDup (map fst shape) ->
  In (key, type) shape ->
  isOptional type = true ->
  hasProp obj key = false ->
  undeclared (entriesOf shape) obj <> [] ->
  (forall kt, In kt shape -> failureOf obj STRIP kt = None) ->
  isNew (fst (func type VNothing STRIP)) = false ->
  stripBindsNothing shape obj key.
Proof.
  intros shape obj key type Hn Hin Hopt Hk Hu Hok Hnew.
  pose proof (no_failure_firstMissing shape obj STRIP Hok) as Hm.
  pose proof (no_failure_declared shape obj STRIP Hok) as Hf.
  pose (e := mkEntry key (type, genFunc type) (negb (isOptional type))).
  assert (He : In e (entriesOf shape)).
  { unfold entriesOf. apply in_map_iff.
    exists (key, type). now split. }
  assert (Hr : fst (outcome obj STRIP e) = RTrue).
  { pose proof (Hok _ Hin) as Hno. unfold failureOf in Hno.
    simpl fst in Hno. simpl snd in Hno.
    rewrite Hopt, andb_false_r in Hno.
    unfold outcome. simpl e_key. simpl e_func. rewrite fst_run.
    unfold handed in *. rewrite (absent_hasProp obj key Hk) in *.
    unfold func in *. simpl snd.
    destruct (fst (genFunc type VNothing STRIP));
      [ reflexivity | discriminate | discriminate ]. }
  assert (Hn' : NoDup (map e_key (entriesOf shape))).
  { unfold entriesOf. rewrite map_map. simpl. exact Hn. }
  pose (start := mkLocals (Some (template (entriesOf shape) None obj STRIP))
                          None []).
  destruct (@declaredKeys_all (entriesOf shape) None obj STRIP
              (entriesOf shape) start Hm) as [st2 [E2 [P2 _]]].
  destruct (@declaredKeys_strip_binds (entriesOf shape) None obj STRIP
              (entriesOf shape) start _ e eq_refl eq_refl Hm Hn' He Hr)
    as [st' [o' [E' [Ho' Hg]]]].
  rewrite E2 in E'. injection E' as <-.
  rewrite Hf in P2. simpl in P2.
  unfold e in Hg. simpl e_key in Hg. unfold handed in Hg.
  rewrite (absent_hasProp obj key Hk) in Hg.
  exists o'. split; [ | exact Hg ].
  unfold parse. simpl modeOf. rewrite func_object. unfold objectBody.
  simpl. rewrite extraKeys_strip by reflexivity.
  fold (undeclared (entriesOf shape) obj).
  destruct (undeclared (entriesOf shape) obj) as [ | k ks ];
    [ contradiction | ].
  simpl. fold start. rewrite E2. unfold finish. now rewrite P2, Ho'.
Qed.

(** A key that is optional through a union. *)
Lemma C8_witness :
  stripBindsNothing
    [("a", NumberType); ("b", UnionType [StringType; optional NumberType])]
    [("a", num 1); ("z", num 1)] "b".
Proof.
  apply (@C8_strip_binds_absent_optional_to_Nothing
           [("a", NumberType);
            ("b", UnionType [StringType; optional NumberType])]
           [("a", num 1); ("z", num 1)] "b"
           (UnionType [StringType; optional NumberType])).
  - repeat constructor; simpl; intuition discriminate.
  - right. now left.
  - reflexivity.
  - reflexivity.
  - discriminate.
  - intros kt [<- | [<- | []]]; reflexivity.
  - reflexivity.
Defined.

(** ** C9: strict mode and the rest schema *)

(** C9: in strict mode an object schema with a rest schema answers an
    input that has an undeclared key with [unrecognized_key] for the
    first such key, and it does so without invoking any validation
    function -- the rest schema's one included. *)
Theorem C9_strict_precedes_rest : forall shape restType obj key keys,
  undeclared (entriesOf shape) obj = key :: keys ->
  func (ObjectType shape (Some restType)) (VObject obj) STRICT
  = (RIssue (issue (unrecognized_key None (KString key))), [])
  /\ parse (ObjectType shape (Some restType)) (VObject obj)
           (Some (Some strict))
     = inr (mkValitaError (issue (unrecognized_key None (KString key))))
  /\ forall v mode,
       ~ In (call restType v mode)
            (snd (func (ObjectType shape (Some restType)) (VObject obj)
                       STRICT)).
Proof.
  intros shape restType obj key keys H.
  assert (E : func (ObjectType shape (Some restType)) (VObject obj) STRICT
              = (RIssue (issue (unrecognized_key None (KString key))), [])).
  { rewrite func_object.
    now apply objectBody_unrecognized with (keys := keys). }
  split; [ exact E | split ].
  - unfold parse. simpl modeOf. now rewrite E.
  - intros v mode. rewrite E. simpl. tauto.
Qed.

Lemma C9_witness :
  func (ObjectType [("a", NumberType)] (Some NumberType))
       (VObject [("a", num 1); ("z", VString "q"); ("y", VNull)]) STRICT
  = (RIssue (issue (unrecognized_key None (KString "z"))), []).
Proof.
  apply (C9_strict_precedes_rest [("a", NumberType)] NumberType
           [("a", num 1); ("z", VString "q"); ("y", VNull)]
           (key := "z") (keys := ["y"])).
  reflexivity.
Defined.

(** ** C10: literal matching *)

(** The comparison of numbers is true of a number that is not [NaN] and
    itself, and of two zeros, and of nothing else. *)
Lemma SFeqb_spec : forall a b,
  SFeqb a b = true
  <-> (a = b /\ a <> S754_nan)
      \/ (exists s s', a = S754_zero s /\ b = S754_zero s').
Proof.
  assert (No : forall a b : spec_float,
            (a = b -> False) ->
            (forall s s', a = S754_zero s -> b = S754_zero s' -> False) ->
            false = true
            <-> (a = b /\ a <> S754_nan)
                \/ (exists s s', a = S754_zero s /\ b = S754_zero s')).
  { intros a b H1 H2. split; [ discriminate | ].
    intros [[E _] | [s [s' [E1 E2]]]]; [ elim (H1 E) | elim (H2 s s' E1 E2) ]. }
  assert (Yes : forall a : spec_float,
            a <> S754_nan ->
            true = true
            <-> (a = a /\ a <> S754_nan)
                \/ (exists s s', a = S754_zero s /\ a = S754_zero s')).
  { intros a H. split; [ intros _; left; now split | reflexivity ]. }
  intros a b. unfold SFeqb.
  destruct a as [ s | s | | s m e ], b as [ s' | s' | | s' m' e' ]; simpl;
    try (destruct s; apply No; discriminate);
    try (destruct s'; apply No; discriminate);
    try (apply No; discriminate).
  - split; [ intros _; right; eauto | reflexivity ].
  - destruct s, s'; try (apply No; discriminate); apply Yes; discriminate.
  - split; [ discriminate | ].
    intros [[_ E] | [x [y [E1 E2]]]]; [ now elim E | discriminate ].
  - destruct s, s'; try (apply No; discriminate);
      (destruct (Z.compare e e') eqn:Ee;
       [ apply Z.compare_eq_iff in Ee; subst e'
       | apply No; [ intros E; injection E as _ E; subst e';
                     now rewrite Z.compare_refl in Ee | discriminate ]
       | apply No; [ intros E; injection E as _ E; subst e';
                     now rewrite Z.compare_refl in Ee | discriminate ] ]);
      fold (Pos.compare m m');
      (destruct (Pos.compare m m') eqn:Em; simpl;
       [ apply Pos.compare_eq_iff in Em; subst m'; apply Yes; discriminate
       | apply No; [ intros E; injection E as E; subst m';
                     now rewrite Pos.compare_refl in Em | discriminate ]
       | apply No; [ intros E; injection E as E; subst m';
                     now rewrite Pos.compare_refl in Em | discriminate ] ]).
Qed.

(** The comparison the closure computes is the identity [===]. *)
Lemma strictEqLiteral_spec : forall w l,
  strictEqLiteral w l = true <-> strictlyEqual w l.
Proof.
  intros w l. split.
  - destruct w as [ | | b | n | z | s | | items | props | ],
             l as [ s' | n' | z' | b' ]; simpl; try discriminate.
    + intros E. apply Bool.eqb_prop in E. subst b'. constructor.
    + intros E. apply SFeqb_spec in E.
      destruct E as [[<- Hn] | [x [y [-> ->]]]]; now constructor.
    + intros E. apply Z.eqb_eq in E. subst z'. constructor.
    + intros E. apply String.eqb_eq in E. subst s'. constructor.
  - intros H. destruct H as [ s | z | b | n Hn | s s' ]; simpl.
    + apply String.eqb_refl.
    + apply Z.eqb_refl.
    + now destruct b.
    + apply SFeqb_spec. left. now split.
    + reflexivity.
Qed.

(** C10: [literal(v)] accepts [w] exactly when [w === v], where [===] is
    the identity of the language (same type and same value; on numbers
    [NaN] is identical to nothing and the two zeros are identical), and
    then answers [true], so that [parse] returns the input itself; any
    other input is rejected with [invalid_literal].  So [literal(NaN)]
    rejects every input, [NaN] included, and [literal(0)] accepts [-0]. *)
Theorem C10_literal_strict_identity :
  (forall v w mode,
     (strictlyEqual w v <-> func (LiteralType v) w mode = (RTrue, []))
     /\ (~ strictlyEqual w v
         <-> func (LiteralType v) w mode
             = (RIssue (issue (invalid_literal None [v])), [])))
  /\ (forall v w options,
        (strictlyEqual w v <-> parse (LiteralType v) w options = inl w)
        /\ (~ strictlyEqual w v
            <-> parse (LiteralType v) w options
                = inr (mkValitaError (issue (invalid_literal None [v])))))
  /\ (forall w options,
        parse (LiteralType (LNumber S754_nan)) w options
        = inr (mkValitaError
                 (issue (invalid_literal None [LNumber S754_nan]))))
  /\ (forall options,
        parse (LiteralType (LNumber (S754_zero false)))
              (VNumber (S754_zero true)) options
        = inl (VNumber (S754_zero true))).
Proof.
  split; [ | split; [ | split ] ].
  - intros v w mode. unfold func. simpl. unfold check.
    pose proof (strictEqLiteral_spec w v) as S.
    destruct (strictEqLiteral w v).
    + split; split.
      * reflexivity.
      * intros _. now apply S.
      * intros H. elim H. now apply S.
      * discriminate.
    + split; split.
      * intros H. apply S in H. discriminate.
      * discriminate.
      * reflexivity.
      * intros _ H. apply S in H. discriminate.
  - intros v w options. unfold parse, func. simpl. unfold check.
    pose proof (strictEqLiteral_spec w v) as S.
    destruct (strictEqLiteral w v).
    + split; split.
      * reflexivity.
      * intros _. now apply S.
      * intros H. elim H. now apply S.
      * discriminate.
    + split; split.
      * intros H. apply S in H. discriminate.
      * discriminate.
      * reflexivity.
      * intros _ H. apply S in H. discriminate.
  - intros w options. unfold parse, func. simpl. unfold check.
    now rewrite strictEqLiteral_NaN.
  - reflexivity.
Qed.

(** [literal(1)] accepts [1] and rejects [2]. *)
Lemma C10_witness :
  parse (LiteralType (LNumber (S754_finite false 1 0))) (num 1) None
  = inl (num 1)
  /\ parse (LiteralType (LNumber (S754_finite false 1 0))) (num 2) None
     = inr (mkValitaError
              (issue (invalid_literal None
                        [LNumber (S754_finite false 1 0)]))).
Proof.
  split.
  - apply (proj1 (proj1 (proj2 C10_literal_strict_identity)
                    (LNumber (S754_finite false 1 0)) (num 1) None)).
    apply same_number. discriminate.
  - apply (proj1 (proj2 (proj1 (proj2 C10_literal_strict_identity)
                    (LNumber (S754_finite false 1 0)) (num 2) None))).
    intros H. inversion H.
Defined.

(** * Further properties *)

(** ** Flattening *)

Lemma issuePath_withPath : forall i p, issuePath (withPath i p) = Some p.
Proof. intros i p. destruct i; reflexivity. Qed.

(** X1: every issue of a flattened list carries a path, and that path
    begins with the path stack under which its leaf was met; so every
    issue met under [prepend key] has a path that begins with [key]. *)
Theorem X1_flattened_paths_extend_the_stack :
  (forall tree path,
     Forall (fun i => exists suffix, issuePath i = Some (path ++ suffix))
            (flat path tree))
  /\ (forall key tree,
        Forall (fun i => exists suffix, issuePath i = Some (key :: suffix))
               (collectIssues (prepend key tree))).
Proof.
  assert (H : forall tree path,
    Forall (fun i => exists suffix, issuePath i = Some (path ++ suffix))
           (flat path tree)).
  { induction tree as [ key tree IH | l IHl r IHr | i ]; intros path.
    - rewrite flat_prepend. specialize (IH (path ++ [key])).
      rewrite Forall_forall in *. intros i Hi.
      destruct (IH i Hi) as [suffix E]. exists (key :: suffix).
      now rewrite E, <- app_assoc.
    - rewrite flat_join. apply Forall_app. split; [ apply IHl | apply IHr ].
    - unfold flat. simpl. constructor; [ | constructor ].
      exists (ownPath i ++ customPath i). apply issuePath_withPath. }
  split; [ exact H | ].
  intros key tree. unfold collectIssues. fold (flat [] (prepend key tree)).
  rewrite flat_prepend. exact (H tree ([] ++ [key])).
Qed.

(** ** Terminals *)

Lemma toTerminalsInto_options : forall options into,
  Forall (fun o => forall into,
            toTerminalsInto o into = into ++ toTerminals o) options ->
  toTerminalsInto (UnionType options) into
  = into ++ flat_map toTerminals options.
Proof.
  intros options into H. revert into. simpl.
  induction H as [ | o options Ho _ IH ]; intros into.
  - now rewrite app_nil_r.
  - simpl flat_map. rewrite IH, Ho. now rewrite app_assoc.
Qed.

Lemma toTerminalsInto_app : forall t into,
  toTerminalsInto t into = into ++ toTerminals t.
Proof.
  induction t
    as [ | | | | | | | | value | shape restType IHs IHr | item IH
       | options IHo | type IH | transformed f IH ] using Schema_induction;
    intros into; try reflexivity.
  - rewrite toTerminalsInto_options by exact IHo.
    unfold toTerminals. now rewrite toTerminalsInto_options by exact IHo.
  - unfold toTerminals.
    change (toTerminalsInto (OptionalType type) into)
      with (toTerminalsInto type ((into ++ [NothingType]) ++ [UndefinedType])).
    change (toTerminalsInto (OptionalType type) [])
      with (toTerminalsInto type [NothingType; UndefinedType]).
    rewrite IH, (IH [NothingType; UndefinedType]).
    rewrite <- !app_assoc. reflexivity.
  - unfold toTerminals.
    change (toTerminalsInto (TransformType transformed f) into)
      with (toTerminalsInto transformed into).
    apply IH.
Qed.

Lemma toTerminals_union : forall options,
  toTerminals (UnionType options) = flat_map toTerminals options.
Proof.
  intros options. unfold toTerminals at 1.
  rewrite toTerminalsInto_options; [ reflexivity | ].
  rewrite Forall_forall. intros o _ into. apply toTerminalsInto_app.
Qed.

Lemma toTerminals_optional : forall type,
  toTerminals (OptionalType type)
  = NothingType :: UndefinedType :: toTerminals type.
Proof.
  intros type. unfold toTerminals at 1.
  change (toTerminalsInto (OptionalType type) [])
    with (toTerminalsInto type [NothingType; UndefinedType]).
  now rewrite toTerminalsInto_app.
Qed.

(** X2: [toTerminals] appends to [into] and leaves what is there; the
    terminals of a union are those of its options in order, those of
    [optional()] are [nothing], [undefined] and those of the wrapped
    schema, a transform has those of the transformed schema, and every
    terminal is a leaf class -- never a union, optional or transform. *)
Theorem X2_terminals_are_leaves :
  (forall t into, toTerminalsInto t into = into ++ toTerminals t)
  /\ (forall options,
        toTerminals (UnionType options) = flat_map toTerminals options)
  /\ (forall type,
        toTerminals (OptionalType type)
        = NothingType :: UndefinedType :: toTerminals type)
  /\ (forall transformed f,
        toTerminals (TransformType transformed f) = toTerminals transformed)
  /\ (forall t, forallb isTerminal (toTerminals t) = true).
Proof.
  split; [ exact toTerminalsInto_app | ].
  split; [ exact toTerminals_union | ].
  split; [ exact toTerminals_optional | ].
  split; [ reflexivity | ].
  induction t
    as [ | | | | | | | | value | shape restType IHs IHr | item IH
       | options IHo | type IH | transformed f IH ] using Schema_induction;
    try reflexivity.
  - rewrite toTerminals_union.
    induction IHo as [ | o options Ho _ IH ]; [ reflexivity | ].
    simpl. rewrite forallb_app, Ho. exact IH.
  - rewrite toTerminals_optional. simpl. exact IH.
  - exact IH.
Qed.

(** ** The object closure: early return, trace and output *)

(** X3: when a required key is absent, being neither an own property
    of the input nor one it inherits (and strict mode meets no undeclared
    key first), [parse] throws an error whose issue list is the single
    [missing_key] of the first such key in declaration order, with the
    empty path, whatever else is wrong with the input. *)
Theorem X3_missing_key_is_the_only_issue :
  forall shape restType obj options key,
    isStrict (modeOf options) = false
    \/ undeclared (entriesOf shape) obj = [] ->
    firstMissing (entriesOf shape) obj = Some key ->
    exists e,
      parse (ObjectType shape restType) (VObject obj) options = inr e
      /\ issues e = [missing_key (Some []) (KString key)].
Proof.
  intros shape restType obj options key Hs Hm. unfold parse.
  rewrite func_object.
  destruct (@objectBody_missing (entriesOf shape) (restOf restType) obj
              (modeOf options) key Hs Hm) as [cs ->].
  simpl. eexists. split; reflexivity.
Qed.

Lemma X3_witness :
  exists e,
    parse (object twoNumbers) (VObject [("b", VString "x")]) None = inr e
    /\ issues e = [missing_key (Some []) (KString "a")].
Proof.
  apply (@X3_missing_key_is_the_only_issue
           twoNumbers None [("b", VString "x")] None "a");
    [ left | ]; reflexivity.
Defined.

(** A key the input inherits from its prototype is not absent: the
    inherited value is handed to the function of the key, which may
    reject it, and strip mode copies it into the clone. *)
Lemma inherited_key_is_validated :
  firstMissing (entriesOf [("toString", NumberType)]) [] = None
  /\ parse (ObjectType [("toString", NumberType)] None) (VObject []) None
     = inr (mkValitaError
              (prepend (KString "toString")
                 (issue (invalid_type None [n_number]))))
  /\ parse (ObjectType [("toString", optional UnknownType)] None)
           (VObject [("z", num 1)]) (Some (Some strip))
     = inl (VObject [("toString", VFunction)]).
Proof. repeat split. Qed.

(** The closure when it does not stop early: its invocations. *)
Lemma objectBody_trace : forall entries rest obj mode,
  stopsEarly entries obj mode = false ->
  snd (objectBody entries rest obj mode) = objectTrace entries rest obj mode.
Proof.
  unfold stopsEarly, objectBody, objectTrace, restKeys.
  intros entries rest obj mode H.
  apply orb_false_iff in H. destruct H as [Hm Hu].
  assert (Hmiss : firstMissing entries obj = None)
    by (destruct (firstMissing entries obj); [ discriminate | reflexivity ]).
  clear Hm.
  assert (Hfin : forall st, snd (finish st) = calls st)
    by (intros st; unfold finish; destruct (pending st);
        [ | destruct (output st) ]; reflexivity).
  pose (start := mkLocals None None []).
  destruct mode; simpl in *.
  - destruct rest as [ c | ]; simpl.
    + destruct (@extraKeys_rest entries (Some c) obj PASS c obj start)
        as [st1 [E1 [_ [_ C1]]]]; try reflexivity.
      fold start. rewrite E1.
      destruct (@declaredKeys_all entries (Some c) obj PASS entries st1 Hmiss)
        as [st2 [E2 [_ [_ C2]]]].
      rewrite E2, Hfin, C2, C1. reflexivity.
    + destruct (@declaredKeys_all entries None obj PASS entries start Hmiss)
        as [st2 [E2 [_ [_ C2]]]].
      fold start. rewrite E2, Hfin, C2. reflexivity.
  - rewrite extraKeys_strict by reflexivity. fold (undeclared entries obj).
    destruct (undeclared entries obj) as [ | k ks ]; [ | discriminate ].
    destruct (@declaredKeys_all entries rest obj STRICT entries start Hmiss)
      as [st2 [E2 [_ [_ C2]]]].
    fold start. rewrite E2, Hfin, C2. now destruct rest.
  - rewrite extraKeys_strip by reflexivity. fold (undeclared entries obj).
    destruct (undeclared entries obj) as [ | k ks ]; simpl.
    + destruct (@declaredKeys_all entries rest obj STRIP entries start Hmiss)
        as [st2 [E2 [_ [_ C2]]]].
      fold start. rewrite E2, Hfin, C2. now destruct rest.
    + match goal with
      | |- context [ declaredKeys _ _ _ _ entries ?s ] =>
          destruct (@declaredKeys_all entries rest obj STRIP entries s Hmiss)
            as [st2 [E2 [_ [_ C2]]]]
      end.
      rewrite E2, Hfin, C2. now destruct rest.
Qed.

(** X4: an object validation that does not stop early invokes the rest
    schema once on every undeclared key (passthrough mode only), then
    the function of every declared key once, in declaration order, each
    on the value it is handed -- also after a key has failed. *)
Theorem X4_object_invokes_every_key :
  forall shape restType obj mode,
    stopsEarly (entriesOf shape) obj mode = false ->
    snd (func (ObjectType shape restType) (VObject obj) mode)
    = objectTrace (entriesOf shape) (restOf restType) obj mode.
Proof.
  intros shape restType obj mode H. rewrite func_object.
  now apply objectBody_trace.
Qed.

Lemma X4_witness :
  snd (func (object twoNumbers)
         (VObject [("a", VString "x"); ("b", VString "y")]) PASS)
  = objectTrace (entriesOf twoNumbers) None
      [("a", VString "x"); ("b", VString "y")] PASS.
Proof.
  apply (@X4_object_invokes_every_key
           twoNumbers None [("a", VString "x"); ("b", VString "y")] PASS).
  reflexivity.
Defined.

(** *** The bindings of the object returned *)




















(** *** Strip mode *)









(** *** Strip mode on an input without undeclared keys *)





(** ** The rest schema outside passthrough mode *)

Lemma extraKeys_ignores_rest : forall entries c1 c2 obj mode todo st,
  isPass mode = false ->
  extraKeys entries (Some c1) obj mode todo st
  = extraKeys entries (Some c2) obj mode todo st.
Proof.
  intros entries c1 c2 obj mode todo st Hm.
  induction todo as [ | [key x] todo IH ]; simpl; [ reflexivity | ].
  destruct (negb (knownKeys entries key)); [ | exact IH ].
  destruct mode; [ discriminate | reflexivity | reflexivity ].
Qed.

Lemma declaredKeys_ignores_rest : forall entries c1 c2 obj mode todo st,
  declaredKeys entries (Some c1) obj mode todo st
  = declaredKeys entries (Some c2) obj mode todo st.
Proof.
  intros entries c1 c2 obj mode todo.
  induction todo as [ | e todo IH ]; intros st; [ reflexivity | ].
  rewrite !declaredKeys_cons.
  destruct (absent obj (e_key e) && e_required e); [ reflexivity | ].
  destruct (fst (outcome obj mode e));
    [ destruct (output st); [ destruct (isStrip mode) | ] | | ];
    apply IH.
Qed.

(** X9: in strict mode and in strip mode the rest schema of an object is
    never consulted: two objects that differ only in their rest schema
    answer alike and make the same invocations on every input. *)
Theorem X9_rest_is_unused_outside_passthrough :
  forall shape r1 r2 v,
    func (ObjectType shape (Some r1)) v STRICT
    = func (ObjectType shape (Some r2)) v STRICT
    /\ func (ObjectType shape (Some r1)) v STRIP
       = func (ObjectType shape (Some r2)) v STRIP.
Proof.
  assert (H : forall shape r1 r2 v mode,
            isPass mode = false ->
            func (ObjectType shape (Some r1)) v mode
            = func (ObjectType shape (Some r2)) v mode).
  { intros shape r1 r2 v mode Hm.
    destruct v; try reflexivity.
    rewrite !func_object. unfold objectBody. simpl restOf. simpl truthy.
    rewrite !orb_true_r.
    rewrite (@extraKeys_ignores_rest _ (r1, genFunc r1) (r2, genFunc r2))
      by exact Hm.
    destruct (extraKeys _ _ _ _ _ _) as [ ret | st ]; [ reflexivity | ].
    now rewrite (@declaredKeys_ignores_rest _ (r1, genFunc r1)
                   (r2, genFunc r2)). }
  intros shape r1 r2 v. split; now apply H.
Qed.

(** ** The array closure *)

Lemma setIndex_app : forall (done : list value) x todo v,
  setIndex (done ++ x :: todo) (List.length done) v = done ++ v :: todo.
Proof.
  induction done as [ | d done IH ]; intros x todo v; simpl.
  - reflexivity.
  - now rewrite IH.
Qed.

(** The loop writes the new value of an element at its index and leaves
    every other element in place. *)
Lemma elements_basis : forall item arr mode todo done st,
  arrayBasis arr st = done ++ todo ->
  arrayBasis arr (elements item arr mode (List.length done) todo st)
  = done ++ map (fun x => replaced (fst (run item x mode)) x) todo.
Proof.
  intros item arr mode todo.
  induction todo as [ | x todo IH ]; intros done st H.
  - simpl. exact H.
  - simpl. destruct (run item x mode) as [r cs]. simpl fst.
    replace (S (List.length done)) with (List.length (done ++ [x]))
      by (rewrite length_app; simpl; apply Nat.add_1_r).
    destruct r as [ | v | t ]; simpl replaced.
    + rewrite IH; [ now rewrite <- app_assoc | ].
      unfold arrayBasis in *. simpl. rewrite H. now rewrite <- app_assoc.
    + replace (done ++ v :: map _ todo)
        with ((done ++ [v]) ++ map (fun x => replaced (fst (run item x mode)) x)
                                   todo)
        by now rewrite <- app_assoc.
      replace (List.length (done ++ [x])) with (List.length (done ++ [v]))
        by now rewrite !length_app.
      apply IH. unfold arrayBasis in *. simpl.
      rewrite H, setIndex_app. now rewrite <- app_assoc.
    + rewrite IH; [ now rewrite <- app_assoc | ].
      unfold arrayBasis in *. simpl. rewrite H. now rewrite <- app_assoc.
Qed.

Lemma elements_failed : forall item arr mode todo i st,
  truthy (a_pending (elements item arr mode i todo st))
  = truthy (a_pending st)
    || existsb (fun x => isIssue (fst (run item x mode))) todo.
Proof.
  intros item arr mode todo.
  induction todo as [ | x todo IH ]; intros i st; simpl.
  - now rewrite orb_false_r.
  - destruct (run item x mode) as [r cs]. simpl fst.
    destruct r as [ | v | t ]; rewrite IH; simpl; try reflexivity.
    now rewrite orb_true_r.
Qed.

Lemma elements_calls : forall item arr mode todo i st,
  a_calls (elements item arr mode i todo st)
  = a_calls st ++ flat_map (fun x => snd (run item x mode)) todo.
Proof.
  intros item arr mode todo.
  induction todo as [ | x todo IH ]; intros i st; simpl.
  - now rewrite app_nil_r.
  - destruct (run item x mode) as [r cs]. simpl snd.
    destruct r; rewrite IH; simpl; now rewrite <- app_assoc.
Qed.

Lemma existsb_false_In : forall (A : Type) (f : A -> bool) l a,
  existsb f l = false -> In a l -> f a = false.
Proof.
  intros A f l a H Hin. destruct (f a) eqn:E; [ | reflexivity ].
  rewrite <- H. symmetry. apply existsb_exists. now exists a.
Qed.

(** X10: an array validation fails exactly when some element fails,
    answers [true] exactly when every element answers [true], and
    otherwise returns an array of the same length in which each element
    that got a new value is replaced by it and every other element is
    the input's. *)
Theorem X10_array_is_validated_elementwise :
  forall item arr mode,
    (isIssue (fst (func (ArrayType item) (VArray arr) mode)) = true
     <-> Exists (fun x => isIssue (fst (func item x mode)) = true) arr)
    /\ (fst (func (ArrayType item) (VArray arr) mode) = RTrue
        <-> Forall (fun x => fst (func item x mode) = RTrue) arr)
    /\ (forall out,
          fst (func (ArrayType item) (VArray arr) mode) = ROk out ->
          out = VArray
                  (map (fun x => replaced (fst (func item x mode)) x) arr)).
Proof.
  intros item arr mode. unfold func at 1 3 5. simpl. unfold arrayBody.
  set (c := (item, genFunc item)).
  set (start := mkArrLocals None None []).
  pose proof (elements_failed c arr mode arr 0 start) as F.
  pose proof (elements_output c arr mode arr 0 start) as O.
  pose proof (@elements_basis c arr mode arr [] start eq_refl) as B.
  simpl in F, B.
  assert (R : forall x, fst (run c x mode) = fst (func item x mode))
    by (intros x; now rewrite fst_run).
  assert (Hex : existsb (fun x => isIssue (fst (run c x mode))) arr = true
                <-> Exists (fun x => isIssue (fst (func item x mode)) = true)
                           arr).
  { rewrite existsb_exists, Exists_exists.
    split; intros [x [H1 H2]]; exists x; rewrite R in *; auto. }
  assert (Hall : existsb (fun x => isIssue (fst (run c x mode))) arr = false
                 /\ existsb (fun x => isNew (fst (run c x mode))) arr = false
                 <-> Forall (fun x => fst (func item x mode) = RTrue) arr).
  { rewrite Forall_forall. split.
    - intros [H1 H2] x Hin.
      pose proof (existsb_false_In _ _ x H1 Hin) as N1.
      pose proof (existsb_false_In _ _ x H2 Hin) as N2.
      simpl in N1, N2. rewrite R in N1, N2.
      now destruct (fst (func item x mode)).
    - intros H. split; apply existsb_none; intros x Hin;
        now rewrite R, (H x Hin). }
  destruct (a_pending (elements c arr mode 0 arr start)) as [ t | ].
  - simpl in *. split; [ | split ].
    + rewrite <- Hex. now split.
    + rewrite <- Hall. split; [ discriminate | ].
      intros [X _]. rewrite X in F. discriminate.
    + discriminate.
  - simpl in F.
    destruct (a_output (elements c arr mode 0 arr start)) as [ o | ] eqn:Eo;
      simpl.
    + split; [ | split ].
      * rewrite <- Hex, <- F. split; discriminate.
      * rewrite <- Hall. split; [ discriminate | ].
        intros [_ X].
        assert (Y : Some o = None) by (apply O; now split).
        discriminate.
      * intros out X. injection X as <-. f_equal.
        unfold arrayBasis in B. rewrite Eo in B. rewrite B.
        apply map_ext. intros x. now rewrite R.
    + split; [ | split ].
      * rewrite <- Hex, <- F. split; discriminate.
      * rewrite <- Hall. split; [ | reflexivity ].
        intros _. split; [ now rewrite <- F | ].
        now apply O.
      * discriminate.
Qed.

(** X11: an array validation invokes the function of its item once on
    every element, in index order -- also after an element has
    failed. *)
Theorem X11_array_invokes_every_element :
  forall item arr mode,
    snd (func (ArrayType item) (VArray arr) mode)
    = flat_map (fun x => call item x mode :: snd (func item x mode)) arr.
Proof.
  intros item arr mode. unfold func at 1. simpl. unfold arrayBody.
  set (c := (item, genFunc item)).
  set (st := elements c arr mode 0 arr (mkArrLocals None None [])).
  assert (E : a_calls st
              = flat_map (fun x => snd (run c x mode)) arr)
    by (unfold st; now rewrite elements_calls).
  assert (R : forall x, snd (run c x mode)
                        = call item x mode :: snd (func item x mode)).
  { intros x. unfold run, invoke, c, func. simpl.
    now destruct (genFunc item x mode). }
  transitivity (a_calls st).
  - destruct (a_pending st); [ | destruct (a_output st) ]; reflexivity.
  - rewrite E. clear E. induction arr as [ | x arr IH ]; simpl.
    + reflexivity.
    + now rewrite R, IH.
Qed.

(** ** Transforms *)

(** X12: transforms compose.  Two [apply] in a row answer as one [apply]
    of the composed function, and two [chain] in a row as one [chain] of
    the function that hands what the first returns to the second and
    stops at the first error. *)
Theorem X12_transforms_compose :
  (forall t f g v mode,
     fst (func (apply (apply t f) g) v mode)
     = fst (func (apply t (fun x => g (f x))) v mode))
  /\ (forall t f g v mode,
        fst (func (chain (chain t f) g) v mode)
        = fst (func (chain t (fun x => match f x with
                                       | inl y => g y
                                       | inr error => inr error
                                       end)) v mode)).
Proof.
  split; intros t f g v mode; unfold apply, chain, func; simpl;
    unfold transformFuncOf, run, invoke; simpl;
    destruct (genFunc t v mode) as [r cs]; destruct r; simpl;
    try reflexivity;
    match goal with
    | |- context [ f ?x ] => destruct (f x)
    end; reflexivity.
Qed.

(** X13: [assert] checks the value its schema returned, but answers
    [true] when the check holds: the new value of the schema is dropped
    and [parse] returns the input itself. *)
Theorem X13_assert_drops_the_new_value :
  forall t f error v options x,
    fst (func t v (modeOf options)) = ROk x ->
    f x = true ->
    parse t v options = inl x
    /\ parse (assert t f error) v options = inl v.
Proof.
  intros t f error v options x H Hf. unfold parse. rewrite H.
  split; [ reflexivity | ].
  unfold assert, func in *. simpl.
  unfold transformFuncOf, run, invoke. simpl.
  destruct (genFunc t v (modeOf options)) as [r cs]. simpl in H. subst r.
  simpl. now rewrite Hf.
Qed.

Lemma X13_witness :
  parse lengthy (VString "a") None = inl (num 1)
  /\ parse (assert lengthy (fun _ => true) CEUndefined) (VString "a") None
     = inl (VString "a").
Proof.
  apply (@X13_assert_drops_the_new_value lengthy (fun _ => true) CEUndefined
           (VString "a") None (num 1)); reflexivity.
Defined.

(** X14: when the check of an [assert] fails on the value its schema
    accepted, [parse] throws an error with the single issue
    [custom_error], whose path is the path of the error object; its
    message shows a string error as it is, but the [message] of an error
    object only when that message is the word "string". *)
Theorem X14_assert_error_surface :
  forall (JSON_stringify : Literal -> string) t f error v options,
    isIssue (fst (func t v (modeOf options))) = false ->
    f (replaced (fst (func t v (modeOf options))) v) = false ->
    exists e,
      parse (assert t f error) v options = inr e
      /\ issues e = [custom_error (Some (errorPath error)) error]
      /\ message JSON_stringify e
         = Some ("custom_error at ."
                 ++ String.concat "." (map keyString (errorPath error))
                 ++ " (" ++ errorText error ++ ")")%string.
Proof.
  intros JSON t f error v options Hr Hf.
  assert (E : fst (func (assert t f error) v (modeOf options))
              = RIssue (issue (custom_error None error))).
  { unfold assert, func in *. simpl.
    unfold transformFuncOf, run, invoke. simpl.
    destruct (genFunc t v (modeOf options)) as [r cs]. simpl in *.
    destruct r; try discriminate; simpl in Hf; simpl; now rewrite Hf. }
  unfold parse. rewrite E. eexists. split; [ reflexivity | ].
  unfold message, issues, collectIssues. simpl.
  destruct error as [ | s | [ m | ] [ p | ] ]; simpl;
    (split; [ reflexivity | ]); try reflexivity;
    unfold formatIssue; simpl;
    destruct (String.eqb m "string") eqn:Em;
    try (apply String.eqb_eq in Em; subst m; reflexivity);
    repeat f_equal;
    destruct m as [ | [[|] [|] [|] [|] [|] [|] [|] [|]] m ]; try reflexivity;
    repeat (destruct m as [ | [[|] [|] [|] [|] [|] [|] [|] [|]] m ];
            try reflexivity; try discriminate).
Qed.

Lemma X14_witness :
  exists e,
    parse (assert StringType (fun _ => false)
             (CEObject (Some "too short") (Some [KString "name"])))
          (VString "a") None = inr e
    /\ issues e
       = [custom_error
            (Some (errorPath (CEObject (Some "too short")
                                (Some [KString "name"]))))
            (CEObject (Some "too short") (Some [KString "name"]))]
    /\ message (fun _ => EmptyString) e
       = Some ("custom_error at ."
               ++ String.concat "."
                    (map keyString
                       (errorPath (CEObject (Some "too short")
                                     (Some [KString "name"]))))
               ++ " ("
               ++ errorText (CEObject (Some "too short")
                               (Some [KString "name"]))
               ++ ")")%string.
Proof.
  apply (@X14_assert_error_surface (fun _ => EmptyString) StringType
           (fun _ => false)
           (CEObject (Some "too short") (Some [KString "name"]))
           (VString "a") None); reflexivity.
Defined.

(** ** [dedup] *)

Section Dedup.

Variable T : Type.
Variable same : T -> T -> bool.

Lemma dedupFrom_sound : forall arr seen y,
  In y (dedupFrom same seen arr) ->
  In y arr /\ includes same seen y = false.
Proof.
  induction arr as [ | a arr IH ]; intros seen y H; simpl in H.
  - contradiction.
  - destruct (includes same seen a) eqn:E.
    + destruct (IH seen y H) as [H1 H2]. split; [ now right | exact H2 ].
    + destruct H as [<- | H]; [ split; [ now left | exact E ] | ].
      destruct (IH _ y H) as [H1 H2]. split; [ now right | ].
      unfold includes in *. rewrite existsb_app in H2.
      now apply orb_false_iff in H2.
Qed.

Lemma dedupFrom_complete : forall arr seen x,
  (forall x, same x x = true) ->
  In x arr ->
  includes same seen x = true
  \/ exists y, In y (dedupFrom same seen arr) /\ same x y = true.
Proof.
  intros arr seen x Hrefl. revert seen.
  induction arr as [ | a arr IH ]; intros seen H; simpl.
  - contradiction.
  - destruct (includes same seen a) eqn:E.
    + destruct H as [<- | H]; [ now left | ]. now apply IH.
    + destruct H as [<- | H].
      * right. exists a. split; [ now left | apply Hrefl ].
      * destruct (IH (seen ++ [a]) H) as [X | [y [Y1 Y2]]].
        -- unfold includes in *. rewrite existsb_app in X.
           apply orb_true_iff in X. destruct X as [X | X]; [ now left | ].
           simpl in X. rewrite orb_false_r in X.
           right. exists a. split; [ now left | exact X ].
        -- right. exists y. split; [ now right | exact Y2 ].
Qed.

Lemma dedupFrom_distinct : forall arr seen,
  ForallOrdPairs (fun a b => same b a = false) (dedupFrom same seen arr).
Proof.
  induction arr as [ | a arr IH ]; intros seen; simpl.
  - constructor.
  - destruct (includes same seen a); [ apply IH | ].
    constructor; [ | apply IH ].
    apply Forall_forall. intros y Hy.
    apply dedupFrom_sound in Hy. destruct Hy as [_ Hy].
    unfold includes in Hy. rewrite existsb_app in Hy.
    apply orb_false_iff in Hy. destruct Hy as [_ Hy].
    simpl in Hy. now rewrite orb_false_r in Hy.
Qed.

End Dedup.

(** X15: [dedup] returns elements of its input only, one that is the
    same as each element of the input, and no element that is the same
    as one that stands before it. *)
Theorem X15_dedup_keeps_one_of_each :
  forall (T : Type) (same : T -> T -> bool) (arr : list T),
    (forall x, same x x = true) ->
    (forall y, In y (dedup same arr) -> In y arr)
    /\ (forall x, In x arr ->
          exists y, In y (dedup same arr) /\ same x y = true)
    /\ ForallOrdPairs (fun a b => same b a = false) (dedup same arr).
Proof.
  intros T same arr Hrefl. unfold dedup. split; [ | split ].
  - intros y H. now apply dedupFrom_sound in H.
  - intros x H.
    destruct (dedupFrom_complete same arr [] x Hrefl H) as [X | X];
      [ discriminate | exact X ].
  - apply dedupFrom_distinct.
Qed.

Lemma X15_witness :
  (forall y, In y (dedup Nat.eqb [1; 2; 1; 3; 2]) -> In y [1; 2; 1; 3; 2])
  /\ (forall x, In x [1; 2; 1; 3; 2] ->
        exists y, In y (dedup Nat.eqb [1; 2; 1; 3; 2]) /\ Nat.eqb x y = true)
  /\ ForallOrdPairs (fun a b => Nat.eqb b a = false)
       (dedup Nat.eqb [1; 2; 1; 3; 2]).
Proof.
  apply (@X15_dedup_keeps_one_of_each nat Nat.eqb [1; 2; 1; 3; 2]).
  exact Nat.eqb_refl.
Defined.

(** ** [findCommonKeys] *)

Lemma mapGet_mapSet_key : forall (V : Type) (m : list (string * V)) k v k',
  mapGet (String.eqb k') (mapSet (String.eqb k) k v m)
  = if String.eqb k k' then Some v else mapGet (String.eqb k') m.
Proof.
  induction m as [ | [k0 v0] m IH ]; intros k v k'; simpl.
  - now rewrite (String.eqb_sym k' k).
  - destruct (String.eqb k k0) eqn:E; simpl.
    + apply String.eqb_eq in E. subst k0. rewrite (String.eqb_sym k' k).
      now destruct (String.eqb k k').
    + rewrite IH. destruct (String.eqb k' k0) eqn:E'; [ | reflexivity ].
      apply String.eqb_eq in E'. subst k0. now rewrite E.
Qed.

Lemma keys_mapSet : forall (V : Type) (m : list (string * V)) k v,
  map fst (mapSet (String.eqb k) k v m)
  = if existsb (String.eqb k) (map fst m) then map fst m
    else map fst m ++ [k].
Proof.
  induction m as [ | [k0 v0] m IH ]; intros k v; simpl.
  - reflexivity.
  - destruct (String.eqb k k0); simpl; [ reflexivity | ].
    rewrite IH. now destruct (existsb (String.eqb k) (map fst m)).
Qed.

Lemma NoDup_mapSet : forall (V : Type) (m : list (string * V)) k v,
  NoDup (map fst m) -> NoDup (map fst (mapSet (String.eqb k) k v m)).
Proof.
  intros V m k v H. rewrite keys_mapSet.
  destruct (existsb (String.eqb k) (map fst m)) eqn:E; [ exact H | ].
  apply NoDup_app; [ exact H | repeat constructor; intros [] | ].
  intros x Hx [<- | []].
  assert (X : existsb (String.eqb k) (map fst m) = true)
    by (apply existsb_exists; exists k; split;
        [ exact Hx | apply String.eqb_refl ]).
  rewrite X in E. discriminate.
Qed.

Lemma countKeys_NoDup : forall r m,
  NoDup (map fst m) -> NoDup (map fst (countKeys m r)).
Proof.
  unfold countKeys.
  induction r as [ | kt r IH ]; intros m H; simpl; [ exact H | ].
  apply IH. now apply NoDup_mapSet.
Qed.

Lemma countOf_countKeys : forall r m k,
  countOf (countKeys m r) k
  = countOf m k + count_occ string_dec (map fst r) k.
Proof.
  unfold countKeys.
  induction r as [ | [key t] r IH ]; intros m k; simpl.
  - now rewrite Nat.add_0_r.
  - rewrite IH. unfold countOf at 1. rewrite mapGet_mapSet_key.
    fold (countOf m key).
    destruct (string_dec key k) as [ -> | Hne ].
    + rewrite String.eqb_refl. lia.
    + apply String.eqb_neq in Hne. rewrite Hne. reflexivity.
Qed.

Lemma countOf_counted : forall rs m k,
  countOf (fold_left countKeys rs m) k = countOf m k + declaring k rs.
Proof.
  induction rs as [ | r rs IH ]; intros m k; simpl.
  - unfold declaring. simpl. now rewrite Nat.add_0_r.
  - rewrite IH, countOf_countKeys. unfold declaring. simpl. lia.
Qed.

Lemma counted_NoDup : forall rs m,
  NoDup (map fst m) -> NoDup (map fst (fold_left countKeys rs m)).
Proof.
  induction rs as [ | r rs IH ]; intros m H; simpl; [ exact H | ].
  apply IH. now apply countKeys_NoDup.
Qed.

Lemma mapGet_In : forall (V : Type) (m : list (string * V)) k v,
  NoDup (map fst m) ->
  (In (k, v) m <-> mapGet (String.eqb k) m = Some v).
Proof.
  induction m as [ | [k0 v0] m IH ]; intros k v H; simpl.
  - split; [ contradiction | discriminate ].
  - apply NoDup_cons_iff in H. destruct H as [Hfresh H].
    destruct (String.eqb k k0) eqn:E.
    + apply String.eqb_eq in E. subst k0. split.
      * intros [X | X]; [ now injection X as -> | ].
        exfalso. apply Hfresh. now apply (in_map fst) in X.
      * intros X. injection X as ->. now left.
    + apply String.eqb_neq in E. rewrite <- (IH k v H). split.
      * intros [X | X]; [ injection X as -> _; congruence | exact X ].
      * now right.
Qed.

Lemma declaring_all : forall key rs,
  Forall (fun r => NoDup (map fst r)) rs ->
  declaring key rs <= List.length rs
  /\ (declaring key rs = List.length rs
      <-> Forall (fun r => In key (map fst r)) rs).
Proof.
  intros key rs H. unfold declaring.
  induction H as [ | r rs Hr _ [IH1 IH2] ]; simpl.
  - split; [ lia | ]. split; constructor.
  - pose proof (proj1 (NoDup_count_occ string_dec (map fst r)) Hr key) as Hc.
    pose proof (count_occ_In string_dec (map fst r) key) as Hin.
    split; [ lia | ]. split.
    + intros E. constructor; [ apply Hin; lia | apply IH2; lia ].
    + intros F. inversion F as [ | ? ? F1 F2 ]; subst.
      apply Hin in F1. apply IH2 in F2. lia.
Qed.

(** X16: [findCommonKeys] returns, each once, the keys that every one
    of the shapes declares; for no shape at all it returns no key. *)
Theorem X16_findCommonKeys_are_common :
  forall rs,
    Forall (fun r => NoDup (map fst r)) rs ->
    NoDup (findCommonKeys rs)
    /\ forall key,
         In key (findCommonKeys rs)
         <-> rs <> [] /\ Forall (fun r => In key (map fst r)) rs.
Proof.
  intros rs H. unfold findCommonKeys.
  assert (Hn : NoDup (map fst (fold_left countKeys rs [])))
    by (apply counted_NoDup; constructor).
  split.
  - clear H. induction (fold_left countKeys rs []) as [ | [k n] m IH ]; simpl.
    + constructor.
    + simpl in Hn. apply NoDup_cons_iff in Hn. destruct Hn as [Hfresh Hn].
      match goal with
      | |- context [ Nat.eqb n ?l ] => destruct (Nat.eqb n l)
      end; simpl; [ | now apply IH ].
      constructor; [ | now apply IH ].
      intros X. apply Hfresh. apply in_map_iff in X.
      destruct X as [[k' n'] [E X]]. simpl in E. subst k'.
      apply filter_In in X. destruct X as [X _]. now apply (in_map fst) in X.
  - intros key.
    destruct (declaring_all key H) as [_ Hall].
    pose proof (countOf_counted rs [] key) as Hc. simpl in Hc.
    rewrite in_map_iff. split.
    + intros [[k n] [E X]]. simpl in E. subst k.
      apply filter_In in X. destruct X as [X En]. simpl in En.
      apply Nat.eqb_eq in En. subst n.
      apply (mapGet_In _ _ _ Hn) in X.
      split.
      * intros ->. discriminate.
      * apply Hall. unfold countOf in Hc. now rewrite X in Hc.
    + intros [Hne F]. apply Hall in F. rewrite F in Hc.
      exists (key, List.length rs). split; [ reflexivity | ].
      apply filter_In. split; [ | apply Nat.eqb_refl ].
      apply (mapGet_In _ _ _ Hn). unfold countOf in Hc.
      destruct (mapGet (String.eqb key) (fold_left countKeys rs []))
        as [ n | ]; [ now rewrite Hc | ].
      destruct rs; [ contradiction | discriminate ].
Qed.

Lemma X16_witness :
  NoDup (findCommonKeys [twoNumbers; [("b", StringType); ("c", NullType)]])
  /\ forall key,
       In key (findCommonKeys
                 [twoNumbers; [("b", StringType); ("c", NullType)]])
       <-> [twoNumbers; [("b", StringType); ("c", NullType)]] <> []
           /\ Forall (fun r => In key (map fst r))
                [twoNumbers; [("b", StringType); ("c", NullType)]].
Proof.
  apply (@X16_findCommonKeys_are_common
           [twoNumbers; [("b", StringType); ("c", NullType)]]).
  repeat constructor; simpl; intuition discriminate.
Defined.

(** ** Unions: the sentinel and unexpected types *)

Lemma plain_options : forall options,
  plain (UnionType options) -> Forall plain options.
Proof.
  intros options H. induction options as [ | o options IH ]; constructor.
  - apply H.
  - apply IH, H.
Qed.

Lemma nothing_name : forall t,
  Name_eqb (name t) n_nothing
  = match t with NothingType => true | _ => false end.
Proof. now destruct t. Qed.

Lemma isOptional_In : forall t,
  isOptional t = true <-> In NothingType (toTerminals t).
Proof.
  intros t. unfold isOptional. rewrite existsb_exists. split.
  - intros [x [Hin Hx]]. rewrite nothing_name in Hx.
    destruct x; try discriminate. exact Hin.
  - intros H. exists NothingType. now split.
Qed.

Lemma flatten_In : forall (Root : Type) (l : list (Root * Schema)) root terminal,
  In (root, terminal) (flatten l)
  <-> exists type, In (root, type) l /\ In terminal (toTerminals type).
Proof.
  intros Root l root terminal. unfold flatten. rewrite in_flat_map. split.
  - intros [[r type] [Hin H]]. simpl in H. apply in_map_iff in H.
    destruct H as [x [E Hx]]. injection E as -> ->. now exists type.
  - intros [type [Hin H]]. exists (root, type). split; [ exact Hin | ].
    simpl. apply in_map_iff. now exists terminal.
Qed.

Lemma indexed_In : forall (A : Type) (xs : list A) k i x,
  In (i, x) (indexed k xs) -> In x xs.
Proof.
  induction xs as [ | a xs IH ]; intros k i x H; simpl in H.
  - contradiction.
  - destruct H as [H | H]; [ injection H as _ ->; now left | ].
    right. exact (IH _ _ _ H).
Qed.

Lemma In_indexed : forall (A : Type) (xs : list A) k x,
  In x xs -> exists i, In (i, x) (indexed k xs).
Proof.
  induction xs as [ | a xs IH ]; intros k x H; simpl.
  - contradiction.
  - destruct H as [-> | H]; [ exists k; now left | ].
    destruct (IH (S k) x H) as [i Hi]. exists i. now right.
Qed.

Lemma indexed_bound : forall (A : Type) (xs : list A) k i x,
  In (i, x) (indexed k xs) -> k <= i.
Proof.
  induction xs as [ | a xs IH ]; intros k i x H; simpl in H.
  - contradiction.
  - destruct H as [H | H]; [ injection H as -> _; lia | ].
    apply IH in H. lia.
Qed.

(** A position holds one element. *)
Lemma indexed_functional : forall (A : Type) (xs : list A) k i x y,
  In (i, x) (indexed k xs) -> In (i, y) (indexed k xs) -> x = y.
Proof.
  induction xs as [ | a xs IH ]; intros k i x y Hx Hy; simpl in *.
  - contradiction.
  - destruct Hx as [Hx | Hx], Hy as [Hy | Hy].
    + injection Hx as _ <-. now injection Hy as _ <-.
    + injection Hx as <- _. apply indexed_bound in Hy. lia.
    + injection Hy as <- _. apply indexed_bound in Hx. lia.
    + exact (IH _ _ _ _ Hx Hy).
Qed.

(** The pairs a union is compiled from: a root is an option with its
    function at its position, paired with a terminal of that option. *)
Lemma unionRoots_In : forall options root terminal,
  In (root, terminal) (unionRoots (compiledOptions options))
  <-> In root (indexed 0 (compiledOptions options))
      /\ In terminal (toTerminals (fst (snd root))).
Proof.
  intros options root terminal. unfold unionRoots. rewrite flatten_In. split.
  - intros [type [Hin H]]. apply in_map_iff in Hin.
    destruct Hin as [r [E Hr]]. injection E as -> <-. now split.
  - intros [Hin H]. exists (fst (snd root)). split; [ | exact H ].
    apply in_map_iff. now exists root.
Qed.

Lemma compiledOptions_In : forall options (root : UnionRoot),
  In root (indexed 0 (compiledOptions options)) ->
  In (fst (snd root)) options
  /\ snd (snd root) = genFunc (fst (snd root)).
Proof.
  intros options [i c] H. apply indexed_In in H. unfold compiledOptions in H.
  apply in_map_iff in H. destruct H as [o [<- Ho]]. now split.
Qed.

Lemma terminals_unionRoots : forall options terminal,
  In terminal (map snd (unionRoots (compiledOptions options)))
  <-> In terminal (toTerminals (UnionType options)).
Proof.
  intros options terminal. rewrite toTerminals_union, in_map_iff, in_flat_map.
  split.
  - intros [[root x] [E H]]. simpl in E. subst x.
    apply unionRoots_In in H. destruct H as [Hr Ht].
    apply compiledOptions_In in Hr. destruct Hr as [Hr _].
    now exists (fst (snd root)).
  - intros [o [Ho Ht]].
    assert (Hc : In (o, genFunc o) (compiledOptions options))
      by (unfold compiledOptions; apply in_map_iff; now exists o).
    destruct (In_indexed _ 0 _ Hc) as [i Hi].
    exists ((i, (o, genFunc o)), terminal). split; [ reflexivity | ].
    apply unionRoots_In. now split.
Qed.

Lemma nothings_classified : forall (Root : Type) (t : list (Root * Schema)) tb,
  nothings (fold_left (classify (Root:=Root)) t tb)
  = nothings tb ++ nothingRoots t.
Proof.
  intros Root t. induction t as [ | [root terminal] t IH ]; intros tb.
  - simpl. now rewrite app_nil_r.
  - rewrite fold_step, IH. unfold nothingRoots. simpl filter. simpl snd.
    destruct terminal; try reflexivity.
    simpl. now rewrite <- app_assoc.
Qed.

Lemma nothingRoots_In : forall (Root : Type) (t : list (Root * Schema)) root,
  In root (nothingRoots t) <-> In (root, NothingType) t.
Proof.
  intros Root t root. unfold nothingRoots. rewrite in_map_iff. split.
  - intros [[r x] [E H]]. simpl in E. subst r.
    apply filter_In in H. destruct H as [H Hx]. simpl in Hx.
    destruct x; try discriminate. exact H.
  - intros H. exists (root, NothingType). split; [ reflexivity | ].
    apply filter_In. now split.
Qed.

Lemma unknownRoots_In : forall (Root : Type) (t : list (Root * Schema)) root,
  In root (unknownRoots t) <-> In (root, UnknownType) t.
Proof.
  intros Root t root. unfold unknownRoots. rewrite in_map_iff. split.
  - intros [[r x] [E H]]. simpl in E. subst r.
    apply filter_In in H. destruct H as [H Hx]. simpl in Hx.
    destruct x; try discriminate. exact H.
  - intros H. exists (root, UnknownType). split; [ reflexivity | ].
    apply filter_In. now split.
Qed.

(** On a value that is not an object the union answers with the matcher
    of its flattened options. *)
Lemma func_union_base : forall options v mode,
  isObject v = false ->
  func (UnionType options) v mode
  = matcherBody snd (baseTables options) None v v mode.
Proof.
  intros options v mode H. unfold func. simpl.
  fold (compiledOptions options). unfold unionFunc.
  destruct (createObjectMatchers _ _ _); [ reflexivity | ].
  destruct v; try reflexivity.
  rewrite isObject_VObject in H. discriminate.
Qed.

(** X17: a schema without transforms that counts as optional accepts
    the sentinel [Nothing], so that the absence of a key it describes is
    never a failure. *)
Theorem X17_optional_schema_accepts_Nothing :
  forall t mode,
    plain t -> isOptional t = true -> fst (func t VNothing mode) = RTrue.
Proof.
  intros t mode. induction t
    as [ | | | | | | | | value | shape restType IHs IHr | item IH
       | options IHo | type IH | transformed f IH ] using Schema_induction;
    intros Hp Ho; try reflexivity; try discriminate.
  - (* union *)
    rewrite func_union_base by reflexivity.
    apply plain_options in Hp.
    unfold matcherBody. simpl isNothing. cbv iota. simpl negb. cbv iota.
    unfold baseTables, buildTables. simpl nothings.
    rewrite nothings_classified. simpl app.
    set (t := unionRoots (compiledOptions options)).
    assert (Hall : forall root, In root (nothingRoots t) ->
              fst (run (snd root) VNothing mode) = RTrue).
    { intros root Hr. apply nothingRoots_In, unionRoots_In in Hr.
      destruct Hr as [Hr Ht]. apply compiledOptions_In in Hr.
      destruct Hr as [Hin Hf]. rewrite fst_run, Hf.
      rewrite Forall_forall in IHo, Hp.
      apply (IHo _ Hin (Hp _ Hin)). now apply isOptional_In. }
    assert (Hne : nothingRoots t <> []).
    { apply isOptional_In in Ho. rewrite toTerminals_union in Ho.
      apply in_flat_map in Ho. destruct Ho as [o [Hin Ht]].
      assert (Hc : In (o, genFunc o) (compiledOptions options))
        by (unfold compiledOptions; apply in_map_iff; now exists o).
      destruct (In_indexed _ 0 _ Hc) as [i Hi].
      assert (X : In (i, (o, genFunc o)) (nothingRoots t))
        by (apply nothingRoots_In, unionRoots_In; now split).
      intros E. rewrite E in X. contradiction. }
    destruct (nothingRoots t) as [ | h rest ]; [ contradiction | ].
    unfold dedup. simpl dedupFrom. simpl tryEach.
    specialize (Hall h (or_introl eq_refl)).
    destruct (run (snd h) VNothing mode) as [r cs]. simpl in Hall.
    subst r. reflexivity.
  - (* transform *)
    contradiction.
Qed.

Lemma X17_witness :
  fst (func (UnionType [StringType; optional NumberType]) VNothing STRICT)
  = RTrue.
Proof.
  apply (@X17_optional_schema_accepts_Nothing
           (UnionType [StringType; optional NumberType]) STRICT).
  - simpl. tauto.
  - reflexivity.
Defined.

Lemma allTypes_classify : forall (Root : Type) (tb : Tables Root) root terminal,
  allTypes (classify tb (root, terminal))
  = match expects terminal with
    | Some b => setAdd (Name_eqb b) b (allTypes tb)
    | None => allTypes tb
    end.
Proof. intros Root tb root terminal. now destruct terminal. Qed.

Lemma setAdd_In : forall b (s : list BaseType) x,
  In x (setAdd (Name_eqb b) b s) <-> In x s \/ x = b.
Proof.
  intros b s x. unfold setAdd.
  destruct (existsb (Name_eqb b) s) eqn:E.
  - split; [ now left | ]. intros [H | ->]; [ exact H | ].
    apply existsb_exists in E. destruct E as [y [Hy E]].
    apply Name_eqb_eq in E. now subst y.
  - rewrite in_app_iff. simpl. intuition.
Qed.

(** [allTypes] holds the base types the terminals expect. *)
Lemma allTypes_classified : forall (Root : Type) (t : list (Root * Schema)) tb b,
  In b (allTypes (fold_left (classify (Root:=Root)) t tb))
  <-> In b (allTypes tb)
      \/ exists terminal, In terminal (map snd t) /\ expects terminal = Some b.
Proof.
  intros Root t. induction t as [ | [root terminal] t IH ]; intros tb b.
  - simpl. split; [ now left | ]. intros [H | [x [[] _]]]. exact H.
  - rewrite fold_step, IH, allTypes_classify. simpl map. split.
    + intros [H | [x [Hx E]]].
      * destruct (expects terminal) as [ b' | ] eqn:Et.
        -- apply setAdd_In in H. destruct H as [H | ->]; [ now left | ].
           right. exists terminal. split; [ now left | exact Et ].
        -- now left.
      * right. exists x. split; [ now right | exact E ].
    + intros [H | [x [[<- | Hx] E]]].
      * left. destruct (expects terminal); [ | exact H ].
        apply setAdd_In. now left.
      * left. rewrite E. apply setAdd_In. now right.
      * right. now exists x.
Qed.

Lemma unknownRoots_none : forall (Root : Type) (t : list (Root * Schema)),
  ~ In UnknownType (map snd t) -> unknownRoots t = [].
Proof.
  intros Root t H. destruct (unknownRoots t) as [ | root rest ] eqn:E;
    [ reflexivity | ].
  exfalso. apply H.
  assert (X : In root (unknownRoots t)) by (rewrite E; now left).
  apply unknownRoots_In in X. now apply (in_map snd) in X.
Qed.

Lemma matcherBody_unexpected : forall (Root : Type) (funcOf : Root -> Compiled)
  tb path rootValue value mode,
  isNothing value = false ->
  unknowns tb = [] ->
  existsb (Name_eqb (toBaseType value)) (allTypes tb) = false ->
  matcherBody funcOf tb path rootValue value mode
  = (RIssue (issue (invalid_type path (allTypes tb))), []).
Proof.
  intros Root funcOf tb path rootValue value mode Hn Hu Ha.
  unfold matcherBody. now rewrite Hn, Hu, Ha.
Qed.

(** X18: a union rejects a value that is neither an object nor the
    sentinel, and whose base type none of its terminals expects while
    none of them is [unknown], with the single issue [invalid_type]; it
    invokes no alternative, and the issue lists exactly the base types
    its terminals expect. *)
Theorem X18_union_rejects_unexpected_type :
  forall options v mode,
    isObject v = false ->
    isNothing v = false ->
    Forall (fun terminal =>
              terminal <> UnknownType
              /\ expects terminal <> Some (toBaseType v))
           (toTerminals (UnionType options)) ->
    exists expected,
      func (UnionType options) v mode
      = (RIssue (issue (invalid_type None expected)), [])
      /\ forall b,
           In b expected
           <-> exists terminal,
                 In terminal (toTerminals (UnionType options))
                 /\ expects terminal = Some b.
Proof.
  intros options v mode Ho Hn Hall.
  rewrite func_union_base by exact Ho.
  exists (allTypes (baseTables options)).
  rewrite Forall_forall in Hall.
  set (t := unionRoots (compiledOptions options)).
  assert (Hexp : forall b,
            In b (allTypes (baseTables options))
            <-> exists terminal,
                  In terminal (toTerminals (UnionType options))
                  /\ expects terminal = Some b).
  { intros b. unfold baseTables, buildTables. simpl allTypes.
    rewrite allTypes_classified. simpl. split.
    - intros [[] | [x [Hx E]]]. exists x.
      split; [ now apply terminals_unionRoots | exact E ].
    - intros [x [Hx E]]. right. exists x.
      split; [ now apply terminals_unionRoots | exact E ]. }
  split; [ | exact Hexp ].
  assert (Hu : unknowns (baseTables options) = []).
  { unfold baseTables, buildTables. simpl unknowns.
    rewrite unknowns_classified. simpl app.
    rewrite unknownRoots_none; [ reflexivity | ].
    intros X. apply terminals_unionRoots in X.
    now apply (proj1 (Hall _ X)). }
  assert (Ha : existsb (Name_eqb (toBaseType v))
                       (allTypes (baseTables options)) = false).
  { apply existsb_none. intros b Hb.
    destruct (Name_eqb (toBaseType v) b) eqn:E; [ | reflexivity ].
    apply Name_eqb_eq in E. subst b. apply Hexp in Hb.
    destruct Hb as [x [Hx Ex]]. now destruct (proj2 (Hall _ Hx)). }
  now apply matcherBody_unexpected.
Qed.

Lemma X18_witness :
  exists expected,
    func (UnionType [StringType; LiteralType (LBoolean true)]) (num 1) PASS
    = (RIssue (issue (invalid_type None expected)), [])
    /\ forall b,
         In b expected
         <-> exists terminal,
               In terminal
                  (toTerminals
                     (UnionType [StringType; LiteralType (LBoolean true)]))
               /\ expects terminal = Some b.
Proof.
  apply (@X18_union_rejects_unexpected_type
           [StringType; LiteralType (LBoolean true)] (num 1) PASS);
    [ reflexivity | reflexivity | ].
  repeat constructor; discriminate.
Defined.

(** One of the loops of the matcher returns only an answer that is not
    an issue, and returns as soon as an alternative accepts. *)
Lemma tryEach_return : forall (Root : Type) (funcOf : Root -> Compiled)
  rootValue mode xs st ret,
  tryEach funcOf rootValue mode xs st = inl ret -> isIssue (fst ret) = false.
Proof.
  intros Root funcOf rootValue mode xs.
  induction xs as [ | x xs IH ]; intros st ret H; simpl in H.
  - discriminate.
  - destruct (run (funcOf x) rootValue mode) as [r cs].
    destruct r; try (injection H as <-; reflexivity).
    exact (IH _ _ H).
Qed.

Lemma tryEach_accepted : forall (Root : Type) (funcOf : Root -> Compiled)
  rootValue mode xs st x,
  In x xs ->
  rejects funcOf rootValue mode x = false ->
  exists ret, tryEach funcOf rootValue mode xs st = inl ret.
Proof.
  intros Root funcOf rootValue mode xs.
  induction xs as [ | a xs IH ]; intros st x Hin Hx; simpl.
  - contradiction.
  - unfold rejects in Hx.
    destruct (run (funcOf a) rootValue mode) as [r cs] eqn:Er.
    destruct r; try (eexists; reflexivity).
    destruct Hin as [-> | Hin]; [ rewrite Er in Hx; discriminate | ].
    now apply (IH _ x).
Qed.

(** ** Unions with a discriminant key *)

Section Carried.

Variables A B : Type.
Variable rho : A -> B.

Lemma mapGet_carried : forall (K : Type) (is_k : K -> bool)
  (m : list (K * list A)),
  mapGet is_k (carriedMap rho m) = option_map (map rho) (mapGet is_k m).
Proof.
  intros K is_k m. induction m as [ | [k v] m IH ]; simpl.
  - reflexivity.
  - now destruct (is_k k).
Qed.

Lemma mapSet_carried : forall (K : Type) (is_k : K -> bool) k v
  (m : list (K * list A)),
  mapSet is_k k (map rho v) (carriedMap rho m)
  = carriedMap rho (mapSet is_k k v m).
Proof.
  intros K is_k k v m. induction m as [ | [k0 v0] m IH ]; simpl.
  - reflexivity.
  - destruct (is_k k0); simpl; [ reflexivity | ]. now rewrite IH.
Qed.

Lemma classify_carried : forall (tb : Tables A) root terminal,
  classify (carriedTables rho tb) (rho root, terminal)
  = carriedTables rho (classify tb (root, terminal)).
Proof.
  intros tb root terminal.
  destruct terminal; unfold carriedTables; simpl;
    rewrite ?map_app; try reflexivity;
    rewrite mapGet_carried; unfold BaseType; simpl;
    match goal with
    | |- context [ mapGet ?p ?m ] => destruct (mapGet p m); simpl
    end;
    rewrite <- mapSet_carried, ?map_app; reflexivity.
Qed.

Lemma classified_carried : forall (t : list (A * Schema)) tb,
  fold_left (classify (Root:=B)) (carriedPairs rho t) (carriedTables rho tb)
  = carriedTables rho (fold_left (classify (Root:=A)) t tb).
Proof.
  induction t as [ | [root terminal] t IH ]; intros tb.
  - reflexivity.
  - unfold carriedPairs. simpl map. rewrite !fold_step.
    simpl fst. simpl snd. rewrite classify_carried. apply IH.
Qed.

Lemma filtered_carried : forall (f : Schema -> bool) (t : list (A * Schema)),
  map fst (filter (fun rt => f (snd rt)) (carriedPairs rho t))
  = map rho (map fst (filter (fun rt => f (snd rt)) t)).
Proof.
  intros f t. induction t as [ | [root terminal] t IH ]; simpl.
  - reflexivity.
  - destruct (f terminal); simpl; now rewrite IH.
Qed.

Lemma typeRoots_carried : forall t b,
  typeRoots (carriedPairs rho t) b = map rho (typeRoots t b).
Proof.
  intros t b. unfold typeRoots.
  apply (filtered_carried (fun s => isBase s && Name_eqb (name s) b)).
Qed.

Lemma literalRoots_carried : forall t v,
  literalRoots (carriedPairs rho t) v = map rho (literalRoots t v).
Proof.
  intros t v. unfold literalRoots.
  apply (filtered_carried (fun s => match s with
                                    | LiteralType l => sameValueZero v l
                                    | _ => false
                                    end)).
Qed.

Lemma unknownRoots_carried : forall t,
  unknownRoots (carriedPairs rho t) = map rho (unknownRoots t).
Proof.
  intros t. unfold unknownRoots.
  apply (filtered_carried (fun s => match s with
                                    | UnknownType => true
                                    | _ => false
                                    end)).
Qed.

Lemma nothingRoots_carried : forall t,
  nothingRoots (carriedPairs rho t) = map rho (nothingRoots t).
Proof.
  intros t. unfold nothingRoots.
  apply (filtered_carried (fun s => match s with
                                    | NothingType => true
                                    | _ => false
                                    end)).
Qed.

Lemma mergedRoots_carried : forall t b,
  mergedRoots (carriedPairs rho t) b = map rho (mergedRoots t b).
Proof.
  intros t b. unfold mergedRoots.
  change (noTables B) with (carriedTables rho (noTables A)).
  rewrite classified_carried. simpl literals.
  induction (literals (fold_left (classify (Root:=A)) t (noTables A)))
    as [ | [l roots] m IH ]; simpl.
  - reflexivity.
  - destruct (Name_eqb (toBaseType (ofLiteral l)) b); simpl.
    + now rewrite map_app, IH.
    + exact IH.
Qed.

End Carried.

Lemma dedupFrom_seen : forall (T : Type) (same : T -> T -> bool) l seen,
  (forall x, In x l -> includes same seen x = true) ->
  dedupFrom same seen l = [].
Proof.
  intros T same l. induction l as [ | a l IH ]; intros seen H; simpl.
  - reflexivity.
  - rewrite (H a) by now left. apply IH. intros x Hx. apply H. now right.
Qed.

Lemma dedup_nil : forall (T : Type) (same : T -> T -> bool) l,
  dedup same l = [] -> l = [].
Proof. intros T same [ | a l ]; [ reflexivity | discriminate ]. Qed.

Lemma difference_length : forall (T : Type) (same : T -> T -> bool) l u,
  List.length (difference same l u) <= List.length l.
Proof. intros T same l u. unfold difference. apply filter_length_le. Qed.

Lemma difference_nil : forall (T : Type) (same : T -> T -> bool) l,
  difference same l [] = l.
Proof.
  intros T same l. unfold difference. induction l as [ | a l IH ]; simpl.
  - reflexivity.
  - f_equal. exact IH.
Qed.

Lemma mapGet_snd : forall (K V : Type) (is_k : K -> bool) (m : list (K * V)) x,
  mapGet is_k m = Some x -> In x (map snd m).
Proof.
  intros K V is_k m x. induction m as [ | [k v] m IH ]; simpl.
  - discriminate.
  - destruct (is_k k).
    + intros E. injection E as <-. now left.
    + intros E. right. now apply IH.
Qed.

Section SingleRooted.

Variables A B : Type.
Variable sameA : A -> A -> bool.
Variable sameB : B -> B -> bool.
Variable rho : A -> B.
Hypothesis sameA_refl : forall x, sameA x x = true.
Hypothesis sameA_eq : forall x y, sameA x y = true -> x = y.
Hypothesis sameB_refl : forall x, sameB x x = true.

Lemma dedup_single_equal : forall l,
  List.length (dedup sameA l) <= 1 ->
  forall x y, In x l -> In y l -> x = y.
Proof.
  intros l H.
  assert (Hd : forall x, In x l -> forall d rest,
            dedup sameA l = d :: rest -> x = d).
  { intros x Hx d rest E.
    destruct (dedupFrom_complete sameA l [] x sameA_refl Hx)
      as [X | [y [Hy Hs]]]; [ discriminate | ].
    fold (dedup sameA l) in Hy. rewrite E in H, Hy.
    destruct rest; [ | simpl in H; lia ].
    destruct Hy as [<- | []]. now apply sameA_eq. }
  intros x y Hx Hy.
  destruct (dedup sameA l) as [ | d rest ] eqn:E.
  - apply dedup_nil in E. subst l. contradiction.
  - rewrite (Hd x Hx d rest eq_refl). symmetry. exact (Hd y Hy d rest eq_refl).
Qed.

(** A list with at most one element once deduplicated keeps at most one
    when its elements are renamed. *)
Lemma dedup_carried_single : forall l,
  List.length (dedup sameA l) <= 1 ->
  List.length (dedup sameB (map rho l)) <= 1.
Proof.
  intros l H. pose proof (dedup_single_equal l H) as Heq.
  destruct l as [ | a l ]; [ simpl; lia | ].
  unfold dedup. simpl.
  rewrite dedupFrom_seen; [ simpl; lia | ].
  intros x Hx. apply in_map_iff in Hx. destruct Hx as [y [<- Hy]].
  rewrite (Heq y a (or_intror Hy) (or_introl eq_refl)).
  unfold includes. simpl. now rewrite sameB_refl.
Qed.

Lemma bucket_bounded : forall (tb : Tables A) v c,
  forallb (fun e => negb (Nat.ltb 1 (List.length (snd e)))) (literals tb)
  = true ->
  forallb (fun e => negb (Nat.ltb 1 (List.length (snd e)))) (types tb)
  = true ->
  bucket tb v = Some c ->
  List.length c <= 1.
Proof.
  intros tb v c Hl Ht. unfold bucket.
  rewrite forallb_forall in Hl, Ht.
  assert (Hin : forall (K : Type) (m : list (K * list A)),
            (forall e, In e m ->
               negb (Nat.ltb 1 (List.length (snd e))) = true) ->
            In c (map snd m) -> List.length c <= 1).
  { intros K m Hm Hc. apply in_map_iff in Hc. destruct Hc as [e [<- He]].
    specialize (Hm e He). apply negb_true_iff, Nat.ltb_ge in Hm. exact Hm. }
  destruct (mapGet (sameValueZero v) (literals tb)) as [ o | ] eqn:E.
  - intros X. injection X as <-. apply (Hin _ _ Hl). now apply mapGet_snd in E.
  - intros X. apply (Hin _ _ Ht). now apply mapGet_snd in X.
Qed.

(** When the tables of a key pass the test of [isDiscriminant], the
    matcher built from the same terminals tries at most one alternative
    on a value. *)
Lemma singleRooted_tried : forall (t : list (A * Schema)) value,
  singleRooted (buildTables sameA t) = true ->
  List.length (tried (buildTables sameB (carriedPairs rho t)) value) <= 1.
Proof.
  intros t value H.
  assert (Hn : nothings (buildTables sameA t) = dedup sameA (nothingRoots t))
    by (unfold buildTables; simpl; now rewrite nothings_classified).
  assert (Hu : unknowns (buildTables sameA t) = dedup sameA (unknownRoots t))
    by (unfold buildTables; simpl; now rewrite unknowns_classified).
  assert (HnR : nothings (buildTables sameB (carriedPairs rho t))
                = dedup sameB (map rho (nothingRoots t))).
  { unfold buildTables. simpl.
    now rewrite nothings_classified, nothingRoots_carried. }
  assert (HuR : unknowns (buildTables sameB (carriedPairs rho t))
                = dedup sameB (map rho (unknownRoots t))).
  { unfold buildTables. simpl.
    now rewrite unknowns_classified, unknownRoots_carried. }
  unfold singleRooted in H. rewrite Hn, Hu in H.
  destruct (Nat.ltb 1 (List.length (dedup sameA (nothingRoots t)))) eqn:E1;
    [ discriminate | ].
  destruct (Nat.ltb 1 (List.length (dedup sameA (unknownRoots t)))) eqn:E2;
    [ discriminate | ].
  apply Nat.ltb_ge in E1, E2.
  unfold tried. destruct (isNothing value).
  - rewrite HnR. now apply dedup_carried_single.
  - unfold candidates. rewrite length_app, HuR.
    pose proof (dedup_carried_single _ E2) as U.
    rewrite bucket_matched.
    pose proof (bucket_matched sameA t value) as M.
    unfold matched in *.
    rewrite typeRoots_carried, literalRoots_carried, mergedRoots_carried.
    destruct (Nat.eqb (List.length (dedup sameA (unknownRoots t))) 1) eqn:E3.
    + (* one catch-all: the tables hold nothing else *)
      apply andb_true_iff in H. destruct H as [Hl Ht].
      apply Nat.eqb_eq, length_zero_iff_nil in Hl, Ht.
      unfold bucket in M. rewrite Hl, Ht in M. simpl in M.
      destruct (typeRoots t (toBaseType value)); [ | discriminate ].
      destruct (literalRoots t value); [ | discriminate ].
      simpl. exact U.
    + (* no catch-all: every bucket holds at most one alternative *)
      apply Nat.eqb_neq in E3.
      assert (Enil : dedup sameA (unknownRoots t) = [])
        by (apply length_zero_iff_nil; lia).
      apply dedup_nil in Enil.
      apply andb_true_iff in H. destruct H as [Hl Ht].
      assert (Hc : forall l,
                List.length (cleaned sameA t l) <= 1 ->
                List.length (cleaned sameB (carriedPairs rho t) (map rho l))
                <= 1).
      { intros l X. unfold cleaned in *. rewrite Enil in X.
        unfold dedup at 2 in X. simpl in X. rewrite difference_nil in X.
        etransitivity; [ apply difference_length | ].
        now apply dedup_carried_single. }
      rewrite Enil. simpl List.length. rewrite Nat.add_0_r.
      destruct (typeRoots t (toBaseType value)) as [ | r rs ].
      * destruct (literalRoots t value) as [ | x xs ]; simpl map; cbv iota.
        -- simpl. lia.
        -- apply (Hc (x :: xs)). now apply (bucket_bounded _ value Hl Ht).
      * simpl map. cbv iota. rewrite <- map_app.
        apply (Hc ((r :: rs) ++ mergedRoots t (toBaseType value))).
        now apply (bucket_bounded _ value Hl Ht).
Qed.

End SingleRooted.

Lemma keyPairs_bound : forall (shapes : list ObjectShape) key k p,
  In p (keyPairs (indexed k shapes) key) -> k <= fst p.
Proof.
  intros shapes key k p H. unfold keyPairs in H. apply in_flat_map in H.
  destruct H as [[i shape] [Hi Hp]]. simpl in Hp. apply in_map_iff in Hp.
  destruct Hp as [terminal [<- _]]. simpl.
  exact (indexed_bound _ _ _ _ Hi).
Qed.

(** The terminals at a key, paired with the roots of the objects, are
    those paired with the positions of the shapes, position by
    position. *)
Lemma keyPairs_indexed : forall (Root : Type)
  (objs : list (Root * ObjectShape)) key k d,
  keyPairs objs key
  = carriedPairs (fun i => nth (i - k) (map fst objs) d)
      (keyPairs (indexed k (map snd objs)) key).
Proof.
  intros Root objs key. induction objs as [ | [r s] objs IH ]; intros k d.
  - reflexivity.
  - unfold keyPairs, carriedPairs in *. simpl flat_map.
    rewrite map_app, map_map. f_equal.
    + apply map_ext. intros terminal. simpl. now rewrite Nat.sub_diag.
    + rewrite (IH (S k) d). apply map_ext_in. intros p Hp.
      apply keyPairs_bound in Hp. simpl map.
      replace (fst p - k) with (S (fst p - S k)) by lia. reflexivity.
Qed.

Lemma createObjectMatchers_head : forall (Root : Type)
  (same : Root -> Root -> bool) (funcOf : Root -> Compiled) t item items,
  createObjectMatchers same funcOf t = item :: items ->
  isDiscriminant (map snd (objectsOf t)) (m_key item) = true
  /\ m_matcher item
     = createUnionMatcher same funcOf (keyPairs (objectsOf t) (m_key item))
         (Some [KString (m_key item)]).
Proof.
  intros Root same funcOf t item items. unfold createObjectMatchers.
  destruct (filter (isDiscriminant (map snd (objectsOf t)))
                   (findCommonKeys (map snd (objectsOf t))))
    as [ | key keys ] eqn:E; simpl; [ discriminate | ].
  intros H. injection H as <- _. simpl. split; [ | reflexivity ].
  assert (X : In key (key :: keys)) by now left.
  rewrite <- E in X. apply filter_In in X. apply X.
Qed.

(** A matcher that tries at most one alternative answers as that
    alternative does; when it tries none, it answers [invalid_type] or
    [invalid_literal] without an invocation. *)
Lemma matcherBody_single : forall (Root : Type) (funcOf : Root -> Compiled)
  tb path rootValue value mode,
  List.length (tried tb value) <= 1 ->
  (exists x,
     In x (tried tb value)
     /\ matcherBody funcOf tb path rootValue value mode
        = run (funcOf x) rootValue mode)
  \/ matcherBody funcOf tb path rootValue value mode
     = (RIssue (issue (invalid_type path (allTypes tb))), [])
  \/ matcherBody funcOf tb path rootValue value mode
     = (RIssue (issue (invalid_literal path (map fst (literals tb)))), []).
Proof.
  intros Root funcOf tb path rootValue value mode H.
  assert (Hone : forall xs,
            List.length xs <= 1 ->
            (exists x,
               In x xs
               /\ match tryEach funcOf rootValue mode xs (mkTrial None 0 [])
                  with
                  | inl ret => ret
                  | inr st => conclude tb path st
                  end = run (funcOf x) rootValue mode)
            \/ match tryEach funcOf rootValue mode xs (mkTrial None 0 [])
               with
               | inl ret => ret
               | inr st => conclude tb path st
               end
               = (RIssue (issue (invalid_literal path (map fst (literals tb)))),
                  [])).
  { intros [ | x [ | y xs ] ] Hl; [ now right | | simpl in Hl; lia ].
    left. exists x. split; [ now left | ]. simpl.
    destruct (run (funcOf x) rootValue mode) as [r cs].
    now destruct r. }
  unfold tried in H.
  destruct (isNothing value) eqn:Hn.
  - destruct (Hone _ H) as [[x [Hin E]] | E].
    + left. exists x. unfold tried. rewrite Hn. split; [ exact Hin | ].
      unfold matcherBody. rewrite Hn. exact E.
    + right. right. unfold matcherBody. rewrite Hn. exact E.
  - destruct (unexpectedType tb value) eqn:Hg.
    + right. left. unfold matcherBody. rewrite Hn. simpl negb. cbv iota.
      unfold unexpectedType in Hg. now rewrite Hg.
    + rewrite (@matcherBody_candidates Root funcOf tb path rootValue value
                 mode Hn Hg).
      destruct (Hone _ H) as [[x [Hin E]] | E].
      * left. exists x. unfold tried. rewrite Hn. now split.
      * right. right. exact E.
Qed.

Lemma objectsOf_In : forall (Root : Type) (t : list (Root * Schema)) root shape,
  In (root, shape) (objectsOf t) ->
  exists r, In (root, ObjectType shape r) t.
Proof.
  intros Root t root shape. induction t as [ | [x terminal] t IH ]; simpl.
  - contradiction.
  - destruct terminal;
      try (intros H; destruct (IH H) as [r Hr]; exists r; now right).
    intros [H | H].
    + injection H as -> ->. eexists. left. reflexivity.
    + destruct (IH H) as [r Hr]. exists r. now right.
Qed.

Lemma tried_Forall : forall (Root : Type) (P : Root -> Prop) (tb : Tables Root)
  value,
  TablesAll P tb -> Forall P (tried tb value).
Proof.
  intros Root P tb value [Hl [Ht [Hu Hn]]]. unfold tried.
  destruct (isNothing value); [ exact Hn | ].
  unfold candidates. apply Forall_app. split; [ | exact Hu ].
  unfold bucket.
  destruct (mapGet (sameValueZero value) (literals tb)) as [ o | ] eqn:E.
  - exact (mapGet_Forall _ Hl E).
  - destruct (mapGet (Name_eqb (toBaseType value)) (types tb))
      as [ o | ] eqn:E'; [ | constructor ].
    exact (mapGet_Forall _ Ht E').
Qed.

(** X19: when a union has a discriminant key, an object input that
    holds the key is handed to at most one option, which has an object
    among its terminals, and the answer of that option is the answer of
    the union; when no option is tried, the union answers the single
    issue [invalid_type] or [invalid_literal] at the key, without an
    invocation.  An option without an object terminal, such as
    [unknown()], is never tried on such an input. *)
Theorem X19_discriminant_selects_one_option :
  forall options obj mode key nothing others,
    discriminantsOf options = (key, nothing) :: others ->
    absent obj key = false ->
    (exists o shape r,
       In o options
       /\ In (ObjectType shape r) (toTerminals o)
       /\ func (UnionType options) (VObject obj) mode
          = run (o, genFunc o) (VObject obj) mode)
    \/ (exists expected,
          func (UnionType options) (VObject obj) mode
          = (RIssue (issue (invalid_type (Some [KString key]) expected)), []))
    \/ (exists expected,
          func (UnionType options) (VObject obj) mode
          = (RIssue (issue (invalid_literal (Some [KString key]) expected)),
             [])).
Proof.
  intros options obj mode key nothing others Hd Ha.
  set (t := unionRoots (compiledOptions options)).
  unfold discriminantsOf in Hd. fold t in Hd.
  destruct (createObjectMatchers sameRoot snd t) as [ | item items ] eqn:Hm;
    [ discriminate | ].
  simpl in Hd. injection Hd as Hk _ _.
  destruct (createObjectMatchers_head _ _ _ Hm) as [Hdisc Hmatch].
  subst key. set (key := m_key item) in *.
  (* the union answers with the matcher of the key *)
  assert (E : func (UnionType options) (VObject obj) mode
              = matcherBody snd
                  (buildTables sameRoot (keyPairs (objectsOf t) key))
                  (Some [KString key]) (VObject obj) (readProp obj key) mode).
  { unfold func. simpl genFunc. fold (compiledOptions options).
    unfold unionFunc. fold t. rewrite Hm, isObject_VObject.
    match goal with
    | |- context [ isUndefined ?a && negb ?b ] =>
        replace (isUndefined a && negb b) with false
          by (symmetry; exact Ha)
    end.
    now rewrite Hmatch. }
  rewrite E.
  (* every alternative of its tables is an option with its function *)
  pose (P := fun root : UnionRoot =>
               (In (fst (snd root)) options
                /\ snd (snd root) = genFunc (fst (snd root)))
               /\ exists shape r,
                    In (ObjectType shape r) (toTerminals (fst (snd root)))).
  assert (Ho : Forall (fun rs => P (fst rs)) (objectsOf t)).
  { rewrite Forall_forall. intros [root shape] Hin.
    apply objectsOf_In in Hin. destruct Hin as [r Hin].
    apply unionRoots_In in Hin. destruct Hin as [Hin Hterm].
    split; [ now apply compiledOptions_In in Hin | now exists shape, r ]. }
  assert (Hall : TablesAll P (buildTables sameRoot (keyPairs (objectsOf t) key))).
  { apply buildTables_all. unfold keyPairs.
    exact (flat_map_roots P (fun shape => terminalsAt shape key) Ho). }
  (* and at most one of them is tried *)
  pose (d := (0, (NothingType, genFunc NothingType)) : UnionRoot).
  assert (Hlen : List.length
                   (tried (buildTables sameRoot (keyPairs (objectsOf t) key))
                          (readProp obj key)) <= 1).
  { rewrite (keyPairs_indexed (objectsOf t) key 0 d).
    apply (@singleRooted_tried nat UnionRoot Nat.eqb sameRoot).
    - exact Nat.eqb_refl.
    - intros x y X. now apply Nat.eqb_eq.
    - intros x. apply Nat.eqb_refl.
    - exact Hdisc. }
  destruct (matcherBody_single snd
              (buildTables sameRoot (keyPairs (objectsOf t) key))
              (Some [KString key]) (VObject obj) (readProp obj key) mode Hlen)
    as [[x [Hx Ex]] | [Ex | Ex]].
  - left. pose proof (tried_Forall (readProp obj key) Hall) as Hp.
    rewrite Forall_forall in Hp.
    destruct (Hp x Hx) as [[Hin Hf] [shape [r Hterm]]].
    exists (fst (snd x)), shape, r.
    split; [ exact Hin | split; [ exact Hterm | ] ].
    rewrite Ex. destruct x as [i [o f]]. simpl in *. now subst f.
  - right. left. eexists. exact Ex.
  - right. right. eexists. exact Ex.
Qed.

Lemma X19_witness :
  (exists o shape r,
     In o [untagged; tagged]
     /\ In (ObjectType shape r) (toTerminals o)
     /\ func (UnionType [untagged; tagged])
          (VObject [("type", VString "b"); ("y", VString "s")]) PASS
        = run (o, genFunc o)
            (VObject [("type", VString "b"); ("y", VString "s")]) PASS)
  \/ (exists expected,
        func (UnionType [untagged; tagged])
          (VObject [("type", VString "b"); ("y", VString "s")]) PASS
        = (RIssue (issue (invalid_type (Some [KString "type"]) expected)), []))
  \/ (exists expected,
        func (UnionType [untagged; tagged])
          (VObject [("type", VString "b"); ("y", VString "s")]) PASS
        = (RIssue (issue (invalid_literal (Some [KString "type"]) expected)),
           [])).
Proof.
  apply (@X19_discriminant_selects_one_option [untagged; tagged]
           [("type", VString "b"); ("y", VString "s")] PASS
           "type" (Some 0) []);
    reflexivity.
Defined.

(** ** The invocations of a validation *)

Section Traces.

Variable Q : Call -> Prop.
Variable mode : FuncMode.

Local Abbreviation sound := (traced Q mode).

Lemma extraKeys_traced : forall entries rest obj todo st,
  match rest with Some c => sound c | None => True end ->
  Forall Q (calls st) ->
  match extraKeys entries rest obj mode todo st with
  | inl ret => Forall Q (snd ret)
  | inr st' => Forall Q (calls st')
  end.
Proof.
  intros entries rest obj todo.
  induction todo as [ | [key x] todo IH ]; intros st Hr Hc; simpl.
  - exact Hc.
  - destruct (negb (knownKeys entries key)); [ | now apply IH ].
    destruct (isStrict mode); [ exact Hc | ].
    destruct (isStrip mode); [ exact Hc | ].
    destruct rest as [ c | ]; [ | now apply IH ].
    pose proof (Hr (readProp obj key)) as Hrun.
    destruct (run c (readProp obj key) mode) as [r cs]. simpl in Hrun.
    destruct r; apply IH; try exact Hr; simpl; apply Forall_app; now split.
Qed.

Lemma declaredKeys_traced : forall entries rest obj todo st,
  Forall (fun e => sound (e_func e)) todo ->
  Forall Q (calls st) ->
  match declaredKeys entries rest obj mode todo st with
  | inl ret => Forall Q (snd ret)
  | inr st' => Forall Q (calls st')
  end.
Proof.
  intros entries rest obj todo st H. revert st.
  induction H as [ | e todo He _ IH ]; intros st Hc.
  - exact Hc.
  - rewrite declaredKeys_cons.
    destruct (absent obj (e_key e) && e_required e); [ exact Hc | ].
    pose proof (He (handed obj (e_key e))) as Hrun.
    fold (outcome obj mode e) in Hrun.
    destruct (fst (outcome obj mode e));
      [ destruct (output st); [ destruct (isStrip mode) | ] | | ];
      apply IH; simpl; apply Forall_app; now split.
Qed.

Lemma objectFunc_traced : forall entries rest v,
  Forall (fun e => sound (e_func e)) entries ->
  match rest with Some c => sound c | None => True end ->
  Forall Q (snd (objectFunc entries rest v mode)).
Proof.
  intros entries rest v He Hr. unfold objectFunc.
  destruct v; try constructor.
  destruct (isObject _); [ | constructor ].
  unfold objectBody.
  assert (H1 : match (if isStrict mode || isStrip mode || truthy rest
                      then extraKeys entries rest props mode props
                             (mkLocals None None [])
                      else inr (mkLocals None None [])) with
               | inl ret => Forall Q (snd ret)
               | inr st' => Forall Q (calls st')
               end).
  { destruct (isStrict mode || isStrip mode || truthy rest).
    - apply extraKeys_traced; [ exact Hr | constructor ].
    - constructor. }
  destruct (if isStrict mode || isStrip mode || truthy rest
            then _ else _) as [ ret | st1 ]; [ exact H1 | ].
  pose proof (declaredKeys_traced entries rest props st1 He H1) as H2.
  destruct (declaredKeys entries rest props mode entries st1)
    as [ ret | st2 ]; [ exact H2 | ].
  unfold finish.
  destruct (pending st2); [ | destruct (output st2) ]; exact H2.
Qed.

Lemma arrayFunc_traced : forall item v,
  sound item -> Forall Q (snd (arrayFunc item v mode)).
Proof.
  intros item v H. unfold arrayFunc. destruct v; try constructor.
  unfold arrayBody.
  set (st := elements item items mode 0 items (mkArrLocals None None [])).
  assert (Hc : Forall Q (a_calls st)).
  { unfold st. rewrite elements_calls. simpl.
    induction items as [ | x items IH ]; simpl; [ constructor | ].
    apply Forall_app. split; [ apply H | exact IH ]. }
  destruct (a_pending st); [ | destruct (a_output st) ]; exact Hc.
Qed.

Lemma optionalFunc_traced : forall type v,
  sound type -> Forall Q (snd (optionalFunc type v mode)).
Proof.
  intros type v H. unfold optionalFunc.
  destruct (isNothing v || isUndefined v); [ constructor | apply H ].
Qed.

Lemma transformFuncOf_traced : forall transformed f v,
  sound transformed -> Forall Q (snd (transformFuncOf transformed f v mode)).
Proof.
  intros transformed f v H. unfold transformFuncOf.
  pose proof (H v) as Hrun.
  destruct (run transformed v mode) as [r cs]. now destruct r.
Qed.

Section Union.

Variable Root : Type.
Variable same : Root -> Root -> bool.
Variable funcOf : Root -> Compiled.

Local Abbreviation fine := (fun root : Root => sound (funcOf root)).

Lemma tryEach_traced : forall rootValue xs st,
  Forall fine xs ->
  Forall Q (t_calls st) ->
  match tryEach funcOf rootValue mode xs st with
  | inl ret => Forall Q (snd ret)
  | inr st' => Forall Q (t_calls st')
  end.
Proof.
  intros rootValue xs st H. revert st.
  induction H as [ | y xs Hy _ IH ]; intros st Hc; simpl.
  - exact Hc.
  - pose proof (Hy rootValue) as Hrun.
    destruct (run (funcOf y) rootValue mode) as [r cs]. simpl in Hrun.
    destruct r; simpl; try (apply Forall_app; now split).
    apply IH. simpl. apply Forall_app. now split.
Qed.

Lemma conclude_traced : forall (tb : Tables Root) path st,
  Forall Q (t_calls st) -> Forall Q (snd (conclude tb path st)).
Proof.
  intros tb path st H. unfold conclude.
  destruct (t_issueTree st); [ destruct (Nat.ltb 1 (t_count st)) | ];
    exact H.
Qed.

Lemma matcherBody_traced : forall tb path rootValue value,
  TablesAll fine tb ->
  Forall Q (snd (matcherBody funcOf tb path rootValue value mode)).
Proof.
  intros tb path rootValue value [Hl [Ht [Hu Hn]]]. unfold matcherBody.
  destruct (negb (isNothing value)).
  - destruct (_ && _); [ constructor | ].
    assert (Hb : Forall fine
                   match bucket tb value with Some o => o | None => [] end).
    { apply orNil_Forall. intros roots E. unfold bucket in E.
      destruct (mapGet (sameValueZero value) (literals tb)) as [ o | ] eqn:El.
      - injection E as <-. exact (mapGet_Forall _ Hl El).
      - exact (mapGet_Forall _ Ht E). }
    pose proof (tryEach_traced rootValue (mkTrial None 0 []) Hb
                  (Forall_nil Q)) as H1.
    destruct (tryEach funcOf rootValue mode _ (mkTrial None 0 []))
      as [ ret | st ]; [ exact H1 | ].
    pose proof (tryEach_traced rootValue st Hu H1) as H2.
    destruct (tryEach funcOf rootValue mode (unknowns tb) st)
      as [ ret | st' ]; [ exact H2 | now apply conclude_traced ].
  - pose proof (tryEach_traced rootValue (mkTrial None 0 []) Hn
                  (Forall_nil Q)) as H1.
    destruct (tryEach funcOf rootValue mode (nothings tb) (mkTrial None 0 []))
      as [ ret | st ]; [ exact H1 | now apply conclude_traced ].
Qed.

Lemma createObjectMatchers_traced : forall t item,
  Forall (fun rt => fine (fst rt)) t ->
  In item (createObjectMatchers same funcOf t) ->
  (forall rootValue value,
     Forall Q (snd (m_matcher item rootValue value mode)))
  /\ (forall root, m_nothing item = Some root -> fine root).
Proof.
  intros t item Ht Hin. unfold createObjectMatchers in Hin.
  apply in_map_iff in Hin. destruct Hin as [key [<- _]]. simpl.
  assert (Hf : Forall (fun rt => fine (fst rt))
                 (flat_map (fun rs => map (fun terminal => (fst rs, terminal))
                                          (terminalsAt (snd rs) key))
                           (objectsOf t))).
  { apply (flat_map_roots fine (fun shape => terminalsAt shape key)).
    exact (@objectsOf_Forall Root fine t Ht). }
  split.
  - intros rootValue value. unfold createUnionMatcher.
    apply matcherBody_traced. now apply buildTables_all.
  - intros root E. exact (firstNothing_In fine Hf E).
Qed.

End Union.

Lemma unionFunc_traced : forall options v,
  Forall sound options -> Forall Q (snd (unionFunc options v mode)).
Proof.
  intros options v H. unfold unionFunc.
  set (t := unionRoots options).
  assert (Ht : Forall (fun rt : UnionRoot * Schema => sound (snd (fst rt))) t).
  { unfold t, unionRoots, flatten.
    apply (flat_map_roots (fun root : UnionRoot => sound (snd root))
                          toTerminals).
    rewrite Forall_forall. intros ra Hin. apply in_map_iff in Hin.
    destruct Hin as [root [<- Hin]]. simpl.
    pose proof (indexed_Forall 0 H) as Hi. rewrite Forall_forall in Hi.
    exact (Hi root Hin). }
  assert (Hbase : Forall Q
                    (snd (createUnionMatcher sameRoot snd t None v v mode))).
  { unfold createUnionMatcher. apply matcherBody_traced.
    now apply buildTables_all. }
  destruct (createObjectMatchers sameRoot snd t) as [ | item items ] eqn:E;
    [ exact Hbase | ].
  destruct v as [ | | b | n | z | s | | elems | props | ]; try exact Hbase.
  rewrite isObject_VObject.
  destruct (@createObjectMatchers_traced UnionRoot sameRoot snd t item Ht)
    as [Hm Hn]; [ rewrite E; now left | ].
  destruct (isUndefined _ && _); [ | apply Hm ].
  destruct (m_nothing item) as [ root | ] eqn:En; [ | constructor ].
  apply (Hn root eq_refl).
Qed.

End Traces.

(** X20: whatever the schema and the input, every validation function
    invoked during a validation belongs to a schema the validated schema
    is built from, and is invoked in the mode the validation was started
    in. *)
Theorem X20_invocations_stay_within_the_schema :
  forall t v mode,
    Forall (fun c => part (callee c) t /\ callMode c = mode)
           (snd (func t v mode)).
Proof.
  intros t v mode. revert v. unfold func. induction t
    as [ | | | | | | | | value | shape restType IHs IHr | item IH
       | options IHo | type IH | transformed f IH ] using Schema_induction;
    intros v; try (simpl; unfold check; constructor).
  - (* object *)
    rewrite genFunc_ObjectType. apply objectFunc_traced.
    + unfold entriesOf. rewrite Forall_forall in *.
      intros e Hin. apply in_map_iff in Hin. destruct Hin as [kt [<- Hin]].
      intros x. unfold run, invoke. simpl.
      specialize (IHs kt Hin x).
      destruct (genFunc (snd kt) x mode) as [r cs]. simpl in *.
      constructor.
      * split; [ now apply part_key | reflexivity ].
      * eapply Forall_impl; [ | exact IHs ].
        intros c [Hp Hm]. split; [ | exact Hm ].
        eapply part_trans; [ exact Hp | now apply part_key ].
    + destruct restType as [ r | ]; simpl; [ | exact I ].
      intros x. unfold run, invoke. simpl. specialize (IHr x).
      destruct (genFunc r x mode) as [res cs]. simpl in *.
      constructor.
      * split; [ apply part_rest | reflexivity ].
      * eapply Forall_impl; [ | exact IHr ].
        intros c [Hp Hm]. split; [ | exact Hm ].
        eapply part_trans; [ exact Hp | apply part_rest ].
  - (* array *)
    simpl. apply arrayFunc_traced.
    intros x. unfold run, invoke. simpl. specialize (IH x).
    destruct (genFunc item x mode) as [r cs]. simpl in *.
    constructor.
    + split; [ apply part_item | reflexivity ].
    + eapply Forall_impl; [ | exact IH ].
      intros c [Hp Hm]. split; [ | exact Hm ].
      eapply part_trans; [ exact Hp | apply part_item ].
  - (* union *)
    simpl. apply unionFunc_traced.
    rewrite Forall_forall in *. intros c Hin. apply in_map_iff in Hin.
    destruct Hin as [o [<- Hin]].
    intros x. unfold run, invoke. simpl. specialize (IHo o Hin x).
    destruct (genFunc o x mode) as [r cs]. simpl in *.
    constructor.
    + split; [ now apply part_option | reflexivity ].
    + eapply Forall_impl; [ | exact IHo ].
      intros c [Hp Hm]. split; [ | exact Hm ].
      eapply part_trans; [ exact Hp | now apply part_option ].
  - (* optional *)
    simpl. apply optionalFunc_traced.
    intros x. unfold run, invoke. simpl. specialize (IH x).
    destruct (genFunc type x mode) as [r cs]. simpl in *.
    constructor.
    + split; [ apply part_optional | reflexivity ].
    + eapply Forall_impl; [ | exact IH ].
      intros c [Hp Hm]. split; [ | exact Hm ].
      eapply part_trans; [ exact Hp | apply part_optional ].
  - (* transform *)
    simpl. apply transformFuncOf_traced.
    intros x. unfold run, invoke. simpl. specialize (IH x).
    destruct (genFunc transformed x mode) as [r cs]. simpl in *.
    constructor.
    + split; [ apply part_transformed | reflexivity ].
    + eapply Forall_impl; [ | exact IH ].
      intros c [Hp Hm]. split; [ | exact Hm ].
      eapply part_trans; [ exact Hp | apply part_transformed ].
Qed.

(** ** A union accepts what one of its options accepts *)

Lemma tryEach_inl : forall (Root : Type) (funcOf : Root -> Compiled)
  rootValue mode xs st ret,
  tryEach funcOf rootValue mode xs st = inl ret ->
  exists x, In x xs /\ fst ret = fst (run (funcOf x) rootValue mode).
Proof.
  intros Root funcOf rootValue mode xs.
  induction xs as [ | x xs IH ]; intros st ret H; simpl in H.
  - discriminate.
  - destruct (run (funcOf x) rootValue mode) as [r cs] eqn:Er.
    destruct r;
      try (injection H as <-; exists x; rewrite Er; split;
           [ now left | reflexivity ]).
    destruct (IH _ _ H) as [y [Hy E]]. exists y. split; [ now right | exact E ].
Qed.

Lemma conclude_issue : forall (Root : Type) (tb : Tables Root) path st,
  isIssue (fst (conclude tb path st)) = true.
Proof.
  intros Root tb path st. unfold conclude.
  destruct (t_issueTree st); [ destruct (Nat.ltb 1 (t_count st)) | ];
    reflexivity.
Qed.

(** An answer of the matcher that is not an issue is the answer of one
    of the alternatives it tried. *)
Lemma matcherBody_accepting : forall (Root : Type) (funcOf : Root -> Compiled)
  tb path rootValue value mode,
  isIssue (fst (matcherBody funcOf tb path rootValue value mode)) = false ->
  exists x,
    In x (tried tb value)
    /\ fst (matcherBody funcOf tb path rootValue value mode)
       = fst (run (funcOf x) rootValue mode).
Proof.
  intros Root funcOf tb path rootValue value mode. unfold matcherBody, tried.
  destruct (isNothing value); simpl negb; cbv iota.
  - destruct (tryEach funcOf rootValue mode (nothings tb) _)
      as [ ret | st ] eqn:E.
    + intros _. exact (tryEach_inl _ _ _ _ _ E).
    + intros H. now rewrite conclude_issue in H.
  - destruct (_ && _); [ discriminate | ].
    unfold candidates.
    destruct (tryEach funcOf rootValue mode
                match bucket tb value with Some o => o | None => [] end _)
      as [ ret | st ] eqn:E1.
    + intros _. destruct (tryEach_inl _ _ _ _ _ E1) as [x [Hx E]].
      exists x. split; [ apply in_or_app; now left | exact E ].
    + destruct (tryEach funcOf rootValue mode (unknowns tb) st)
        as [ ret | st' ] eqn:E2.
      * intros _. destruct (tryEach_inl _ _ _ _ _ E2) as [x [Hx E]].
        exists x. split; [ apply in_or_app; now right | exact E ].
      * intros H. now rewrite conclude_issue in H.
Qed.

Lemma mapGet_entry : forall (K V : Type) (is_k : K -> bool) (m : list (K * V)) x,
  mapGet is_k m = Some x -> exists k, In (k, x) m /\ is_k k = true.
Proof.
  intros K V is_k m x. induction m as [ | [k v] m IH ]; simpl.
  - discriminate.
  - destruct (is_k k) eqn:E.
    + intros X. injection X as <-. exists k. split; [ now left | exact E ].
    + intros X. destruct (IH X) as [k' [Hin Hk]]. exists k'.
      split; [ now right | exact Hk ].
Qed.

Lemma strictEqLiteral_sameValueZero : forall v l,
  strictEqLiteral v l = true -> sameValueZero v l = true.
Proof.
  intros v l H. destruct v, l; simpl in *; try discriminate; try exact H.
  rewrite H. apply orb_true_r.
Qed.

Section Covered.

Variable Root : Type.
Variable same : Root -> Root -> bool.
Hypothesis same_refl : forall x, same x x = true.
Hypothesis same_trans : forall a b c,
  same a b = true -> same b c = true -> same a c = true.

Variable t : list (Root * Schema).

Lemma unknowns_built : unknowns (buildTables same t)
                       = dedup same (unknownRoots t).
Proof. unfold buildTables. simpl. now rewrite unknowns_classified. Qed.

(** What a bucket loses when it is cleaned is among the catch-alls. *)
Lemma cleaned_representative : forall l x,
  In x l ->
  exists y,
    In y (cleaned same t l ++ unknowns (buildTables same t))
    /\ same x y = true.
Proof.
  intros l x Hx.
  destruct (dedupFrom_complete same l [] x same_refl Hx)
    as [X | [y [Hy Hs]]]; [ discriminate | ].
  fold (dedup same l) in Hy. rewrite unknowns_built.
  destruct (includes same (dedup same (unknownRoots t)) y) eqn:E.
  - unfold includes in E. apply existsb_exists in E.
    destruct E as [u [Hu Hyu]]. exists u.
    split; [ apply in_or_app; now right | ].
    exact (same_trans Hs Hyu).
  - exists y. split; [ | exact Hs ]. apply in_or_app. left.
    unfold cleaned, difference. apply filter_In. split; [ exact Hy | ].
    now rewrite E.
Qed.

(** The alternatives that accept a value as a literal are among those
    merged into the bucket of its base type. *)
Lemma literalRoots_merged : forall v root,
  In root (literalRoots t v) ->
  In root (mergedRoots t (toBaseType v)).
Proof.
  intros v root H.
  pose proof (literals_classified t (noTables Root) v) as L.
  simpl in L. unfold extended in L.
  destruct (literalRoots t v) as [ | r rs ] eqn:E; [ contradiction | ].
  simpl in L. apply mapGet_entry in L. destruct L as [k [Hin Hk]].
  unfold mergedRoots. apply in_flat_map. exists (k, r :: rs).
  split; [ | exact H ].
  apply filter_In. split; [ exact Hin | ]. simpl.
  rewrite (sameValueZero_base _ _ Hk). apply Name_eqb_refl.
Qed.

(** An alternative one of whose terminals speaks for the value is, up
    to identity, one of the alternatives tried on it. *)
Lemma covered_candidate : forall root terminal v,
  In (root, terminal) t ->
  covers terminal v = true ->
  unexpectedType (buildTables same t) v = false
  /\ exists y,
       In y (candidates (buildTables same t) v) /\ same root y = true.
Proof.
  intros root terminal v Hin Hc. unfold unexpectedType, candidates.
  rewrite bucket_matched.
  assert (Hty : isBase terminal = true ->
                Name_eqb (name terminal) (toBaseType v) = true ->
                In root (typeRoots t (toBaseType v))).
  { intros Hb Hn. unfold typeRoots. apply in_map_iff.
    exists (root, terminal). split; [ reflexivity | ].
    apply filter_In. split; [ exact Hin | ]. simpl. now rewrite Hb, Hn. }
  assert (Hexp : forall b, expects terminal = Some b ->
                 In b (allTypes (buildTables same t))).
  { intros b E. unfold buildTables. simpl allTypes.
    apply allTypes_classified. right. exists terminal.
    split; [ now apply (in_map snd) in Hin | exact E ]. }
  assert (Hguard : forall b, expects terminal = Some b -> b = toBaseType v ->
            Nat.eqb (List.length (unknowns (buildTables same t))) 0
            && negb (existsb (Name_eqb (toBaseType v))
                             (allTypes (buildTables same t))) = false).
  { intros b E ->. apply andb_false_iff. right. apply negb_false_iff.
    apply existsb_exists. exists (toBaseType v).
    split; [ now apply Hexp | apply Name_eqb_refl ]. }
  assert (Hbase : isBase terminal = true ->
                  Name_eqb (name terminal) (toBaseType v) = true ->
                  expects terminal = Some (name terminal) ->
                  Nat.eqb (List.length (unknowns (buildTables same t))) 0
                  && negb (existsb (Name_eqb (toBaseType v))
                                   (allTypes (buildTables same t))) = false
                  /\ exists y,
                       In y (match matched same t v with
                             | Some o => o
                             | None => []
                             end ++ unknowns (buildTables same t))
                       /\ same root y = true).
  { intros Hb Hn He. split.
    - apply (Hguard _ He). now apply Name_eqb_eq.
    - specialize (Hty Hb Hn). unfold matched.
      destruct (typeRoots t (toBaseType v)) as [ | r rs ] eqn:E;
        [ contradiction | ].
      apply cleaned_representative. apply in_or_app. now left. }
  destruct terminal
    as [ | | | | | | | | l | shape restType | item | options | type
       | transformed f ];
    try discriminate;
    try (apply Hbase; [ reflexivity | exact Hc | reflexivity ]).
  - (* the catch-all *)
    assert (Hu : In root (unknownRoots t)) by now apply unknownRoots_In.
    destruct (dedupFrom_complete same (unknownRoots t) [] root same_refl Hu)
      as [X | [y [Hy Hs]]]; [ discriminate | ].
    fold (dedup same (unknownRoots t)) in Hy. rewrite <- unknowns_built in Hy.
    split.
    + destruct (unknowns (buildTables same t)); [ contradiction | reflexivity ].
    + exists y. split; [ apply in_or_app; now right | exact Hs ].
  - (* a literal *)
    simpl in Hc. apply strictEqLiteral_sameValueZero in Hc.
    assert (Hl : In root (literalRoots t v)).
    { unfold literalRoots. apply in_map_iff.
      exists (root, LiteralType l). split; [ reflexivity | ].
      apply filter_In. split; [ exact Hin | exact Hc ]. }
    split.
    + apply (Hguard (toBaseType (ofLiteral l)) eq_refl).
      now apply sameValueZero_base.
    + unfold matched.
      destruct (typeRoots t (toBaseType v)) as [ | r rs ].
      * destruct (literalRoots t v) as [ | x xs ] eqn:E; [ contradiction | ].
        now apply cleaned_representative.
      * apply cleaned_representative. apply in_or_app. right.
        now apply literalRoots_merged.
Qed.

End Covered.

Lemma createObjectMatchers_objects : forall (Root : Type)
  (same : Root -> Root -> bool) (funcOf : Root -> Compiled) t item items,
  createObjectMatchers same funcOf t = item :: items ->
  exists root shape, In (root, shape) (objectsOf t).
Proof.
  intros Root same funcOf t item items H. unfold createObjectMatchers in H.
  destruct (objectsOf t) as [ | [root shape] objects ]; [ discriminate | ].
  exists root, shape. now left.
Qed.

(** A union that has a discriminant key has an object among its
    terminals. *)
Lemma discriminant_object_terminal : forall options item items,
  createObjectMatchers sameRoot snd (unionRoots (compiledOptions options))
  = item :: items ->
  exists shape r, In (ObjectType shape r) (toTerminals (UnionType options)).
Proof.
  intros options item items H.
  destruct (createObjectMatchers_objects _ _ _ H) as [root [shape Hin]].
  apply objectsOf_In in Hin. destruct Hin as [r Hin].
  exists shape, r. apply terminals_unionRoots.
  now apply (in_map snd) in Hin.
Qed.

(** The alternatives the base matcher of a union tries are options at
    their positions. *)
Lemma baseTables_options : forall options v,
  Forall (fun root : UnionRoot => In root (indexed 0 (compiledOptions options)))
         (tried (baseTables options) v).
Proof.
  intros options v. apply tried_Forall. unfold baseTables.
  apply buildTables_all. rewrite Forall_forall. intros [root terminal] Hin.
  now apply unionRoots_In in Hin.
Qed.

(** An answer of a union that is not an issue is the answer of one of
    its options on the same value, unless the union has a discriminant
    key and the value is an object. *)
Lemma unionFunc_accepting : forall options v mode,
  isIssue (fst (unionFunc (compiledOptions options) v mode)) = false ->
  (exists o,
     In o options
     /\ fst (unionFunc (compiledOptions options) v mode)
        = fst (genFunc o v mode))
  \/ (exists props shape r,
        v = VObject props
        /\ In (ObjectType shape r) (toTerminals (UnionType options))).
Proof.
  intros options v mode. unfold unionFunc.
  set (t := unionRoots (compiledOptions options)).
  assert (Hbase : isIssue (fst (createUnionMatcher sameRoot snd t None v v
                                  mode)) = false ->
                  exists o,
                    In o options
                    /\ fst (createUnionMatcher sameRoot snd t None v v mode)
                       = fst (genFunc o v mode)).
  { intros H. unfold createUnionMatcher in *.
    destruct (matcherBody_accepting _ _ _ _ _ _ H) as [x [Hx E]].
    pose proof (baseTables_options options v) as Hp.
    rewrite Forall_forall in Hp. specialize (Hp x Hx).
    apply compiledOptions_In in Hp. destruct Hp as [Hin Hf].
    exists (fst (snd x)). split; [ exact Hin | ].
    now rewrite E, fst_run, Hf. }
  destruct (createObjectMatchers sameRoot snd t) as [ | item items ] eqn:Hm.
  - intros H. left. now apply Hbase.
  - destruct v; try (intros H; left; now apply Hbase).
    intros _. right.
    destruct (discriminant_object_terminal _ Hm) as [shape [r Hin]].
    now exists props, shape, r.
Qed.

(** A schema that accepts a value other than the sentinel has a
    terminal that speaks for the value. *)
Lemma accepted_covered : forall t v mode,
  isNothing v = false ->
  isIssue (fst (genFunc t v mode)) = false ->
  exists terminal, In terminal (toTerminals t) /\ covers terminal v = true.
Proof.
  intros t v mode Hn. induction t
    as [ | | | | | | | | value | shape restType IHs IHr | item IH
       | options IHo | type IH | transformed f IH ] using Schema_induction;
    intros H;
    try (destruct v; simpl in H; try discriminate;
         eexists; (split; [ left; reflexivity | reflexivity ])).
  - (* literal *)
    simpl in H. unfold check in H.
    destruct (strictEqLiteral v value) eqn:E; [ | discriminate ].
    exists (LiteralType value). split; [ now left | exact E ].
  - (* union *)
    simpl in H. fold (compiledOptions options) in H.
    destruct (unionFunc_accepting _ _ _ H)
      as [[o [Hin E]] | [props [shape [r [-> Hin]]]]].
    + rewrite E in H. rewrite Forall_forall in IHo.
      destruct (IHo o Hin H) as [terminal [Ht Hc]].
      exists terminal. split; [ | exact Hc ].
      rewrite toTerminals_union. apply in_flat_map. now exists o.
    + exists (ObjectType shape r). split; [ exact Hin | reflexivity ].
  - (* optional *)
    simpl in H. unfold optionalFunc in H. rewrite toTerminals_optional.
    destruct (isNothing v || isUndefined v) eqn:E.
    + rewrite Hn in E. simpl in E. destruct v; try discriminate.
      exists UndefinedType. split; [ right; now left | reflexivity ].
    + rewrite fst_run in H. destruct (IH H) as [terminal [Ht Hc]].
      exists terminal. split; [ right; now right | exact Hc ].
  - (* transform *)
    simpl in H. unfold transformFuncOf in H.
    assert (Hi : isIssue (fst (genFunc transformed v mode)) = false).
    { pose proof (fst_run (transformed, genFunc transformed) v mode) as R.
      simpl snd in R. rewrite <- R.
      destruct (run (transformed, genFunc transformed) v mode) as [r cs].
      now destruct r. }
    exact (IH Hi).
Qed.

Lemma func_union_undiscriminated : forall options v mode,
  isObject v = false \/ discriminantsOf options = [] ->
  func (UnionType options) v mode
  = matcherBody snd (baseTables options) None v v mode.
Proof.
  intros options v mode [H | H]; [ now apply func_union_base | ].
  unfold func. simpl. fold (compiledOptions options). unfold unionFunc.
  unfold discriminantsOf in H. apply map_eq_nil in H. now rewrite H.
Qed.

Lemma matcherBody_accepted : forall (Root : Type) (funcOf : Root -> Compiled)
  tb path rootValue value mode x,
  isNothing value = false ->
  unexpectedType tb value = false ->
  In x (candidates tb value) ->
  rejects funcOf rootValue mode x = false ->
  isIssue (fst (matcherBody funcOf tb path rootValue value mode)) = false.
Proof.
  intros Root funcOf tb path rootValue value mode x Hn Hg Hx Hr.
  rewrite (@matcherBody_candidates Root funcOf tb path rootValue value mode
             Hn Hg).
  destruct (@tryEach_accepted Root funcOf rootValue mode
              (candidates tb value) (mkTrial None 0 []) x Hx Hr) as [ret E].
  rewrite E. exact (tryEach_return _ _ _ _ _ E).
Qed.

(** X21: on a value that is not the sentinel, and that is not an object
    when the union has a discriminant key, a union accepts exactly when
    one of its options accepts, and its answer is then the answer of an
    option that accepts: sorting the options by their terminals loses no
    option that would accept. *)
Theorem X21_union_accepts_what_an_option_accepts :
  forall options v mode,
    isObject v = false \/ discriminantsOf options = [] ->
    isNothing v = false ->
    (accepts (UnionType options) v mode = true
     <-> exists o, In o options /\ accepts o v mode = true)
    /\ (accepts (UnionType options) v mode = true ->
        exists o,
          In o options
          /\ fst (func (UnionType options) v mode) = fst (func o v mode)).
Proof.
  intros options v mode Hd Hn. unfold accepts.
  rewrite (func_union_undiscriminated options v mode Hd).
  assert (Hsound : negb (isIssue (fst (matcherBody snd (baseTables options)
                                         None v v mode))) = true ->
                   exists o,
                     In o options
                     /\ fst (matcherBody snd (baseTables options) None v v mode)
                        = fst (func o v mode)).
  { intros H. apply negb_true_iff in H.
    destruct (matcherBody_accepting _ _ _ _ _ _ H) as [x [Hx E]].
    pose proof (baseTables_options options v) as Hp.
    rewrite Forall_forall in Hp. specialize (Hp x Hx).
    apply compiledOptions_In in Hp. destruct Hp as [Hin Hf].
    exists (fst (snd x)). split; [ exact Hin | ].
    unfold func. now rewrite E, fst_run, Hf. }
  split; [ split | exact Hsound ].
  - intros H. destruct (Hsound H) as [o [Hin E]]. exists o.
    split; [ exact Hin | ]. now rewrite <- E.
  - intros [o [Hin Ho]]. apply negb_true_iff in Ho. apply negb_true_iff.
    destruct (accepted_covered o v mode Hn Ho) as [terminal [Ht Hc]].
    assert (Hc' : In (o, genFunc o) (compiledOptions options))
      by (unfold compiledOptions; apply in_map_iff; now exists o).
    destruct (In_indexed _ 0 _ Hc') as [i Hi].
    set (root := (i, (o, genFunc o)) : UnionRoot).
    assert (Hr : In (root, terminal) (unionRoots (compiledOptions options)))
      by (apply unionRoots_In; now split).
    destruct (@covered_candidate UnionRoot sameRoot
                (fun x => Nat.eqb_refl (fst x))
                (fun a b c X Y =>
                   proj2 (Nat.eqb_eq _ _)
                     (eq_trans (proj1 (Nat.eqb_eq _ _) X)
                               (proj1 (Nat.eqb_eq _ _) Y)))
                _ root terminal v Hr Hc) as [Hg [y [Hy Hs]]].
    fold (baseTables options) in Hg, Hy.
    assert (Ey : y = root).
    { pose proof (baseTables_options options v) as Hp.
      rewrite Forall_forall in Hp. unfold tried in Hp. rewrite Hn in Hp.
      specialize (Hp y Hy). unfold sameRoot in Hs. apply Nat.eqb_eq in Hs.
      destruct y as [j c]. simpl in Hs. subst j. unfold root. f_equal.
      exact (indexed_functional _ _ _ _ _ Hp Hi). }
    subst y.
    apply (@matcherBody_accepted UnionRoot snd (baseTables options) None v v
             mode root Hn Hg Hy).
    unfold rejects, root. now rewrite fst_run.
Qed.

Lemma X21_witness :
  (accepts (UnionType [LiteralType (LString "a"); NumberType]) (num 1) PASS
   = true
   <-> exists o,
         In o [LiteralType (LString "a"); NumberType]
         /\ accepts o (num 1) PASS = true)
  /\ (accepts (UnionType [LiteralType (LString "a"); NumberType]) (num 1) PASS
      = true ->
      exists o,
        In o [LiteralType (LString "a"); NumberType]
        /\ fst (func (UnionType [LiteralType (LString "a"); NumberType])
                  (num 1) PASS)
           = fst (func o (num 1) PASS)).
Proof.
  apply (@X21_union_accepts_what_an_option_accepts
           [LiteralType (LString "a"); NumberType] (num 1) PASS);
    [ left | ]; reflexivity.
Defined.

(** ** The literals a union expects *)

Lemma keys_mapSet_any : forall (K V : Type) (is_k : K -> bool) k (v : V) m,
  map fst (mapSet is_k k v m)
  = if existsb is_k (map fst m) then map fst m else map fst m ++ [k].
Proof.
  intros K V is_k k v m. induction m as [ | [k0 v0] m IH ]; simpl.
  - reflexivity.
  - destruct (is_k k0); simpl; [ reflexivity | ].
    rewrite IH. now destruct (existsb is_k (map fst m)).
Qed.

Lemma mapKey_mapKey : forall l, mapKey (mapKey l) = mapKey l.
Proof.
  intros [ s | n | z | b ]; try reflexivity.
  destruct n as [ [ | ] | | | ]; reflexivity.
Qed.

(** The keys of the map of literals are the literals of the terminals,
    each as the map stores it. *)
Lemma literal_keys_classified : forall (Root : Type)
  (t : list (Root * Schema)) tb,
  Forall (fun k => mapKey k = k) (map fst (literals tb)) ->
  Forall (fun k => mapKey k = k)
         (map fst (literals (fold_left (classify (Root:=Root)) t tb)))
  /\ forall k,
       In k (map fst (literals (fold_left (classify (Root:=Root)) t tb)))
       <-> In k (map fst (literals tb))
           \/ exists l, In (LiteralType l) (map snd t) /\ k = mapKey l.
Proof.
  intros Root t. induction t as [ | [root terminal] t IH ]; intros tb Hk.
  - simpl. split; [ exact Hk | ]. intros k. split; [ now left | ].
    intros [H | [l [[] _]]]. exact H.
  - rewrite fold_step.
    assert (Hstep : Forall (fun k => mapKey k = k)
                      (map fst (literals (classify tb (root, terminal))))
                    /\ forall k,
                         In k (map fst (literals (classify tb (root, terminal))))
                         <-> In k (map fst (literals tb))
                             \/ exists l, terminal = LiteralType l
                                          /\ k = mapKey l).
    { rewrite literals_classify.
      destruct terminal
        as [ | | | | | | | | l | shape restType | item | options | type
           | transformed f ];
        try (split; [ exact Hk | ]; intros k;
             split; [ now left | ]; intros [H | [l [E _]]];
             [ exact H | discriminate ]).
      rewrite keys_mapSet_any.
      destruct (existsb (sameLiteral l) (map fst (literals tb))) eqn:E.
      - split; [ exact Hk | ]. intros k. split; [ now left | ].
        intros [H | [l' [El ->]]]; [ exact H | ].
        injection El as <-.
        apply existsb_exists in E. destruct E as [k' [Hin Hs]].
        apply sameLiteral_mapKey in Hs.
        rewrite Forall_forall in Hk. rewrite (Hk k' Hin) in Hs.
        now rewrite Hs.
      - split.
        + apply Forall_app. split; [ exact Hk | ].
          constructor; [ apply mapKey_mapKey | constructor ].
        + intros k. rewrite in_app_iff. simpl. split.
          * intros [H | [<- | []]]; [ now left | ].
            right. now exists l.
          * intros [H | [l' [El ->]]]; [ now left | ].
            injection El as <-. right. now left. }
    destruct Hstep as [Hk' Hstep].
    destruct (IH _ Hk') as [Hn Hall]. split; [ exact Hn | ].
    intros k. rewrite Hall, Hstep. simpl map. split.
    + intros [[H | [l [-> ->]]] | [l [Hin ->]]].
      * now left.
      * right. exists l. split; [ now left | reflexivity ].
      * right. exists l. split; [ now right | reflexivity ].
    + intros [H | [l [[E | Hin] ->]]].
      * left. now left.
      * left. right. now exists l.
      * right. now exists l.
Qed.

Lemma typeRoots_unclassed : forall (Root : Type) (t : list (Root * Schema)) b,
  typeRoots t b = [] <-> unclassed (map snd t) b.
Proof.
  intros Root t b. unfold typeRoots, unclassed.
  induction t as [ | [root terminal] t IH ]; simpl.
  - split; [ constructor | reflexivity ].
  - destruct (isBase terminal && Name_eqb (name terminal) b) eqn:E; simpl.
    + split; [ discriminate | ]. intros H. inversion H as [ | ? ? X _ ]; subst.
      rewrite E in X. discriminate.
    + rewrite IH. split.
      * intros H. constructor; [ exact E | exact H ].
      * intros H. now inversion H.
Qed.

(** The literals the tables keep for [invalid_literal] are those whose
    base type no terminal stands for as such. *)
Lemma expectedLiterals_built : forall (Root : Type)
  (same : Root -> Root -> bool) (t : list (Root * Schema)) k,
  In k (map fst (literals (buildTables same t)))
  <-> exists l,
        In (LiteralType l) (map snd t)
        /\ k = mapKey l
        /\ unclassed (map snd t) (toBaseType (ofLiteral l)).
Proof.
  intros Root same t k. unfold buildTables. simpl literals.
  rewrite map_map. simpl.
  destruct (literal_keys_classified t (noTables Root) (Forall_nil _))
    as [_ Hkeys].
  assert (Hbase : forall l, toBaseType (ofLiteral (mapKey l))
                            = toBaseType (ofLiteral l)).
  { intros [ s | n | z | b ]; try reflexivity.
    destruct n as [ [ | ] | | | ]; reflexivity. }
  assert (Hun : forall e : Literal * list Root,
            unmerged (types (fold_left (classify (Root:=Root)) t
                                       (noTables Root))) e = true
            <-> unclassed (map snd t) (toBaseType (ofLiteral (fst e)))).
  { intros e. unfold unmerged. rewrite types_classified. simpl.
    rewrite <- typeRoots_unclassed. unfold extended.
    destruct (typeRoots t (toBaseType (ofLiteral (fst e)))); simpl.
    - split; reflexivity.
    - split; discriminate. }
  rewrite in_map_iff. split.
  - intros [e [<- He]]. apply filter_In in He. destruct He as [Hin Hu].
    apply Hun in Hu.
    assert (X : In (fst e) (map fst (literals
                 (fold_left (classify (Root:=Root)) t (noTables Root)))))
      by now apply in_map.
    apply Hkeys in X. destruct X as [[] | [l [Hl E]]].
    exists l. split; [ exact Hl | split; [ exact E | ] ].
    now rewrite E, Hbase in Hu.
  - intros [l [Hl [-> Hu]]].
    assert (X : In (mapKey l) (map fst (literals
                 (fold_left (classify (Root:=Root)) t (noTables Root)))))
      by (apply Hkeys; right; now exists l).
    apply in_map_iff in X. destruct X as [e [E He]].
    exists e. split; [ exact E | ].
    apply filter_In. split; [ exact He | ].
    apply Hun. now rewrite E, Hbase.
Qed.

Lemma unlisted_roots : forall (Root : Type) (t : list (Root * Schema)) v,
  Forall (fun terminal => listed terminal v = false) (map snd t) ->
  typeRoots t (toBaseType v) = []
  /\ literalRoots t v = []
  /\ unknownRoots t = [].
Proof.
  intros Root t v H. unfold typeRoots, literalRoots, unknownRoots.
  induction t as [ | [root terminal] t IH ]; simpl.
  - auto.
  - simpl in H. inversion H as [ | ? ? Hx Ht ]; subst.
    destruct (IH Ht) as [I1 [I2 I3]].
    destruct terminal; simpl in *; try discriminate;
      rewrite ?Hx; simpl; auto.
Qed.

Lemma matcherBody_unlisted : forall (Root : Type) (funcOf : Root -> Compiled)
  tb path rootValue value mode,
  isNothing value = false ->
  unexpectedType tb value = false ->
  candidates tb value = [] ->
  matcherBody funcOf tb path rootValue value mode
  = (RIssue (issue (invalid_literal path (map fst (literals tb)))), []).
Proof.
  intros Root funcOf tb path rootValue value mode Hn Hg Hc.
  rewrite (@matcherBody_candidates Root funcOf tb path rootValue value mode
             Hn Hg).
  now rewrite Hc.
Qed.

(** X22: a union answers a value that is not the sentinel (nor an
    object, when the union has a discriminant key) with the single issue
    [invalid_literal], without invoking any option, when the base type of
    the value is expected but no terminal lists an option for the value.
    The issue lists, as the map of literals stores them, exactly the
    literals of the union whose base type no terminal stands for as
    such. *)
Theorem X22_union_rejects_unlisted_literal :
  forall options v mode,
    isObject v = false \/ discriminantsOf options = [] ->
    isNothing v = false ->
    Forall (fun terminal => listed terminal v = false)
           (toTerminals (UnionType options)) ->
    Exists (fun terminal => expects terminal = Some (toBaseType v))
           (toTerminals (UnionType options)) ->
    exists expected,
      func (UnionType options) v mode
      = (RIssue (issue (invalid_literal None expected)), [])
      /\ forall k,
           In k expected
           <-> exists l,
                 In (LiteralType l) (toTerminals (UnionType options))
                 /\ k = mapKey l
                 /\ unclassed (toTerminals (UnionType options))
                              (toBaseType (ofLiteral l)).
Proof.
  intros options v mode Hd Hn Hall Hex.
  rewrite (func_union_undiscriminated options v mode Hd).
  set (t := unionRoots (compiledOptions options)).
  assert (Hterm : forall P : Schema -> Prop,
            Forall P (toTerminals (UnionType options))
            <-> Forall P (map snd t)).
  { intros P. rewrite !Forall_forall. split; intros H x Hx; apply H;
      now apply terminals_unionRoots. }
  exists (map fst (literals (baseTables options))). split.
  - apply Hterm in Hall.
    destruct (unlisted_roots t v Hall) as [Hty [Hli Hun]].
    assert (Hu : unknowns (baseTables options) = []).
    { unfold baseTables, buildTables. simpl unknowns.
      rewrite unknowns_classified. fold t. now rewrite Hun. }
    assert (Hg : unexpectedType (baseTables options) v = false).
    { unfold unexpectedType. apply andb_false_iff. right.
      apply negb_false_iff. apply existsb_exists. exists (toBaseType v).
      split; [ | apply Name_eqb_refl ].
      unfold baseTables, buildTables. simpl allTypes.
      apply allTypes_classified. right.
      apply Exists_exists in Hex. destruct Hex as [x [Hx E]].
      exists x. split; [ now apply terminals_unionRoots | exact E ]. }
    assert (Hc : candidates (baseTables options) v = []).
    { unfold candidates. rewrite Hu, app_nil_r.
      unfold baseTables. rewrite bucket_matched. fold t.
      unfold matched. now rewrite Hty, Hli. }
    now apply matcherBody_unlisted.
  - intros k. unfold baseTables. rewrite expectedLiterals_built. fold t.
    split; intros [l [Hl [E Hu]]]; exists l; unfold unclassed in *;
      (split; [ now apply terminals_unionRoots
              | split; [ exact E | now apply Hterm ] ]).
Qed.

Lemma X22_witness :
  exists expected,
    func (UnionType [LiteralType (LString "a"); LiteralType (LString "b")])
         (VString "c") PASS
    = (RIssue (issue (invalid_literal None expected)), [])
    /\ forall k,
         In k expected
         <-> exists l,
               In (LiteralType l)
                  (toTerminals
                     (UnionType [LiteralType (LString "a");
                                 LiteralType (LString "b")]))
               /\ k = mapKey l
               /\ unclassed
                    (toTerminals
                       (UnionType [LiteralType (LString "a");
                                   LiteralType (LString "b")]))
                    (toBaseType (ofLiteral l)).
Proof.
  apply (@X22_union_rejects_unlisted_literal
           [LiteralType (LString "a"); LiteralType (LString "b")]
           (VString "c") PASS).
  - left. reflexivity.
  - reflexivity.
  - repeat constructor.
  - left. reflexivity.
Defined.

(** ** When a validation answers [true] *)

(** X23: an object validation answers [true] exactly when it succeeds,
    no declared key and no key validated against the rest schema was
    answered with a new value, and it is not the case that the mode is
    strip and the input has an undeclared key (with a rest schema too,
    where the clone keeps every key: the input of C4); an array
    validation, exactly when it succeeds and no element was answered with
    a new value.  In passthrough mode a schema whose transforms only
    assert returns every valid input unchanged. *)
Theorem X23_unchanged_unless_cloned :
  (forall shape restType obj mode,
     fst (func (ObjectType shape restType) (VObject obj) mode) = RTrue
     <-> isIssue (fst (func (ObjectType shape restType) (VObject obj) mode))
         = false
         /\ clones (entriesOf shape) (restOf restType) obj mode = false)
  /\ (forall item arr mode,
        fst (func (ArrayType item) (VArray arr) mode) = RTrue
        <-> isIssue (fst (func (ArrayType item) (VArray arr) mode)) = false
            /\ existsb (fun x => isNew (fst (func item x mode))) arr = false)
  /\ (forall t v options,
        onlyAsserts t ->
        modeOf options = PASS ->
        isIssue (fst (func t v PASS)) = false ->
        fst (func t v PASS) = RTrue /\ parse t v options = inl v).
Proof.
  split; [ | split ].
  - intros shape restType obj mode. rewrite func_object.
    destruct (stopsEarly (entriesOf shape) obj mode) eqn:Estop.
    + pose proof (objectBody_stops (entriesOf shape) (restOf restType)
                    obj mode Estop) as Hi.
      split; [ intros E; rewrite E in Hi; discriminate | ].
      intros [E _]. rewrite E in Hi. discriminate.
    + destruct (objectBody_all (entriesOf shape) (restOf restType)
                  obj mode Estop) as [st [E [_ Ho]]].
      rewrite E, <- Ho. unfold finish.
      destruct (pending st); [ | destruct (output st) ]; simpl;
        intuition discriminate.
  - intros item arr mode. unfold func. simpl. unfold arrayBody.
    assert (Hy : forall l,
      existsb (fun x => isNew (fst (genFunc item x mode))) l
      = existsb (fun x => isNew (fst (run (item, genFunc item) x mode))) l).
    { induction l as [ | y l IH ]; [ reflexivity | ].
      simpl. now rewrite fst_run, IH. }
    rewrite Hy.
    pose proof (elements_output (item, genFunc item) arr mode arr 0
                  (mkArrLocals None None [])) as Ho.
    simpl in Ho.
    destruct (a_pending _); [ | destruct (a_output _) ]; simpl;
      intuition discriminate.
  - intros t v options Ha Hm Hi.
    assert (Hs : isStrip PASS = false) by reflexivity.
    pose proof (@onlyAsserts_keeps t _ Hs Ha v) as Hk.
    unfold parse. rewrite Hm. unfold func in *.
    destruct (fst (genFunc t v PASS)) as [ | x | tree ].
    + auto.
    + now elim (Hk x).
    + discriminate.
Qed.

Lemma X23_witness :
  parse nested (VObject [("a", VArray [VObject [("b", num 1)]])]) None
  = inl (VObject [("a", VArray [VObject [("b", num 1)]])]).
Proof.
  apply (proj2 (proj2 X23_unchanged_unless_cloned) nested
           (VObject [("a", VArray [VObject [("b", num 1)]])]) None).
  - simpl. tauto.
  - reflexivity.
  - reflexivity.
Defined.

(** * Parsing twice *)

(** ** Lookups in an object that was written to *)




(** ** The loops on an object that is already settled *)



(** ** What a successful validation of an object leaves behind *)




(** ** Passthrough mode: the clone of an object is settled *)


(** ** Strip mode: the stripped clone is settled *)



(** ** Arrays, optional schemas, transforms and unions *)







(** ** C6: parsing the result of a parse *)


(** Nor does it hold in strip mode without any transform: the value
    stripped by the second alternative is accepted by the first. *)
Lemma strip_parse_is_not_idempotent :
  ~ idempotent eitherShape (VObject [("a", num 1); ("c", VString "bad")])
      (Some (Some strip)).
Proof.
  intros H. specialize (H (VObject [("a", num 1)]) eq_refl).
  vm_compute in H. discriminate.
Qed.

(** Nor for a union of two transforms that each map their results to
    themselves: the result of the second option is accepted, and mapped
    further, by the first. *)
Lemma union_of_transforms_is_not_idempotent :
  parse (UnionType [narrowed; widened]) (VString "a") None
  = inl (VString "b")
  /\ parse (UnionType [narrowed; widened]) (VString "b") None
     = inl (VString "c")
  /\ ~ idempotent (UnionType [narrowed; widened]) (VString "a") None.
Proof.
  split; [ reflexivity | split; [ reflexivity | ] ].
  intros H. specialize (H (VString "b") eq_refl). vm_compute in H.
  discriminate.
Qed.

(** Outside passthrough mode an object without a rest schema that meets
    a new value after it met no undeclared key copies the template of its
    shape, in which every key is [undefined], and the keys already passed
    stay so: the result of a strip-mode parse of a nested object, and of
    a strict-mode parse of an object with a transformed field, is
    rejected by a second parse. *)
Lemma clone_of_the_shape_is_not_idempotent :
  parse holder
        (VObject [("a", num 1); ("b", VObject [("c", num 2); ("z", num 3)])])
        (Some (Some strip))
  = inl (VObject [("a", VUndefined); ("b", VObject [("c", num 2)])])
  /\ ~ idempotent holder
         (VObject [("a", num 1);
                   ("b", VObject [("c", num 2); ("z", num 3)])])
         (Some (Some strip))
  /\ parse normalised
           (VObject [("a", VString "q"); ("b", VArray [num 1])])
           (Some (Some strict))
     = inl (VObject [("a", VString "x"); ("b", VUndefined)])
  /\ ~ idempotent normalised
         (VObject [("a", VString "q"); ("b", VArray [num 1])])
         (Some (Some strict)).
Proof.
  split; [ reflexivity | split; [ | split; [ reflexivity | ] ] ].
  - intros H.
    specialize (H (VObject [("a", VUndefined); ("b", VObject [("c", num 2)])])
                  eq_refl).
    vm_compute in H. discriminate.
  - intros H.
    specialize (H (VObject [("a", VString "x"); ("b", VUndefined)]) eq_refl).
    vm_compute in H. discriminate.
Qed.


